(** * srttranslate: the translation request scheduler

    A shallow embedding of [services/translationService.ts] (the bounded
    LRU result cache, the in-flight de-duplicating [translate], the queue
    and worker pool, the batch coordinator [translateBatch]) and of
    [hooks/useTranslation.ts] (the session controller), followed by the
    properties established about them.

    Conventions of the embedding.
    - A JavaScript string is a [string]; a character is one code unit.
    - [string | undefined] is [option string]; a JS [Map] is a [gmap].
    - A JS number that is computed with is a binary64 [float]; integers
      that are only counted or compared are [nat] or [Z]; a number that
      is only selected and compared (the concurrency limit, which any
      caller may set) is a [JS.Number], its value.
    - An [async] function is cut at its [await]s: the code between two
      suspension points is one atomic transition of a labelled transition
      system whose labels are the API calls and the completions delivered
      by the environment (a remote attempt ends, a continuation resumes).
      Any interleaving of the labels is allowed. *)

From Stdlib Require Import ZArith Lia String Ascii DecimalString.
From Stdlib Require Import QArith Qround.
From Stdlib Require Floats.
From stdpp Require Import gmap strings list fin_maps sorting.

Local Set Warnings "-clear-no-such-hyp,-register-all".
Local Close Scope Q_scope.
Local Open Scope string_scope.
Local Open Scope list_scope.
Local Open Scope nat_scope.

(** ** JavaScript values used by the code *)

Module JS.

(** Truthiness of a string: only the empty string is falsy. *)
Definition truthy (s : string) : bool :=
  match s with
  | EmptyString => false
  | String _ _ => true
  end.

(** Truthiness of a [string | undefined]. *)
Definition truthy_opt (v : option string) : bool :=
  match v with
  | Some s => truthy s
  | None => false
  end.

(** [WhiteSpace] and [LineTerminator] code units below 256: TAB, LF, VT, FF,
    CR, SPACE and NBSP are what [String.prototype.trim] strips. *)
Definition isWhiteSpace (c : ascii) : bool :=
  let n := nat_of_ascii c in
  (Nat.leb 9 n && Nat.leb n 13) || Nat.eqb n 32 || Nat.eqb n 160.

Fixpoint trimStart (s : string) : string :=
  match s with
  | String c s' => if isWhiteSpace c then trimStart s' else s
  | EmptyString => EmptyString
  end.

Definition reverse (s : string) : string :=
  string_of_list_ascii (rev (list_ascii_of_string s)).

Definition trim (s : string) : string :=
  reverse (trimStart (reverse (trimStart s))).

(** A text "consisting only of whitespace" (the empty text included). *)
Fixpoint allWhiteSpace (s : string) : bool :=
  match s with
  | String c s' => isWhiteSpace c && allWhiteSpace s'
  | EmptyString => true
  end.

(** The number of an integer below 2^53. *)
Definition number (z : Z) : PrimFloat.float :=
  PrimFloat.of_uint63 (Uint63.of_Z z).

(** [Math.floor] of a finite number ([0] stands for the others, which the
    code does not produce). *)
Definition floor (x : PrimFloat.float) : Z :=
  match FloatOps.Prim2SF x with
  | SpecFloat.S754_finite sign m e =>
      let mantissa := if sign then Zneg m else Zpos m in
      match e with
      | Z0 => mantissa
      | Zpos p => (mantissa * 2 ^ Zpos p)%Z
      | Zneg p => (mantissa / 2 ^ Zpos p)%Z
      end
  | _ => 0%Z
  end.

(** [x || 1] for a number: [1] when [x] is [0] or [NaN]. *)
Definition orOne (x : PrimFloat.float) : PrimFloat.float :=
  if PrimFloat.eqb x PrimFloat.zero || PrimFloat.is_nan x then PrimFloat.one else x.

(** [Math.max(1, x)] for a number that is not [NaN]. *)
Definition max1 (x : PrimFloat.float) : PrimFloat.float :=
  if PrimFloat.ltb PrimFloat.one x then x else PrimFloat.one.

(** [Array.prototype.pop]: the last element (or [undefined]) and the rest. *)
Definition pop {A} (l : list A) : option A * list A :=
  (last l, removelast l).

(** [Array.prototype.slice(a, b)] for [0 <= a]. *)
Definition slice {A} (a b : nat) (l : list A) : list A :=
  take (b - a) (drop a l).

(** A number by its value: NaN, an infinity, or a rational (every finite
    binary64 number is one).  It serves for numbers that the code only
    selects and compares, with [Math.min], [Math.max] and [<]: these
    operations do not round.  The two zeros have one value. *)
Inductive Number :=
| NaN
| NegInfinity
| Finite (q : Q)
| PosInfinity.

Definition ofInt (n : Z) : Number := Finite (inject_Z n).

(** [a < b]: false as soon as one side is NaN. *)
Definition numLt (a b : Number) : bool :=
  match a, b with
  | NaN, _ | _, NaN => false
  | _, NegInfinity => false
  | NegInfinity, _ => true
  | PosInfinity, _ => false
  | Finite _, PosInfinity => true
  | Finite p, Finite q => match Qcompare p q with Lt => true | _ => false end
  end.

(** [Math.min(a, b)] and [Math.max(a, b)]: NaN as soon as one argument
    is NaN. *)
Definition mathMin (a b : Number) : Number :=
  match a, b with
  | NaN, _ | _, NaN => NaN
  | _, _ => if numLt b a then b else a
  end.

Definition mathMax (a b : Number) : Number :=
  match a, b with
  | NaN, _ | _, NaN => NaN
  | _, _ => if numLt a b then b else a
  end.

Arguments numLt : simpl never.
Arguments mathMin : simpl never.
Arguments mathMax : simpl never.

End JS.

(** ** The result cache: [class LRUCache] *)

Module LRU.

Record LRUCache := mkLRU {
  cache : gmap string string;
  maxSize : nat;
  keys : list string
}.

(** [constructor(maxSize = 1000)] *)
Definition new (maxSize : nat) : LRUCache :=
  {| cache := ∅; maxSize := maxSize; keys := [] |}.

Definition getKey (sourceLang targetLang text : string) : string :=
  sourceLang +:+ "_" +:+ targetLang +:+ "_" +:+ text.

(** [this.keys.filter(k => k !== key)] *)
Definition without (key : string) (ks : list string) : list string :=
  filter (λ k, k ≠ key) ks.

(** [get]: the value (or [undefined]) and the cache afterwards.  The entry
    is moved to the front only under [if (value)]. *)
Definition get (c : LRUCache) (sourceLang targetLang text : string)
  : option string * LRUCache :=
  let key := getKey sourceLang targetLang text in
  let value := cache c !! key in
  if JS.truthy_opt value
  then (value, {| cache := cache c; maxSize := maxSize c;
                  keys := key :: without key (keys c) |})
  else (value, c).

Definition set (c : LRUCache) (sourceLang targetLang text translatedText : string)
  : LRUCache :=
  let key := getKey sourceLang targetLang text in
  let c1 :=
    if bool_decide (is_Some (cache c !! key))
    then {| cache := cache c; maxSize := maxSize c; keys := without key (keys c) |}
    else if Nat.leb (maxSize c) (size (cache c))
    then
      let '(oldestKey, rest) := JS.pop (keys c) in
      match oldestKey with
      | Some k =>
          {| cache := if JS.truthy k then delete k (cache c) else cache c;
             maxSize := maxSize c; keys := rest |}
      | None => {| cache := cache c; maxSize := maxSize c; keys := rest |}
      end
    else c in
  {| cache := <[key := translatedText]> (cache c1);
     maxSize := maxSize c1;
     keys := key :: keys c1 |}.

Definition clear (c : LRUCache) : LRUCache :=
  {| cache := ∅; maxSize := maxSize c; keys := [] |}.

(** [get size()] *)
Definition size (c : LRUCache) : nat := base.size (cache c).

(** *** Histories of cache operations

    The operations a client of the cache performs, and the log of what was
    observed: for a [get], the value it returned. *)

Inductive op :=
| OpGet (sourceLang targetLang text : string)
| OpSet (sourceLang targetLang text translatedText : string)
| OpClear.

Inductive event :=
| EvGet (key : string) (result : option string)
| EvSet (key : string)
| EvClear.

Definition step (c : LRUCache) (o : op) : event * LRUCache :=
  match o with
  | OpGet s t x => let '(v, c') := get c s t x in (EvGet (getKey s t x) v, c')
  | OpSet s t x v => (EvSet (getKey s t x), set c s t x v)
  | OpClear => (EvClear, clear c)
  end.

(** Runs the operations oldest first; the history is kept newest first. *)
Fixpoint run (c : LRUCache) (h : list event) (ops : list op)
  : list event * LRUCache :=
  match ops with
  | [] => (h, c)
  | o :: ops' => let '(e, c') := step c o in run c' (e :: h) ops'
  end.

(** Two readings of "the entry was accessed by this operation".
    [accessedByCall]: every [get] or [set] naming the key counts.
    [accessedByHit]: a [set] counts, and a [get] that returned a non-empty
    value counts. *)
Definition accessedByCall (e : event) (k : string) : bool :=
  match e with
  | EvGet k' _ => bool_decide (k' = k)
  | EvSet k' => bool_decide (k' = k)
  | EvClear => false
  end.

Definition accessedByHit (e : event) (k : string) : bool :=
  match e with
  | EvGet k' v => bool_decide (k' = k) && JS.truthy_opt v
  | EvSet k' => bool_decide (k' = k)
  | EvClear => false
  end.

(** The time (1-based position in the history) of the last access to [k];
    [0] when [k] was never accessed. *)
Fixpoint lastAccess (acc : event → string → bool) (h : list event) (k : string) : nat :=
  match h with
  | [] => 0
  | e :: h' => if acc e k then S (length h') else lastAccess acc h' k
  end.

(** The list [keys] is ordered by decreasing time of last access. *)
Definition byRecency (acc : event → string → bool) (h : list event) : relation string :=
  λ a b, lastAccess acc h b < lastAccess acc h a.

(** The bookkeeping of the cache is consistent with the history [h]: the
    keys are exactly those of the entries, each once, most recently
    accessed first. *)
Record consistent (acc : event → string → bool) (h : list event) (c : LRUCache)
  : Prop := {
  cons_sorted : StronglySorted (byRecency acc h) (keys c);
  cons_nodup : NoDup (keys c);
  cons_dom : ∀ k, k ∈ keys c ↔ is_Some (cache c !! k);
  cons_truthy : ∀ k, k ∈ keys c → JS.truthy k = true;
  cons_size : base.size (cache c) ≤ maxSize c
}.

(** The eviction statement, for a cache of capacity [M] and a notion of
    access: after any operations the cache holds at most [M] entries, and a
    [set] of a new key at capacity evicts exactly one entry, which was
    accessed strictly earlier than every other entry and which a subsequent
    [get] does not find. *)
Definition evictsLeastRecentlyAccessed
    (M : nat) (acc : event → string → bool) : Prop :=
  ∀ (ops : list op) (h : list event) (c : LRUCache),
    run (new M) [] ops = (h, c) →
    size c ≤ M ∧
    ∀ s t x v,
      cache c !! getKey s t x = None →
      size c = M →
      ∃ victim,
        is_Some (cache c !! victim) ∧
        (∀ k, is_Some (cache c !! k) → k ≠ victim →
              lastAccess acc h victim < lastAccess acc h k) ∧
        cache (set c s t x v) = <[getKey s t x := v]> (delete victim (cache c)) ∧
        (∀ s' t' x', getKey s' t' x' = victim →
              (get (set c s t x v) s' t' x').1 = None).

(** An operation that stores no empty translation. *)
Definition storesNonEmpty (o : op) : bool :=
  match o with
  | OpSet _ _ _ translatedText => JS.truthy translatedText
  | _ => true
  end.

(** *** A history that fills the cache

    [fillNonEmpty n]: [set] of [n] distinct texts "0", "1", ... in this
    order, each with the translation ["x"]. *)

Definition textOf (i : nat) : string := NilEmpty.string_of_uint (Nat.to_uint i).

Definition fillNonEmpty (n : nat) : list op :=
  map (λ i, OpSet "ja" "zh" (textOf i) "x") (seq 0 n).

(** The cache is filled to its capacity, then the oldest entry is read. *)
Definition fillThenGetOldest : list op :=
  fillNonEmpty 1000 ++ [OpGet "ja" "zh" "0"].

End LRU.

(** ** The scheduler: [class TranslationService] *)

Module Service.

Record TranslationOptions := mkOptions {
  sourceLanguage : string;
  targetLanguage : string;
  text : string
}.

(** The key under which [translate] caches and de-duplicates a request. *)
Definition keyOf (o : TranslationOptions) : string :=
  LRU.getKey (sourceLanguage o) (targetLanguage o) (text o).

(** Errors thrown by the service (the messages are diagnostics only). *)
Inductive Error :=
| UnsupportedPair                     (* the language pair is not ja -> zh *)
| TextTooLong (length : nat)          (* more than 5000 characters *)
| HttpStatus (status : nat)           (* [!response.ok] *)
| InvalidResponse                     (* the body has not the expected shape *)
| RequestTimedOut                     (* [AbortError] *)
| FetchFailed                         (* [fetch] or [response.json()] threw *)
| RetriesExhausted (lastError : Error).

(** A parsed JSON body. *)
Inductive JSON :=
| JNull
| JBool (b : bool)
| JNum (n : Z)
| JStr (s : string)
| JArr (items : list JSON)
| JObj.

(** How one [fetch] ends; chosen by the environment. *)
Inductive FetchOutcome :=
| ResponseOk (data : JSON)
| ResponseNotOk (status : nat)
| Aborted
| Failed.

Inductive Settled :=
| Fulfilled (value : string)
| Rejected (error : Error).

(** An entry of [translationQueue]; [resolve] and [reject] settle the
    promise numbered [promise]. *)
Record QueueItem := mkItem {
  options : TranslationOptions;
  promise : nat
}.

(** A frame of [executeTranslationTask] suspended at
    [await this.translateWithGoogleAPI(task.options)]. *)
Record Worker := mkWorker {
  task : QueueItem;
  attempts : nat;
  lastError : option Error
}.

Record TranslationService := mkService {
  resultCache : LRU.LRUCache;
  promiseCache : gmap string nat;
  maxConcurrent : JS.Number;
  activeTranslations : Z;
  translationQueue : list QueueItem;
  isProcessing : bool;
  (* the run-time state of the asynchronous code *)
  promises : list (option Settled);   (* the promises created by [translate] *)
  workers : list Worker;              (* suspended [executeTranslationTask] frames *)
  awaiting : list QueueItem;          (* [translate] frames at [await translationPromise] *)
  fetches : list string               (* the [q] of every [fetch] issued, newest first *)
}.

(** [new TranslationService()] *)
Definition new : TranslationService :=
  {| resultCache := LRU.new 1000; promiseCache := ∅;
     maxConcurrent := JS.ofInt 40;
     activeTranslations := 0; translationQueue := []; isProcessing := false;
     promises := []; workers := []; awaiting := []; fetches := [] |}.

Definition supported (sourceLanguage targetLanguage : string) : bool :=
  String.eqb sourceLanguage "ja" && String.eqb targetLanguage "zh".

Definition isNewline (c : ascii) : bool :=
  let n := nat_of_ascii c in Nat.eqb n 10 || Nat.eqb n 13.

(** [s.replace(/[\r\n]+/g, ' ')]; [inRun] tells that the previous character
    belonged to the run being replaced. *)
Fixpoint replaceNewlines (inRun : bool) (s : string) : string :=
  match s with
  | EmptyString => EmptyString
  | String c s' =>
      if isNewline c
      then if inRun then replaceNewlines true s'
           else String " " (replaceNewlines true s')
      else String c (replaceNewlines false s')
  end.

Definition processedText (text : string) : string :=
  replaceNewlines false (JS.trim text).

Definition maxTextLength : nat := 5000.

(** Whether [translateWithGoogleAPI] reaches its [fetch]. *)
Definition reachesFetch (o : TranslationOptions) : bool :=
  supported (sourceLanguage o) (targetLanguage o)
  && Nat.leb (String.length (processedText (text o))) maxTextLength.

Definition falsy (j : JSON) : bool :=
  match j with
  | JNull => true
  | JBool b => negb b
  | JNum n => Z.eqb n 0
  | JStr s => negb (JS.truthy s)
  | JArr _ => false
  | JObj => false
  end.

(** The parsing of the body: [data[0][0][0]], or the original text when
    the translation is missing, not a string or blank. *)
Definition parseResponse (text : string) (data : JSON) : Settled :=
  match data with
  | JArr (JArr (first :: _) :: _) =>
      match first with
      | JArr (translated :: _) =>
          if falsy translated then Fulfilled text
          else match translated with
               | JStr translatedText =>
                   if JS.truthy (JS.trim translatedText)
                   then Fulfilled translatedText
                   else Fulfilled text
               | _ => Fulfilled text
               end
      | _ => Fulfilled text
      end
  | _ => Rejected InvalidResponse
  end.

(** [translateWithGoogleAPI], given how its [fetch] ends. *)
Definition translateWithGoogleAPI (o : TranslationOptions) (outcome : FetchOutcome)
  : Settled :=
  if negb (supported (sourceLanguage o) (targetLanguage o)) then Rejected UnsupportedPair
  else
    let n := String.length (processedText (text o)) in
    if Nat.ltb maxTextLength n then Rejected (TextTooLong n)
    else match outcome with
         | ResponseOk data => parseResponse (text o) data
         | ResponseNotOk status => Rejected (HttpStatus status)
         | Aborted => Rejected RequestTimedOut
         | Failed => Rejected FetchFailed
         end.

Definition maxAttempts : nat := 3.

(** The beginning of [executeTranslationTask]: the first attempt is under
    way. *)
Definition logFetch (o : TranslationOptions) (log : list string) : list string :=
  if reachesFetch o then processedText (text o) :: log else log.

Definition executeTranslationTask (s : TranslationService) (t : QueueItem)
  : TranslationService :=
  {| resultCache := resultCache s; promiseCache := promiseCache s;
     maxConcurrent := maxConcurrent s; activeTranslations := activeTranslations s;
     translationQueue := translationQueue s; isProcessing := isProcessing s;
     promises := promises s;
     workers := workers s ++ [{| task := t; attempts := 0; lastError := None |}];
     awaiting := awaiting s;
     fetches := logFetch (options t) (fetches s) |}.

(** The loop of [processQueueIterative], by recursion on the queue. *)
Fixpoint drain (queue : list QueueItem) (s : TranslationService) : TranslationService :=
  match queue with
  | [] => s
  | t :: rest =>
      if JS.numLt (JS.ofInt (activeTranslations s)) (maxConcurrent s)
      then
        drain rest
          (executeTranslationTask
             {| resultCache := resultCache s; promiseCache := promiseCache s;
                maxConcurrent := maxConcurrent s;
                activeTranslations := activeTranslations s + 1;
                translationQueue := rest; isProcessing := isProcessing s;
                promises := promises s; workers := workers s;
                awaiting := awaiting s; fetches := fetches s |} t)
      else s
  end.

Definition processQueueIterative (s : TranslationService) : TranslationService :=
  let s' := drain (translationQueue s) s in
  {| resultCache := resultCache s'; promiseCache := promiseCache s';
     maxConcurrent := maxConcurrent s'; activeTranslations := activeTranslations s';
     translationQueue := translationQueue s';
     isProcessing :=
       Nat.ltb 0 (length (translationQueue s')) || Z.ltb 0 (activeTranslations s');
     promises := promises s'; workers := workers s';
     awaiting := awaiting s'; fetches := fetches s' |}.

Definition startProcessingQueue (s : TranslationService) : TranslationService :=
  if isProcessing s then s
  else processQueueIterative
         {| resultCache := resultCache s; promiseCache := promiseCache s;
            maxConcurrent := maxConcurrent s; activeTranslations := activeTranslations s;
            translationQueue := translationQueue s; isProcessing := true;
            promises := promises s; workers := workers s;
            awaiting := awaiting s; fetches := fetches s |}.

(** What a call of the [async] function [translate] gives its caller: a
    rejection, a value, or the outcome of promise [p], which the caller
    observes once [p] is settled and the frame that created [p] has run. *)
Inductive CallResult :=
| Throws (e : Error)
| Returns (v : string)
| Awaits (p : nat).

Definition withCache (s : TranslationService) (c : LRU.LRUCache) : TranslationService :=
  {| resultCache := c; promiseCache := promiseCache s;
     maxConcurrent := maxConcurrent s; activeTranslations := activeTranslations s;
     translationQueue := translationQueue s; isProcessing := isProcessing s;
     promises := promises s; workers := workers s;
     awaiting := awaiting s; fetches := fetches s |}.

(** The part of [translate] that creates the promise [p], pushes the
    request on the queue, and records the promise under [cacheKey]; the
    calling frame then waits for [p]. *)
Definition enqueue (s : TranslationService) (o : TranslationOptions) (cacheKey : string)
  : TranslationService :=
  let item := {| options := o; promise := length (promises s) |} in
  {| resultCache := resultCache s;
     promiseCache := <[cacheKey := length (promises s)]> (promiseCache s);
     maxConcurrent := maxConcurrent s;
     activeTranslations := activeTranslations s;
     translationQueue := translationQueue s ++ [item];
     isProcessing := isProcessing s;
     promises := promises s ++ [None];
     workers := workers s;
     awaiting := awaiting s ++ [item];
     fetches := fetches s |}.

(** [translate] up to its [await]. *)
Definition translate (s : TranslationService) (o : TranslationOptions)
  : CallResult * TranslationService :=
  if negb (supported (sourceLanguage o) (targetLanguage o)) then (Throws UnsupportedPair, s)
  else if negb (JS.truthy (JS.trim (text o))) then (Returns (text o), s)
  else
    let '(cachedResult, c) :=
      LRU.get (resultCache s) (sourceLanguage o) (targetLanguage o) (text o) in
    let s1 := withCache s c in
    match cachedResult with
    | Some (String a v) => (Returns (String a v), s1)
    | _ =>
        let cacheKey := sourceLanguage o +:+ "_" +:+ targetLanguage o +:+ "_" +:+ text o in
        match promiseCache s1 !! cacheKey with
        | Some p => (Awaits p, s1)
        | None => (Awaits (length (promises s1)),
                   startProcessingQueue (enqueue s1 o cacheKey))
        end
    end.

(** [translate] after its [await]: the result is cached on success, and
    the entry of [promiseCache] is deleted in the [finally] block. *)
Definition resume (s : TranslationService) (p : nat) : option TranslationService :=
  match list_find (λ f, promise f = p) (awaiting s), promises s !! p with
  | Some (_, f), Some (Some outcome) =>
      let o := options f in
      let c :=
        match outcome with
        | Fulfilled translatedText =>
            LRU.set (resultCache s) (sourceLanguage o) (targetLanguage o) (text o)
                    translatedText
        | Rejected _ => resultCache s
        end in
      let cacheKey := sourceLanguage o +:+ "_" +:+ targetLanguage o +:+ "_" +:+ text o in
      Some {| resultCache := c;
              promiseCache := delete cacheKey (promiseCache s);
              maxConcurrent := maxConcurrent s;
              activeTranslations := activeTranslations s;
              translationQueue := translationQueue s;
              isProcessing := isProcessing s;
              promises := promises s;
              workers := workers s;
              awaiting := filter (λ f, promise f ≠ p) (awaiting s);
              fetches := fetches s |}
  | _, _ => None
  end.

(** The end of a worker: the promise is settled, then the [finally] block
    frees the slot and looks at the queue again. *)
Definition settle (s : TranslationService) (p : nat) (outcome : Settled)
  : TranslationService :=
  processQueueIterative
    {| resultCache := resultCache s; promiseCache := promiseCache s;
       maxConcurrent := maxConcurrent s;
       activeTranslations := activeTranslations s - 1;
       translationQueue := translationQueue s; isProcessing := isProcessing s;
       promises := <[p := Some outcome]> (promises s);
       workers := filter (λ w, promise (task w) ≠ p) (workers s);
       awaiting := awaiting s; fetches := fetches s |}.

(** One attempt of the worker serving promise [p] ends.  A failure is
    retried while [attempts <= maxAttempts]; the back-off delay before the
    next [fetch] is not represented. *)
Definition attemptDone (s : TranslationService) (p : nat) (outcome : FetchOutcome)
  : option TranslationService :=
  match list_find (λ w, promise (task w) = p) (workers s) with
  | Some (_, w) =>
      match translateWithGoogleAPI (options (task w)) outcome with
      | Fulfilled translatedText => Some (settle s p (Fulfilled translatedText))
      | Rejected e =>
          let attempts' := S (attempts w) in
          if Nat.leb attempts' maxAttempts
          then
            Some {| resultCache := resultCache s; promiseCache := promiseCache s;
                    maxConcurrent := maxConcurrent s;
                    activeTranslations := activeTranslations s;
                    translationQueue := translationQueue s;
                    isProcessing := isProcessing s;
                    promises := promises s;
                    workers :=
                      (λ w', if bool_decide (promise (task w') = p)
                             then {| task := task w; attempts := attempts';
                                     lastError := Some e |}
                             else w') <$> workers s;
                    awaiting := awaiting s;
                    fetches := logFetch (options (task w)) (fetches s) |}
          else Some (settle s p (Rejected (RetriesExhausted e)))
      end
  | None => None
  end.

Definition clearCache (s : TranslationService) : TranslationService :=
  withCache s (LRU.clear (resultCache s)).

Definition setMaxConcurrent (s : TranslationService) (concurrent : JS.Number)
  : TranslationService :=
  startProcessingQueue
    {| resultCache := resultCache s; promiseCache := promiseCache s;
       maxConcurrent := JS.mathMax (JS.ofInt 1) (JS.mathMin (JS.ofInt 50) concurrent);
       activeTranslations := activeTranslations s;
       translationQueue := translationQueue s; isProcessing := isProcessing s;
       promises := promises s; workers := workers s;
       awaiting := awaiting s; fetches := fetches s |}.

(** The labels of the transition system: the calls of the public methods
    and the completions delivered by the run time. *)
Inductive Label :=
| Translate (o : TranslationOptions)
| AttemptDone (p : nat) (outcome : FetchOutcome)
| Resume (p : nat)
| ClearCache
| SetMaxConcurrent (concurrent : JS.Number).

Definition step (s : TranslationService) (l : Label) : option TranslationService :=
  match l with
  | Translate o => Some (translate s o).2
  | AttemptDone p outcome => attemptDone s p outcome
  | Resume p => resume s p
  | ClearCache => Some (clearCache s)
  | SetMaxConcurrent n => Some (setMaxConcurrent s n)
  end.

Fixpoint run (s : TranslationService) (ls : list Label) : option TranslationService :=
  match ls with
  | [] => Some s
  | l :: ls' =>
      match step s l with
      | Some s' => run s' ls'
      | None => None
      end
  end.

(** A label that sets no limit above [m]. *)
Definition limitWithin (m : Z) (l : Label) : bool :=
  match l with
  | SetMaxConcurrent x =>
      negb (JS.numLt (JS.ofInt m) (JS.mathMax (JS.ofInt 1) (JS.mathMin (JS.ofInt 50) x)))
  | _ => true
  end.

(** A label that does not call [setMaxConcurrent] with NaN. *)
Definition numericLimit (l : Label) : bool :=
  match l with
  | SetMaxConcurrent JS.NaN => false
  | _ => true
  end.

(** The requests waiting in the queue or being served by a worker. *)
Definition jobs(s : TranslationService) : list QueueItem :=
  translationQueue s ++ (task <$> workers s).

(** What a caller waiting for [r] observes in state [s], if anything yet. *)
Definition observed (s : TranslationService) (r : CallResult) : option Settled :=
  match r with
  | Throws e => Some (Rejected e)
  | Returns v => Some (Fulfilled v)
  | Awaits p =>
      if bool_decide (Exists (λ f, promise f = p) (awaiting s)) then None
      else mjoin (promises s !! p)
  end.

(** The five ways through [translate]. *)
Inductive translateCase (s : TranslationService) (o : TranslationOptions)
  : CallResult → TranslationService → Prop :=
| CaseUnsupported :
    supported (sourceLanguage o) (targetLanguage o) = false →
    translateCase s o (Throws UnsupportedPair) s
| CaseBlank :
    supported (sourceLanguage o) (targetLanguage o) = true →
    JS.allWhiteSpace (text o) = true →
    translateCase s o (Returns (text o)) s
| CaseCached v :
    supported (sourceLanguage o) (targetLanguage o) = true →
    JS.allWhiteSpace (text o) = false →
    LRU.cache (resultCache s) !! keyOf o = Some v →
    JS.truthy v = true →
    translateCase s o (Returns v)
      (withCache s (LRU.get (resultCache s) (sourceLanguage o) (targetLanguage o)
                            (text o)).2)
| CaseAttached p :
    supported (sourceLanguage o) (targetLanguage o) = true →
    JS.allWhiteSpace (text o) = false →
    JS.truthy_opt (LRU.cache (resultCache s) !! keyOf o) = false →
    promiseCache s !! keyOf o = Some p →
    translateCase s o (Awaits p) s
| CaseCreated :
    supported (sourceLanguage o) (targetLanguage o) = true →
    JS.allWhiteSpace (text o) = false →
    JS.truthy_opt (LRU.cache (resultCache s) !! keyOf o) = false →
    promiseCache s !! keyOf o = None →
    translateCase s o (Awaits (length (promises s)))
      (startProcessingQueue (enqueue s o (keyOf o))).

(** Two states that differ only in the scheduling of the same requests. *)
Record sameRequests (s s' : TranslationService) : Prop := {
  same_cache : resultCache s' = resultCache s;
  same_promiseCache : promiseCache s' = promiseCache s;
  same_promises : promises s' = promises s;
  same_awaiting : awaiting s' = awaiting s;
  same_jobs : jobs s' ≡ₚ jobs s
}.

(** *** The invariant of the de-duplication

    Every frame of [translate] waiting for its promise owns the entry of
    [promiseCache] under its key, and conversely; the requests in the queue
    or with a worker belong to waiting frames and their promises are
    pending; a fulfilled promise holds a non-empty text. *)

Record Inv (s : TranslationService) : Prop := {
  inv_frame : ∀ f, f ∈ awaiting s →
    supported (sourceLanguage (options f)) (targetLanguage (options f)) = true ∧
    JS.allWhiteSpace (text (options f)) = false ∧
    promiseCache s !! keyOf (options f) = Some (promise f) ∧
    promise f < length (promises s) ∧
    JS.truthy_opt (LRU.cache (resultCache s) !! keyOf (options f)) = false;
  inv_entry : ∀ k p, promiseCache s !! k = Some p →
    ∃ f, f ∈ awaiting s ∧ promise f = p ∧ keyOf (options f) = k;
  inv_frames_nodup : NoDup (promise <$> awaiting s);
  inv_job : ∀ j, j ∈ jobs s → j ∈ awaiting s ∧ promises s !! promise j = Some None;
  inv_jobs_nodup : NoDup (promise <$> jobs s);
  inv_values : ∀ p v, promises s !! p = Some (Some (Fulfilled v)) → JS.truthy v = true
}.

(** *** The status methods *)

(** [getCacheStats()]: the size of the result cache, and the capacity the
    method reports. *)
Record CacheStats := mkCacheStats {
  stats_size : nat;
  stats_maxSize : nat
}.

Definition getCacheStats (s : TranslationService) : CacheStats :=
  {| stats_size := LRU.size (resultCache s); stats_maxSize := 1000 |}.

(** [getQueueStatus()] *)
Record QueueStatus := mkQueueStatus {
  status_queued : nat;
  status_active : Z;
  status_maxConcurrent : JS.Number;
  status_isProcessing : bool
}.

Definition getQueueStatus (s : TranslationService) : QueueStatus :=
  {| status_queued := length (translationQueue s);
     status_active := activeTranslations s;
     status_maxConcurrent := maxConcurrent s;
     status_isProcessing := isProcessing s |}.

(** The worker started for a queue item by [executeTranslationTask]. *)
Definition freshWorker (t : QueueItem) : Worker :=
  {| task := t; attempts := 0; lastError := None |}.

(** How many of [queued] items the loop of [processQueueIterative] takes
    with [active] workers running: as many as there are counts from
    [active] on that are below the limit, none when the limit is NaN. *)
Definition slots (limit : JS.Number) (queued : nat) (active : Z) : nat :=
  match limit with
  | JS.Finite q => Nat.min queued (Z.to_nat (Qceiling q - active))
  | JS.PosInfinity => queued
  | JS.NaN | JS.NegInfinity => 0
  end.

Definition dispatchCount (s : TranslationService) : nat :=
  slots (maxConcurrent s) (length (translationQueue s)) (activeTranslations s).

(** A [q] that may be put in a request: not empty, at most 5000 code
    units, without line breaks. *)
Definition sendable (q : string) : bool :=
  JS.truthy q && Nat.leb (String.length q) maxTextLength
  && forallb (λ c, negb (isNewline c)) (list_ascii_of_string q).

(** *** The invariants of the worker pool

    In every state: the counter [activeTranslations] counts the workers,
    and [isProcessing] tells whether a request is queued or a worker is
    running. *)

Record PoolInv (s : TranslationService) : Prop := {
  pool_count : activeTranslations s = Z.of_nat (length (workers s));
  pool_flag :
    isProcessing s = true ↔ translationQueue s ≠ [] ∨ (0 < activeTranslations s)%Z
}.

(** As long as the limit was never set to NaN: it is a number within
    1..50, and requests wait in the queue only while a worker is
    running. *)
Record Attended (s : TranslationService) : Prop := {
  pool_limit : ∃ q, maxConcurrent s = JS.Finite q ∧ (1 <= q)%Q ∧ (q <= 50)%Q;
  pool_attended : translationQueue s ≠ [] → (0 < activeTranslations s)%Z
}.

(** *** The batch coordinator: [translateBatch] *)

(** An element of [tasks]: [{ index, text, length }]. *)
Record Task := mkTask {
  taskIndex : nat;
  taskText : string;
  taskLength : nat
}.

Definition baseBatchSize : Z := 50.
Definition maxCharsPerBatch : Z := 10000.

(** The first loop: cached texts fill their slot, the others become tasks.
    Every [get] may reorder the cache. *)
Fixpoint collect (sourceLanguage targetLanguage : string) (c : LRU.LRUCache) (i : nat)
    (texts : list string) (results : list (option string)) (tasks : list Task)
  : LRU.LRUCache * list (option string) * list Task :=
  match texts with
  | [] => (c, results, tasks)
  | t :: rest =>
      let '(cachedResult, c') := LRU.get c sourceLanguage targetLanguage t in
      match cachedResult with
      | Some (String a v) =>
          collect sourceLanguage targetLanguage c' (S i) rest
                  (<[i := Some (String a v)]> results) tasks
      | _ =>
          collect sourceLanguage targetLanguage c' (S i) rest results
                  (tasks ++ [{| taskIndex := i; taskText := t;
                                taskLength := String.length t |}])
      end
  end.

(** [tasks.reduce((sum, task) => sum + task.length, 0)] *)
Definition charCount (tasks : list Task) : Z :=
  foldl (λ sum t, sum + Z.of_nat (taskLength t))%Z 0%Z tasks.

(** [Math.floor(Math.sqrt(texts.length) * 5)] *)
Definition floorSqrtTimes5 (textsLength : nat) : Z :=
  JS.floor (PrimFloat.mul (PrimFloat.sqrt (JS.number (Z.of_nat textsLength)))
                          (JS.number 5)).

(** [Math.floor(maxCharsPerBatch / Math.max(1, totalChars / tasks.length || 1))] *)
Definition charBudgetSize (tasks : list Task) : Z :=
  let average :=
    PrimFloat.div (JS.number (charCount tasks)) (JS.number (Z.of_nat (length tasks))) in
  JS.floor (PrimFloat.div (JS.number maxCharsPerBatch) (JS.max1 (JS.orOne average))).

(** [Math.max(10, Math.min(baseBatchSize, ..., ...))] *)
Definition dynamicBatchSize (textsLength : nat) (tasks : list Task) : Z :=
  Z.max 10 (Z.min baseBatchSize (Z.min (floorSqrtTimes5 textsLength) (charBudgetSize tasks))).

(** The local variables of a suspended [translateBatch]. *)
Record BatchFrame := mkFrame {
  results : list (option string);      (* a hole of the array is [None] *)
  tasks : list Task;
  batchSize : nat;                     (* dynamicBatchSize *)
  position : nat;                      (* the loop variable [i] *)
  effectiveBatchSize : nat;
  batchPromises : list (nat * CallResult);
  sleeping : bool                      (* at the delay between two batches *)
}.

Inductive BatchState :=
| BatchRunning (f : BatchFrame)
| BatchDone (results : list (option string))
| BatchFailed (e : Error).

(** [actualBatch.map(task => this.translate(...).then(...))] *)
Fixpoint submit (s : TranslationService) (sourceLanguage targetLanguage : string)
    (batch : list Task) : list (nat * CallResult) * TranslationService :=
  match batch with
  | [] => ([], s)
  | t :: rest =>
      let '(r, s1) := translate s {| sourceLanguage := sourceLanguage;
                                     targetLanguage := targetLanguage;
                                     text := taskText t |} in
      let '(rs, s2) := submit s1 sourceLanguage targetLanguage rest in
      ((taskIndex t, r) :: rs, s2)
  end.

(** The loop test and the body of the second loop up to [await Promise.all]. *)
Definition enterBatch (s : TranslationService) (sourceLanguage targetLanguage : string)
    (f : BatchFrame) : BatchState * TranslationService :=
  if Nat.ltb (position f) (length (tasks f))
  then
    let batch := JS.slice (position f) (position f + batchSize f) (tasks f) in
    let batchCharCount := charCount batch in
    let effective :=
      if Z.ltb maxCharsPerBatch batchCharCount
      then Z.to_nat (Z.max 1 (JS.floor
             (PrimFloat.div (PrimFloat.mul (JS.number (Z.of_nat (batchSize f)))
                                           (JS.number maxCharsPerBatch))
                            (JS.number batchCharCount))))
      else batchSize f in
    let actualBatch := JS.slice 0 effective batch in
    let '(ps, s') := submit s sourceLanguage targetLanguage actualBatch in
    (BatchRunning {| results := results f; tasks := tasks f; batchSize := batchSize f;
                     position := position f; effectiveBatchSize := effective;
                     batchPromises := ps; sleeping := false |}, s')
  else (BatchDone (results f), s).

(** [translateBatch] up to its first [await]. *)
Definition translateBatch (s : TranslationService) (texts : list string)
    (sourceLanguage targetLanguage : string) : BatchState * TranslationService :=
  if negb (supported sourceLanguage targetLanguage) then (BatchFailed UnsupportedPair, s)
  else
    let '(c, results, tasks) :=
      collect sourceLanguage targetLanguage (resultCache s) 0 texts
              (replicate (length texts) None) [] in
    enterBatch (withCache s c) sourceLanguage targetLanguage
      {| results := results; tasks := tasks;
         batchSize := Z.to_nat (dynamicBatchSize (length texts) tasks);
         position := 0; effectiveBatchSize := 0; batchPromises := []; sleeping := false |}.

(** What [Promise.all(batchPromises)] gives once it is settled: the first
    rejection, or all the values. *)
Fixpoint allSettled (s : TranslationService) (ps : list (nat * CallResult))
  : option (Error + list (nat * string)) :=
  match ps with
  | [] => Some (inr [])
  | (i, r) :: rest =>
      match observed s r, allSettled s rest with
      | Some (Rejected e), _ => Some (inl e)
      | _, Some (inl e) => Some (inl e)
      | Some (Fulfilled v), Some (inr vs) => Some (inr ((i, v) :: vs))
      | _, _ => None
      end
  end.

(** [batchResults.forEach(result => results[result.index] = result.text)] *)
Definition fillResults (results : list (option string)) (batchResults : list (nat * string))
  : list (option string) :=
  foldl (λ rs r, <[r.1 := Some r.2]> rs) results batchResults.

(** [translateBatch] resumes: after [Promise.all], or after the delay. *)
Definition continueBatch (s : TranslationService) (sourceLanguage targetLanguage : string)
    (f : BatchFrame) : option (BatchState * TranslationService) :=
  if sleeping f
  then Some (enterBatch s sourceLanguage targetLanguage
               {| results := results f; tasks := tasks f; batchSize := batchSize f;
                  position := position f + batchSize f;
                  effectiveBatchSize := effectiveBatchSize f;
                  batchPromises := []; sleeping := false |})
  else
    match allSettled s (batchPromises f) with
    | None => None
    | Some (inl e) => Some (BatchFailed e, s)
    | Some (inr batchResults) =>
        let results' := fillResults (results f) batchResults in
        if Nat.ltb (position f + effectiveBatchSize f) (length (tasks f))
        then Some (BatchRunning
                     {| results := results'; tasks := tasks f; batchSize := batchSize f;
                        position := position f;
                        effectiveBatchSize := effectiveBatchSize f;
                        batchPromises := []; sleeping := true |}, s)
        else Some (enterBatch s sourceLanguage targetLanguage
                     {| results := results'; tasks := tasks f; batchSize := batchSize f;
                        position := position f + batchSize f;
                        effectiveBatchSize := effectiveBatchSize f;
                        batchPromises := []; sleeping := false |})
    end.

(** *** Sample inputs *)

(** A remote answer carrying the translation [t]. *)
Definition answer (t : string) : FetchOutcome :=
  ResponseOk (JArr [JArr [JArr [JStr t]]]).

Definition fourTexts : list string := ["a"; "b"; "c"; "d"].

(** Sixty-four copies of a text, followed by the thirty-six different
    texts "0", "1", ..., "35". *)
Definition hundredTexts : list string :=
  (replicate 64 "x" ++ (LRU.textOf <$> seq 0 36))%list.

Fixpoint repeatChar (c : ascii) (n : nat) : string :=
  match n with
  | O => EmptyString
  | S n' => String c (repeatChar c n')
  end.

(** Ten different texts of 2000 characters each. *)
Definition tenLongTexts : list string :=
  map (λ i, LRU.textOf i +:+ repeatChar "a" 1999) (seq 0 10).

(** A scenario with one [translateBatch] call in a service: the labels of
    the service, and [Continue] for the resumption of the batch. *)
Inductive BatchLabel :=
| Env (l : Label)
| Continue.

Definition batchStep (sourceLanguage targetLanguage : string)
    (st : BatchState * TranslationService) (l : BatchLabel)
  : option (BatchState * TranslationService) :=
  match l, st with
  | Env l', (b, s) =>
      match step s l' with
      | Some s' => Some (b, s')
      | None => None
      end
  | Continue, (BatchRunning f, s) => continueBatch s sourceLanguage targetLanguage f
  | Continue, _ => None
  end.

(** Every remote call of the first wave of [tenLongTexts] succeeds and
    every frame resumes; then the batch continues twice (after
    [Promise.all] and after the delay). *)
Definition firstWaveSucceeds : list BatchLabel :=
  ((λ p, Env (AttemptDone p (answer "ok"))) <$> seq 0 5) ++
  ((λ p, Env (Resume p)) <$> seq 0 5) ++ [Continue; Continue].

Fixpoint batchRun (sourceLanguage targetLanguage : string)
    (st : BatchState * TranslationService) (ls : list BatchLabel)
  : option (BatchState * TranslationService) :=
  match ls with
  | [] => Some st
  | l :: ls' =>
      match batchStep sourceLanguage targetLanguage st l with
      | Some st' => batchRun sourceLanguage targetLanguage st' ls'
      | None => None
      end
  end.

(** *** What a batch keeps

    [texts] are the texts given to [translateBatch] and [c0] is the result
    cache at the call. *)

(** The slot of a text after the first loop of [translateBatch]: its
    cached translation, if it has a non-empty one. *)
Definition cachedSlot (c : LRU.LRUCache) (sourceLanguage targetLanguage text : string)
  : option string :=
  let v := LRU.cache c !! LRU.getKey sourceLanguage targetLanguage text in
  if JS.truthy_opt v then v else None.

(** The result array has the length of the input, the texts cached at the
    call have their slot filled, the tasks are the other texts, and the
    calls under way belong to tasks (so that every index written is one of
    the array). *)
Record BatchInv (texts : list string) (c0 : LRU.LRUCache) (f : BatchFrame) : Prop := {
  bi_length : length (results f) = length texts;
  bi_cached : ∀ i x v, texts !! i = Some x → cachedSlot c0 "ja" "zh" x = Some v →
    results f !! i = Some (Some v);
  bi_tasks : ∀ t, t ∈ tasks f →
    ∃ x, texts !! taskIndex t = Some x ∧ taskLength t = String.length x ∧
         cachedSlot c0 "ja" "zh" x = None;
  bi_covered : ∀ i x, texts !! i = Some x → cachedSlot c0 "ja" "zh" x = None →
    i ∈ taskIndex <$> tasks f;
  bi_promises : ∀ p, p ∈ batchPromises f → p.1 ∈ taskIndex <$> tasks f
}.

(** No sub-batch of [tasks] exceeds the character budget. *)
Definition withinBudget (batchSize : nat) (tasks : list Task) : Prop :=
  ∀ k, (charCount (JS.slice (k * batchSize) (k * batchSize + batchSize) tasks)
        ≤ maxCharsPerBatch)%Z.

(** As long as no sub-batch is truncated: the loop variable is a multiple
    of the batch size, the tasks before it have their slot filled, and the
    calls under way are those of the whole sub-batch. *)
Record BatchComplete (f : BatchFrame) : Prop := {
  bc_size : 0 < batchSize f;
  bc_aligned : ∃ k, position f = k * batchSize f;
  bc_budget : withinBudget (batchSize f) (tasks f);
  bc_filled : ∀ j t, tasks f !! j = Some t →
    j < position f + (if sleeping f then batchSize f else 0) →
    ∃ v, results f !! taskIndex t = Some (Some v);
  bc_batch : sleeping f = false →
    effectiveBatchSize f = batchSize f ∧
    (batchPromises f).*1
    = taskIndex <$> JS.slice (position f) (position f + batchSize f) (tasks f)
}.

(** What holds of a batch, truncated or not. *)
Definition BatchStateInv (texts : list string) (c0 : LRU.LRUCache) (st : BatchState)
  : Prop :=
  match st with
  | BatchRunning f => BatchInv texts c0 f
  | BatchDone results =>
      length results = length texts ∧
      ∀ i x v, texts !! i = Some x → cachedSlot c0 "ja" "zh" x = Some v →
               results !! i = Some (Some v)
  | BatchFailed _ => True
  end.

(** What holds of a batch none of whose sub-batches is truncated. *)
Definition BatchStateComplete (texts : list string) (st : BatchState) : Prop :=
  match st with
  | BatchRunning f => BatchComplete f
  | BatchDone results => ∀ i, i < length texts → ∃ v, results !! i = Some (Some v)
  | BatchFailed _ => True
  end.

(** Every remote call for the promises [0 .. n-1] succeeds, every frame
    of [translate] resumes, and the batch continues. *)
Definition everyCallSucceeds (n : nat) : list BatchLabel :=
  ((λ p, Env (AttemptDone p (answer "ok"))) <$> seq 0 n) ++
  ((λ p, Env (Resume p)) <$> seq 0 n) ++ [Continue].

(** *** What [translate] answers while only [translate] is called

    [answered s x r]: in the state [s], which follows a call of [translate]
    for the text [x] of the supported pair, that call and every further one
    give [r], as long as nothing but calls of [translate] happens. *)
Definition answered (s : TranslationService) (x : string) (r : CallResult) : Prop :=
  if JS.allWhiteSpace x then r = Returns x
  else match LRU.cache (resultCache s) !! LRU.getKey "ja" "zh" x with
       | Some (String a v) => r = Returns (String a v)
       | _ => ∃ p, r = Awaits p ∧ promiseCache s !! LRU.getKey "ja" "zh" x = Some p
       end.

(** Of two texts, the remote calls for the first succeed and those for the
    second fail four times; every frame of [translate] resumes. *)
Definition secondTextFails : list BatchLabel :=
  [Env (AttemptDone 0 (answer "ok"))] ++
  replicate 4 (Env (AttemptDone 1 Failed)) ++
  [Env (Resume 0); Env (Resume 1)].

End Service.

(** ** The session controller: [useTranslation] *)

Module Hook.

(** [SubtitleLine]; the hook only ever writes [text]. *)
Record SubtitleLine := mkLine {
  id : Z;
  startTime : string;
  endTime : string;
  text : string
}.

Record Progress := mkProgress {
  completed : nat;
  total : nat
}.

(** A frame of the inner [translateBatch(index, text)] suspended at
    [await translatePromise]. *)
Record Item := mkItem {
  index : nat;
  itemText : string;
  awaited : Service.CallResult
}.

(** The local variables of one invocation of [translateSubtitles]. *)
Record Session := mkSession {
  subtitles : list nat;            (* the argument: references to the lines *)
  targetLanguage : string;
  translatedSubtitles : list nat;  (* [...subtitles]: the same objects *)
  cacheHits : nat;                 (* cacheStats.hits *)
  cacheTotal : nat;                (* cacheStats.total *)
  position : nat;                  (* the loop variable [i] *)
  pending : list Item;
  returned : bool                  (* the invocation has returned *)
}.

(** What is written to the console. *)
Inductive Diagnostic :=
| TranslationFailed (session index : nat) (e : Service.Error)
| TranslationComplete (session count hits misses : nat).

(** The hook instance, the [translationService] singleton it uses, and the
    subtitle objects. *)
Record World := mkWorld {
  service : Service.TranslationService;
  lines : gmap nat SubtitleLine;            (* the heap of subtitle objects *)
  isTranslating : bool;
  translationProgress : Progress;
  isCancelledRef : bool;
  translationCacheRef : gmap string string;
  activePromisesRef : list (nat * nat);     (* the promise of item (session, index) *)
  progressRef : Progress;
  sessions : list Session;
  console : list Diagnostic;                (* newest first *)
  onTranslated : list (nat * list SubtitleLine)  (* the calls of the callback *)
}.

Definition maxConcurrent : nat := 5.

(** A hook just mounted, with the given subtitle objects. *)
Definition mount (heap : gmap nat SubtitleLine) : World :=
  {| service := Service.new; lines := heap; isTranslating := false;
     translationProgress := {| completed := 0; total := 0 |};
     isCancelledRef := false; translationCacheRef := ∅; activePromisesRef := [];
     progressRef := {| completed := 0; total := 0 |};
     sessions := []; console := []; onTranslated := [] |}.

Definition textAt (heap : gmap nat SubtitleLine) (ref : nat) : string :=
  match heap !! ref with
  | Some l => text l
  | None => ""
  end.

(** [line.text = v] *)
Definition setText (v : string) (l : SubtitleLine) : SubtitleLine :=
  {| id := id l; startTime := startTime l; endTime := endTime l; text := v |}.

(** [translatedSubtitles[index].text = v] *)
Definition writeText (ses : Session) (index : nat) (v : string)
    (heap : gmap nat SubtitleLine) : gmap nat SubtitleLine :=
  match translatedSubtitles ses !! index with
  | Some ref => alter (setText v) ref heap
  | None => heap
  end.

Definition cancelTranslation (w : World) : World :=
  {| service := service w; lines := lines w;
     isTranslating := false;
     translationProgress := {| completed := 0; total := 0 |};
     isCancelledRef := true;
     translationCacheRef := translationCacheRef w;
     activePromisesRef := [];
     progressRef := {| completed := 0; total := 0 |};
     sessions := sessions w; console := console w; onTranslated := onTranslated w |}.

(** [++progressRef.current.completed] followed by [setTranslationProgress]. *)
Definition countCompleted (w : World) : World :=
  let p := {| completed := S (completed (progressRef w)); total := total (progressRef w) |} in
  {| service := service w; lines := lines w; isTranslating := isTranslating w;
     translationProgress := p; isCancelledRef := isCancelledRef w;
     translationCacheRef := translationCacheRef w;
     activePromisesRef := activePromisesRef w;
     progressRef := p;
     sessions := sessions w; console := console w; onTranslated := onTranslated w |}.

Definition withLines (w : World) (heap : gmap nat SubtitleLine) : World :=
  {| service := service w; lines := heap; isTranslating := isTranslating w;
     translationProgress := translationProgress w; isCancelledRef := isCancelledRef w;
     translationCacheRef := translationCacheRef w;
     activePromisesRef := activePromisesRef w; progressRef := progressRef w;
     sessions := sessions w; console := console w; onTranslated := onTranslated w |}.

(** The inner [translateBatch(index, text)] up to its [await]; it updates
    the locals [ses] of its session [sid]. *)
Definition startItem (sid : nat) (w : World) (ses : Session) (index : nat) (text : string)
  : World * Session :=
  if isCancelledRef w then (w, ses)
  else
    let cacheKey := text +:+ "_" +:+ targetLanguage ses in
    match translationCacheRef w !! cacheKey with
    | Some cached =>
        (countCompleted (withLines w (writeText ses index cached (lines w))),
         {| subtitles := subtitles ses; targetLanguage := targetLanguage ses;
            translatedSubtitles := translatedSubtitles ses;
            cacheHits := S (cacheHits ses); cacheTotal := S (cacheTotal ses);
            position := position ses; pending := pending ses;
            returned := returned ses |})
    | None =>
        let '(r, svc) := Service.translate (service w) (Service.mkOptions "ja" "zh" text) in
        ({| service := svc; lines := lines w; isTranslating := isTranslating w;
            translationProgress := translationProgress w;
            isCancelledRef := isCancelledRef w;
            translationCacheRef := translationCacheRef w;
            activePromisesRef := activePromisesRef w ++ [(sid, index)];
            progressRef := progressRef w;
            sessions := sessions w; console := console w;
            onTranslated := onTranslated w |},
         {| subtitles := subtitles ses; targetLanguage := targetLanguage ses;
            translatedSubtitles := translatedSubtitles ses;
            cacheHits := cacheHits ses; cacheTotal := S (cacheTotal ses);
            position := position ses;
            pending := pending ses ++ [{| index := index; itemText := text;
                                         awaited := r |}];
            returned := returned ses |})
    end.

(** [batch.map((subtitle, batchIndex) => translateBatch(i + batchIndex,
    subtitle.text))]: the items start one after the other. *)
Fixpoint startItems (sid : nat) (w : World) (ses : Session) (index : nat)
    (batch : list nat) : World * Session :=
  match batch with
  | [] => (w, ses)
  | ref :: rest =>
      let '(w', ses') := startItem sid w ses index (textAt (lines w) ref) in
      startItems sid w' ses' (S index) rest
  end.

Definition withSession (w : World) (sid : nat) (ses : Session) : World :=
  {| service := service w; lines := lines w; isTranslating := isTranslating w;
     translationProgress := translationProgress w; isCancelledRef := isCancelledRef w;
     translationCacheRef := translationCacheRef w;
     activePromisesRef := activePromisesRef w; progressRef := progressRef w;
     sessions := if Nat.ltb sid (length (sessions w))
                 then <[sid := ses]> (sessions w) else sessions w ++ [ses];
     console := console w; onTranslated := onTranslated w |}.

(** The wave loop from its test to [await Promise.all(batchPromises)], and
    what follows the loop. *)
Definition enterWave (sid : nat) (w : World) (ses : Session) : World :=
  if Nat.ltb (position ses) (length (subtitles ses)) && negb (isCancelledRef w)
  then
    let batch := JS.slice (position ses) (position ses + maxConcurrent) (subtitles ses) in
    let '(w', ses') := startItems sid w ses (position ses) batch in
    withSession w' sid ses'
  else
    let done :=
      {| subtitles := subtitles ses; targetLanguage := targetLanguage ses;
         translatedSubtitles := translatedSubtitles ses;
         cacheHits := cacheHits ses; cacheTotal := cacheTotal ses;
         position := position ses; pending := pending ses; returned := true |} in
    if isCancelledRef w then withSession w sid done
    else
      withSession
        {| service := service w; lines := lines w;
           isTranslating := false;
           translationProgress := translationProgress w;
           isCancelledRef := isCancelledRef w;
           translationCacheRef := translationCacheRef w;
           activePromisesRef := activePromisesRef w; progressRef := progressRef w;
           sessions := sessions w;
           console := TranslationComplete sid (length (subtitles ses)) (cacheHits ses)
                        (cacheTotal ses - cacheHits ses) :: console w;
           onTranslated :=
             onTranslated w ++
               [(sid, omap (λ ref, lines w !! ref) (translatedSubtitles ses))] |}
        sid done.

Definition translateSubtitles (w : World) (subtitles : list nat) (targetLanguage : string)
  : World :=
  match subtitles with
  | [] => w
  | _ :: _ =>
      let total := length subtitles in
      let p := {| completed := 0; total := total |} in
      enterWave (length (sessions w))
        {| service := service w; lines := lines w;
           isTranslating := true;
           translationProgress := p;
           isCancelledRef := false;
           translationCacheRef := translationCacheRef w;
           activePromisesRef := [];
           progressRef := p;
           sessions := sessions w; console := console w;
           onTranslated := onTranslated w |}
        {| subtitles := subtitles; targetLanguage := targetLanguage;
           translatedSubtitles := subtitles;
           cacheHits := 0; cacheTotal := 0; position := 0; pending := [];
           returned := false |}
  end.

Definition withoutItem (ses : Session) (idx : nat) : Session :=
  {| subtitles := subtitles ses; targetLanguage := targetLanguage ses;
     translatedSubtitles := translatedSubtitles ses;
     cacheHits := cacheHits ses; cacheTotal := cacheTotal ses;
     position := position ses;
     pending := filter (λ it, index it ≠ idx) (pending ses);
     returned := returned ses |}.

(** The inner [translateBatch(index, text)] after its [await]. *)
Definition finishItem (sid : nat) (w : World) (ses : Session) (it : Item)
    (outcome : Service.Settled) : World :=
  match outcome with
  | Service.Fulfilled translated =>
      let active := filter (λ a, a ≠ (sid, index it)) (activePromisesRef w) in
      if isCancelledRef w
      then
        {| service := service w; lines := lines w; isTranslating := isTranslating w;
           translationProgress := translationProgress w;
           isCancelledRef := isCancelledRef w;
           translationCacheRef := translationCacheRef w;
           activePromisesRef := active; progressRef := progressRef w;
           sessions := sessions w; console := console w;
           onTranslated := onTranslated w |}
      else
        countCompleted
          {| service := service w;
             lines := writeText ses (index it) translated (lines w);
             isTranslating := isTranslating w;
             translationProgress := translationProgress w;
             isCancelledRef := isCancelledRef w;
             translationCacheRef :=
               <[itemText it +:+ "_" +:+ targetLanguage ses := translated]>
                 (translationCacheRef w);
             activePromisesRef := active; progressRef := progressRef w;
             sessions := sessions w; console := console w;
             onTranslated := onTranslated w |}
  | Service.Rejected e =>
      {| service := service w;
         lines := writeText ses (index it) (itemText it) (lines w);
         isTranslating := isTranslating w;
         translationProgress := translationProgress w;
         isCancelledRef := isCancelledRef w;
         translationCacheRef := translationCacheRef w;
         activePromisesRef := activePromisesRef w; progressRef := progressRef w;
         sessions := sessions w;
         console := TranslationFailed sid (index it) e :: console w;
         onTranslated := onTranslated w |}
  end.

Inductive Label :=
| Env (l : Service.Label)                  (* the service's own transitions *)
| TranslateSubtitles (subtitles : list nat) (targetLanguage : string)
| CancelTranslation
| ItemDone (session index : nat)           (* an item resumes after its [await] *)
| WaveDone (session : nat).                (* [Promise.all] of a wave resumes *)

Definition step (w : World) (l : Label) : option World :=
  match l with
  | Env l' =>
      match Service.step (service w) l' with
      | Some svc =>
          Some {| service := svc; lines := lines w; isTranslating := isTranslating w;
                  translationProgress := translationProgress w;
                  isCancelledRef := isCancelledRef w;
                  translationCacheRef := translationCacheRef w;
                  activePromisesRef := activePromisesRef w;
                  progressRef := progressRef w;
                  sessions := sessions w; console := console w;
                  onTranslated := onTranslated w |}
      | None => None
      end
  | TranslateSubtitles subs target => Some (translateSubtitles w subs target)
  | CancelTranslation => Some (cancelTranslation w)
  | ItemDone sid idx =>
      match sessions w !! sid with
      | Some ses =>
          match list_find (λ it, index it = idx) (pending ses) with
          | Some (_, it) =>
              match Service.observed (service w) (awaited it) with
              | Some outcome =>
                  Some (withSession (finishItem sid w ses it outcome) sid
                          (withoutItem ses idx))
              | None => None
              end
          | None => None
          end
      | None => None
      end
  | WaveDone sid =>
      match sessions w !! sid with
      | Some ses =>
          if returned ses then None
          else match pending ses with
               | [] =>
                   Some (enterWave sid w
                           {| subtitles := subtitles ses;
                              targetLanguage := targetLanguage ses;
                              translatedSubtitles := translatedSubtitles ses;
                              cacheHits := cacheHits ses; cacheTotal := cacheTotal ses;
                              position := position ses + maxConcurrent;
                              pending := []; returned := false |})
               | _ :: _ => None
               end
      | None => None
      end
  end.

Fixpoint run (w : World) (ls : list Label) : option World :=
  match ls with
  | [] => Some w
  | l :: ls' =>
      match step w l with
      | Some w' => run w' ls'
      | None => None
      end
  end.

(** A label other than the two calls of the hook's interface. *)
Definition quiet (l : Label) : bool :=
  match l with
  | TranslateSubtitles _ _ | CancelTranslation => false
  | _ => true
  end.

(** No invocation of [translateSubtitles] is under way. *)
Definition idle (w : World) : Prop :=
  Forall (λ ses, pending ses = [] ∧ returned ses = true) (sessions w).

(** The indices of the records of session [sid] whose failure was reported. *)
Definition failedIn (sid : nat) (c : list Diagnostic) : list nat :=
  omap (λ d, match d with
             | TranslationFailed s i _ => if Nat.eqb s sid then Some i else None
             | TranslationComplete _ _ _ _ => None
             end) c.

(** *** The invariant of one session

    [w0] is the world in which [translateSubtitles] is called with the
    lines [subs]; the session it starts is number [length (sessions w0)]
    and [ses] are its local variables in the world [w]. *)

(** How many records have been handed to the inner [translateBatch]. *)
Definition dispatched (subs : list nat) (ses : Session) : nat :=
  if returned ses then length subs
  else Nat.min (position ses + maxConcurrent) (length subs).

Record SessionInv (w0 : World) (subs : list nat) (w : World) (ses : Session) : Prop := {
  si_subs : subtitles ses = subs;
  si_translated : translatedSubtitles ses = subs;
  si_flag : isCancelledRef w = false;
  si_total : total (progressRef w) = length subs;
  si_shown : translationProgress w = progressRef w;
  (* every dispatched record is completed, failed or pending *)
  si_count :
    completed (progressRef w) + length (failedIn (length (sessions w0)) (console w))
      + length (pending ses) = dispatched subs ses;
  si_nodup : NoDup (index <$> pending ses);
  si_bounds : ∀ it, it ∈ pending ses →
    position ses ≤ index it < dispatched subs ses;
  si_failed : ∀ idx, idx ∈ failedIn (length (sessions w0)) (console w) →
    idx < dispatched subs ses ∧ idx ∉ index <$> pending ses;
  si_returned : returned ses = true →
    pending ses = [] ∧ isTranslating w = false ∧
    onTranslated w =
      onTranslated w0 ++ [(length (sessions w0), omap (λ ref, lines w !! ref) subs)];
  si_running : returned ses = false →
    isTranslating w = true ∧ onTranslated w = onTranslated w0;
  (* the records not yet translated hold their original text *)
  si_text : NoDup subs → ∀ idx ref, subs !! idx = Some ref →
    dispatched subs ses ≤ idx
    ∨ idx ∈ failedIn (length (sessions w0)) (console w)
    ∨ idx ∈ index <$> pending ses →
    textAt (lines w) ref = textAt (lines w0) ref;
  si_item : NoDup subs → ∀ it ref, it ∈ pending ses →
    subs !! index it = Some ref → itemText it = textAt (lines w0) ref
}.

Definition Inv (w0 : World) (subs : list nat) (w : World) : Prop :=
  ∃ ses, sessions w = sessions w0 ++ [ses] ∧ SessionInv w0 subs w ses.

(** *** Sample inputs *)

Definition line (i : Z) (t : string) : SubtitleLine :=
  {| id := i; startTime := "00:00:01,000"; endTime := "00:00:02,000"; text := t |}.

Definition twoLines : gmap nat SubtitleLine :=
  <[0 := line 1 "a"]> (<[1 := line 2 "b"]> ∅).

(** A session is cancelled while its remote call is in flight, a second
    session is started, and then the call of the first session succeeds. *)
Definition cancelThenRestart : list Label :=
  [TranslateSubtitles [0] "zh"; CancelTranslation; TranslateSubtitles [1] "zh";
   Env (Service.AttemptDone 0 (Service.answer "A")); Env (Service.Resume 0);
   ItemDone 0 0; WaveDone 0].

(** The remote call of a cancelled session succeeds after the
    cancellation, and no other session is started. *)
Definition lateAnswer : list Label :=
  [Env (Service.AttemptDone 0 (Service.answer "A")); Env (Service.Resume 0);
   ItemDone 0 0; WaveDone 0].

(** The remote calls for the first record fail four times, the call for the
    second record succeeds. *)
Definition firstRecordFails : list Label :=
  [Env (Service.AttemptDone 0 Service.Failed); Env (Service.AttemptDone 0 Service.Failed);
   Env (Service.AttemptDone 0 Service.Failed); Env (Service.AttemptDone 0 Service.Failed);
   Env (Service.Resume 0); ItemDone 0 0;
   Env (Service.AttemptDone 1 (Service.answer "B")); Env (Service.Resume 1);
   ItemDone 0 1; WaveDone 0].

(** What the hook has no reason to change in a subtitle object. *)
Definition timing (l : SubtitleLine) : Z * string * string :=
  (id l, startTime l, endTime l).

(** The items of a session that are waiting for their translation belong
    to its current wave, each record once. *)
Definition inWave (ses : Session) : Prop :=
  NoDup (index <$> pending ses) ∧
  ∀ it, it ∈ pending ses → position ses ≤ index it < position ses + maxConcurrent.

(** The key of the hook's cache: [`${text}_${targetLanguage}`]. *)
Definition cacheKeyOf (text targetLanguage : string) : string :=
  text +:+ "_" +:+ targetLanguage.

(** *** What a session has translated

    In a session started in [w0] on the lines [subs] for [target]: a
    record that was handed out and has neither failed nor is pending holds
    what the hook's cache holds for its original text; an item whose text
    has entered the cache meanwhile is answered with that entry; and the
    items with the same text wait for the same answer. *)

Record SuccessInv (w0 : World) (subs : list nat) (target : string)
    (w : World) (ses : Session) : Prop := {
  su_target : targetLanguage ses = target;
  su_service : Service.Inv (service w);
  su_done : ∀ idx ref, subs !! idx = Some ref →
    idx < dispatched subs ses →
    idx ∉ failedIn (length (sessions w0)) (console w) →
    idx ∉ index <$> pending ses →
    translationCacheRef w !! cacheKeyOf (textAt (lines w0) ref) target
    = Some (textAt (lines w) ref);
  su_pending : ∀ it v, it ∈ pending ses →
    translationCacheRef w !! cacheKeyOf (itemText it) target = Some v →
    Service.observed (service w) (awaited it) = Some (Service.Fulfilled v);
  su_same : ∀ it1 it2, it1 ∈ pending ses → it2 ∈ pending ses →
    itemText it1 = itemText it2 → awaited it1 = awaited it2
}.

(** The remote calls for both records of [twoLines] succeed, and the
    session ends. *)
Definition bothRecordsSucceed : list Label :=
  [Env (Service.AttemptDone 0 (Service.answer "A"));
   Env (Service.AttemptDone 1 (Service.answer "B"));
   Env (Service.Resume 0); Env (Service.Resume 1);
   ItemDone 0 0; ItemDone 0 1; WaveDone 0].

End Hook.

(** ** Writing subtitles out: [utils/srtParser.ts]

    [generateSRT] takes the records of the application; [exportSrtContent]
    takes objects of any shape, here objects whose properties are
    [undefined], [null], booleans, integers or strings. *)

Module Srt.

(** The line feed. *)
Definition LF : string := String (ascii_of_nat 10) EmptyString.

(** [String(n)] for an integer. *)
Definition ofZ (n : Z) : string := NilEmpty.string_of_int (Z.to_int n).

(** The text of one block:
    [`${id}\n${startTime} --> ${endTime}\n${text}`]. *)
Definition block (id startTime endTime text : string) : string :=
  id +:+ LF +:+ startTime +:+ " --> " +:+ endTime +:+ LF +:+ text.

(** [Array.prototype.join] *)
Fixpoint join (sep : string) (l : list string) : string :=
  match l with
  | [] => ""
  | x :: rest =>
      match rest with
      | [] => x
      | _ :: _ => x +:+ sep +:+ join sep rest
      end
  end.

Definition generateSRT (subtitles : list Hook.SubtitleLine) : string :=
  match subtitles with
  | [] => ""
  | _ :: _ =>
      let normalizedSubtitles :=
        imap (λ index sub,
                {| Hook.id := Z.of_nat (index + 1); Hook.startTime := Hook.startTime sub;
                   Hook.endTime := Hook.endTime sub; Hook.text := Hook.text sub |})
             subtitles in
      join (LF +:+ LF)
           ((λ sub, block (ofZ (Hook.id sub)) (Hook.startTime sub) (Hook.endTime sub)
                          (Hook.text sub)) <$> normalizedSubtitles)
  end.

Inductive Value :=
| VUndefined
| VNull
| VBool (b : bool)
| VNum (n : Z)
| VStr (s : string).

Definition truthy (v : Value) : bool :=
  match v with
  | VUndefined | VNull => false
  | VBool b => b
  | VNum n => negb (Z.eqb n 0)
  | VStr s => JS.truthy s
  end.

(** [String(v)], the conversion made by a template literal. *)
Definition toString (v : Value) : string :=
  match v with
  | VUndefined => "undefined"
  | VNull => "null"
  | VBool true => "true"
  | VBool false => "false"
  | VNum n => ofZ n
  | VStr s => s
  end.

(** [a || b] *)
Definition or (a b : Value) : Value := if truthy a then a else b.

(** [o.k]: [undefined] when the object has no such property. *)
Definition prop (o : gmap string Value) (k : string) : Value :=
  default VUndefined (o !! k).

(** ['k' in o] *)
Definition has (k : string) (o : gmap string Value) : bool :=
  bool_decide (is_Some (o !! k)).

Definition isMainSubtitleFormat (subtitle : gmap string Value) : bool :=
  has "id" subtitle && has "startTime" subtitle && has "endTime" subtitle.

Definition isAlternativeSubtitleFormat (subtitle : gmap string Value) : bool :=
  has "index" subtitle && has "start" subtitle && has "end" subtitle.

(** The callback of the [map] in [exportSrtContent]: the block of a
    subtitle, or [null] when it has no start or no end time. *)
Definition exportBlock (index : nat) (subtitle : gmap string Value) : option string :=
  let id := VNum (Z.of_nat (index + 1)) in
  let text := or (prop subtitle "text") (VStr "") in
  let '(id, startTime, endTime) :=
    if isMainSubtitleFormat subtitle
    then (id, prop subtitle "startTime", prop subtitle "endTime")
    else if isAlternativeSubtitleFormat subtitle
    then (if truthy (prop subtitle "index") then prop subtitle "index" else id,
          prop subtitle "start", prop subtitle "end")
    else (id,
          or (or (prop subtitle "startTime") (prop subtitle "start")) (VStr ""),
          or (or (prop subtitle "endTime") (prop subtitle "end")) (VStr "")) in
  if negb (truthy startTime) || negb (truthy endTime) then None
  else Some (block (toString id) (toString startTime) (toString endTime)
                   (toString text)).

Definition exportSrtContent (subtitles : list (gmap string Value)) : string :=
  match subtitles with
  | [] => ""
  | _ :: _ =>
      join (LF +:+ LF)
           (omap (λ b, if JS.truthy_opt b then b else None) (imap exportBlock subtitles))
  end.

(** A record of the application as an object. *)
Definition toObject (l : Hook.SubtitleLine) : gmap string Value :=
  <["id" := VNum (Hook.id l)]>
    (<["startTime" := VStr (Hook.startTime l)]>
       (<["endTime" := VStr (Hook.endTime l)]>
          (<["text" := VStr (Hook.text l)]> ∅))).

End Srt.

(* ================================================================== *)
(** * Properties *)
(* ================================================================== *)

(** ** Strings *)

Section JSFacts.

Lemma truthy_iff (s : string) : JS.truthy s = true ↔ s ≠ "".
Proof. destruct s; simpl; split; intros; congruence. Qed.

Lemma truthy_append_r (a b : string) : JS.truthy b = true → JS.truthy (a +:+ b) = true.
Proof. destruct a; simpl; auto. Qed.

Lemma getKey_truthy (s t x : string) : JS.truthy (LRU.getKey s t x) = true.
Proof.
  unfold LRU.getKey. apply truthy_append_r. reflexivity.
Qed.

Lemma trimStart_allWhiteSpace (s : string) :
  JS.allWhiteSpace s = true → JS.trimStart s = "".
Proof.
  induction s as [|c s IH]; simpl; [done|].
  intros [Hc Hs]%andb_true_iff. rewrite Hc. auto.
Qed.

Lemma trimStart_not_allWhiteSpace (s : string) :
  JS.allWhiteSpace s = false →
  ∃ c r, JS.trimStart s = String c r ∧ JS.isWhiteSpace c = false.
Proof.
  induction s as [|c s IH]; simpl; [done|].
  destruct (JS.isWhiteSpace c) eqn:Hc; simpl; eauto.
Qed.

Lemma allWhiteSpace_snoc (l : list ascii) (c : ascii) :
  JS.isWhiteSpace c = false →
  JS.allWhiteSpace (string_of_list_ascii (l ++ [c])) = false.
Proof.
  intros Hc. induction l as [|a l IH]; simpl.
  - by rewrite Hc.
  - rewrite IH. apply andb_false_r.
Qed.

Lemma reverse_cons_truthy (c : ascii) (r : string) :
  JS.truthy (JS.reverse (String c r)) = true.
Proof.
  unfold JS.reverse. simpl.
  destruct (rev (list_ascii_of_string r)); reflexivity.
Qed.

(** [text.trim()] is empty exactly for the texts made of whitespace. *)
Lemma trim_truthy (s : string) :
  JS.truthy (JS.trim s) = negb (JS.allWhiteSpace s).
Proof.
  unfold JS.trim. destruct (JS.allWhiteSpace s) eqn:Hs; simpl.
  - by rewrite (trimStart_allWhiteSpace s Hs).
  - destruct (trimStart_not_allWhiteSpace s Hs) as (c & r & -> & Hc).
    assert (JS.allWhiteSpace (JS.reverse (String c r)) = false) as Hrev.
    { unfold JS.reverse. simpl. by apply allWhiteSpace_snoc. }
    destruct (trimStart_not_allWhiteSpace _ Hrev) as (c' & r' & -> & _).
    apply reverse_cons_truthy.
Qed.

Lemma allWhiteSpace_empty_false (s : string) :
  JS.allWhiteSpace s = false → JS.truthy s = true.
Proof. by destruct s. Qed.

End JSFacts.

(** ** The result cache *)

Section LRUFacts.

Import LRU.

Implicit Types (c : LRUCache) (h : list event) (k key : string).

Lemma lastAccess_le acc h k : lastAccess acc h k ≤ length h.
Proof.
  induction h as [|e h IH]; simpl; [lia|].
  destruct (acc e k); lia.
Qed.

Lemma StronglySorted_filter {A} (R : relation A) (P : A → Prop)
    `{∀ x, Decision (P x)} (l : list A) :
  StronglySorted R l → StronglySorted R (filter P l).
Proof.
  induction 1 as [|a l Hs IH Hall]; [constructor|].
  rewrite filter_cons. destruct (decide (P a)); [|assumption].
  constructor; [assumption|].
  rewrite Forall_forall in Hall |- *.
  intros y Hy. apply list_elem_of_filter in Hy. apply Hall, Hy.
Qed.

Lemma StronglySorted_weaken {A} (R R' : relation A) (l : list A) :
  (∀ a b, a ∈ l → b ∈ l → R a b → R' a b) →
  StronglySorted R l → StronglySorted R' l.
Proof.
  intros Himp Hs. induction Hs as [|a l Hs IH Hall]; [constructor|].
  constructor.
  - apply IH. intros x y Hx Hy. apply Himp; by right.
  - rewrite Forall_forall in Hall |- *. intros y Hy.
    apply Himp; [left|by right|by apply Hall].
Qed.

Lemma size_keys acc h c : consistent acc h c → base.size (cache c) = length (keys c).
Proof.
  intros [_ Hnd Hdom _ _].
  rewrite <- size_dom.
  assert (dom (cache c) = list_to_set (keys c)) as ->.
  { apply set_eq. intros k. rewrite elem_of_dom, elem_of_list_to_set. symmetry. apply Hdom. }
  by apply size_list_to_set.
Qed.

Lemma without_elem_of key k (ks : list string) :
  k ∈ without key ks ↔ k ≠ key ∧ k ∈ ks.
Proof. unfold without. by rewrite list_elem_of_filter. Qed.

(** Moving [key] to the front when it is accessed at the newest time. *)
Lemma promote_sorted acc h e key (ks : list string) :
  acc e key = true →
  (∀ k, k ≠ key → acc e k = false) →
  StronglySorted (byRecency acc h) ks →
  StronglySorted (byRecency acc (e :: h)) (key :: without key ks).
Proof.
  intros Hk Hother Hs. constructor.
  - apply (StronglySorted_weaken (byRecency acc h)).
    + intros a b Ha Hb. apply without_elem_of in Ha as [Ha _].
      apply without_elem_of in Hb as [Hb _].
      unfold byRecency. simpl. by rewrite !Hother.
    + by apply StronglySorted_filter.
  - rewrite Forall_forall. intros y Hy. apply without_elem_of in Hy as [Hy _].
    unfold byRecency. simpl. rewrite Hk, Hother by done.
    pose proof (lastAccess_le acc h y). lia.
Qed.

(** An operation that accesses no entry leaves the order as it is. *)
Lemma idle_sorted acc h e (ks : list string) :
  (∀ k, acc e k = false) →
  StronglySorted (byRecency acc h) ks →
  StronglySorted (byRecency acc (e :: h)) ks.
Proof.
  intros Hno. apply StronglySorted_weaken.
  intros a b _ _. unfold byRecency. simpl. by rewrite !Hno.
Qed.

Lemma new_consistent acc M : consistent acc [] (new M).
Proof.
  split; simpl.
  - constructor.
  - constructor.
  - intros k. rewrite lookup_empty. split; [by intros ?%elem_of_nil | by intros [? ?]].
  - by intros k ?%elem_of_nil.
  - rewrite map_size_empty. lia.
Qed.

Lemma get_consistent h c s t x v c' :
  consistent accessedByHit h c →
  get c s t x = (v, c') →
  consistent accessedByHit (EvGet (getKey s t x) v :: h) c'.
Proof.
  intros Hc. unfold get. destruct (JS.truthy_opt (cache c !! getKey s t x)) eqn:Htr;
    intros [= <- <-].
  - destruct Hc as [Hs Hnd Hdom Ht Hsz]. split; simpl.
    + apply promote_sorted; [|..|done].
      * simpl. rewrite Htr. by rewrite bool_decide_eq_true_2.
      * intros k Hk. simpl. by rewrite bool_decide_eq_false_2.
    + constructor.
      * rewrite without_elem_of. by intros [? _].
      * by apply NoDup_filter.
    + intros k. rewrite elem_of_cons, without_elem_of. rewrite <- Hdom.
      split; [intros [->|[_ ?]]; [|done]|].
      * apply Hdom. destruct (cache c !! getKey s t x); by eauto.
      * intros Hin. destruct (decide (k = getKey s t x)); auto.
    + intros k [->|[_ ?]%without_elem_of]%elem_of_cons; [apply getKey_truthy|by apply Ht].
    + done.
  - destruct Hc as [Hs Hnd Hdom Ht Hsz]. split; try done.
    apply idle_sorted; [|done]. intros k. simpl. rewrite Htr. by rewrite andb_false_r.
Qed.

Lemma clear_consistent h c :
  consistent accessedByHit h c → consistent accessedByHit (EvClear :: h) (clear c).
Proof.
  intros Hc. split; simpl.
  - constructor.
  - constructor.
  - intros k. rewrite lookup_empty. split; [by intros ?%elem_of_nil | by intros [? ?]].
  - by intros k ?%elem_of_nil.
  - rewrite map_size_empty. lia.
Qed.

Lemma without_id key (ks : list string) : key ∉ ks → without key ks = ks.
Proof.
  intros Hnot. induction ks as [|a ks IH]; [done|].
  unfold without in *. rewrite filter_cons.
  apply not_elem_of_cons in Hnot as [Hne Hnot].
  destruct (decide (a ≠ key)) as [|Hn]; [by rewrite IH|].
  exfalso. apply Hn. congruence.
Qed.

(** Writing [key] at the front of an ordered key list. *)
Lemma put_consistent h (m : gmap string string) M (ks : list string) key v :
  StronglySorted (byRecency accessedByHit h) ks →
  NoDup ks →
  (∀ k, k ∈ ks ↔ is_Some (m !! k)) →
  (∀ k, k ∈ ks → JS.truthy k = true) →
  JS.truthy key = true →
  base.size (<[key := v]> m) ≤ M →
  consistent accessedByHit (EvSet key :: h)
    {| cache := <[key := v]> m; maxSize := M; keys := key :: without key ks |}.
Proof.
  intros Hs Hnd Hdom Ht Hkey Hsz. split; simpl.
  - apply promote_sorted; [| |done].
    + simpl. by rewrite bool_decide_eq_true_2.
    + intros k Hk. simpl. by rewrite bool_decide_eq_false_2.
  - constructor; [rewrite without_elem_of; by intros [? _]|by apply NoDup_filter].
  - intros k. rewrite elem_of_cons, without_elem_of, Hdom.
    destruct (decide (k = key)) as [->|Hne].
    + rewrite lookup_insert_eq. split; eauto.
    + rewrite lookup_insert_ne by done. split; [by intros [?|[_ ?]]|by right].
  - intros k [->|[_ ?]%without_elem_of]%elem_of_cons; auto.
  - done.
Qed.

Lemma set_consistent h c s t x v :
  consistent accessedByHit h c →
  0 < maxSize c →
  consistent accessedByHit (EvSet (getKey s t x) :: h) (set c s t x v)
  ∧ maxSize (set c s t x v) = maxSize c.
Proof.
  intros Hc HM. pose proof (size_keys _ _ _ Hc) as Hlen.
  destruct Hc as [Hs Hnd Hdom Ht Hsz].
  unfold set. set (key := getKey s t x).
  destruct (bool_decide (is_Some (cache c !! key))) eqn:Hhas.
  - apply bool_decide_eq_true in Hhas as [w Hw]. simpl. split; [|done].
    apply put_consistent; auto; try apply getKey_truthy.
    rewrite map_size_insert_Some by eauto. done.
  - apply bool_decide_eq_false in Hhas.
    assert (cache c !! key = None) as Hnone by (by apply eq_None_not_Some).
    assert (key ∉ keys c) as Hnotin by (by rewrite Hdom).
    destruct (Nat.leb (maxSize c) (base.size (cache c))) eqn:Hfull.
    + apply Nat.leb_le in Hfull. unfold JS.pop.
      destruct (last (keys c)) as [victim|] eqn:Hlast.
      * apply last_Some in Hlast as [rest Hrest].
        rewrite Hrest, removelast_last.
        rewrite Hrest in Hs, Hnd, Hnotin.
        assert (victim ∈ keys c) as Hvin by (rewrite Hrest; set_solver).
        rewrite (Ht victim Hvin). simpl. split; [|done].
        apply NoDup_app in Hnd as (Hnd1 & Hdisj & _).
        rewrite <- (without_id key rest) by set_solver.
        apply put_consistent; auto; try apply getKey_truthy.
        -- by apply StronglySorted_app_1_l in Hs.
        -- intros k. destruct (decide (k = victim)) as [->|Hne].
           ++ rewrite lookup_delete_eq. split; [|by intros [? ?]].
              intros Hin. exfalso. apply (Hdisj _ Hin). set_solver.
           ++ rewrite lookup_delete_ne by done. rewrite <- Hdom, Hrest. set_solver.
        -- intros k Hk. apply Ht. rewrite Hrest. set_solver.
        -- rewrite map_size_insert_None by (by rewrite lookup_delete_ne; [|intros ->; apply Hdom in Hvin as [? ?]; congruence]).
           apply Hdom in Hvin.
           rewrite map_size_delete_Some by done. lia.
      * apply last_None in Hlast. rewrite Hlast in Hlen. simpl in Hlen. lia.
    + apply Nat.leb_gt in Hfull. simpl. split; [|done].
      rewrite <- (without_id key (keys c)) by done.
      apply put_consistent; auto; try apply getKey_truthy.
      rewrite map_size_insert_None by done. lia.
Qed.

Lemma step_consistent h c o e c' :
  consistent accessedByHit h c →
  0 < maxSize c →
  step c o = (e, c') →
  consistent accessedByHit (e :: h) c' ∧ maxSize c' = maxSize c.
Proof.
  intros Hc HM. destruct o as [s t x|s t x v|]; simpl.
  - destruct (get c s t x) as [v c1] eqn:Hget. intros [= <- <-].
    split; [by eapply get_consistent|].
    unfold get in Hget. by destruct (JS.truthy_opt _); injection Hget as <- <-.
  - intros [= <- <-]. by apply set_consistent.
  - intros [= <- <-]. split; [by apply clear_consistent|done].
Qed.

Lemma run_consistent ops h c h' c' :
  consistent accessedByHit h c →
  0 < maxSize c →
  run c h ops = (h', c') →
  consistent accessedByHit h' c' ∧ maxSize c' = maxSize c.
Proof.
  revert h c. induction ops as [|o ops IH]; intros h c Hc HM; simpl.
  - intros [= <- <-]. done.
  - destruct (step c o) as [e c1] eqn:Hstep. intros Hrun.
    destruct (step_consistent _ _ _ _ _ Hc HM Hstep) as [Hc1 HM1].
    destruct (IH _ _ Hc1 ltac:(lia) Hrun) as [? ?]. split; [done|congruence].
Qed.

Lemma evicts_least_recently_hit M :
  0 < M → evictsLeastRecentlyAccessed M accessedByHit.
Proof.
  intros HM ops h c Hrun.
  destruct (run_consistent _ _ _ _ _ (new_consistent _ M) HM Hrun) as [Hc HMc].
  simpl in HMc. pose proof (size_keys _ _ _ Hc) as Hlen.
  destruct Hc as [Hs Hnd Hdom Ht Hsz]. unfold size.
  split; [lia|]. intros s t x v Hnone Hfull.
  destruct (last (keys c)) as [victim|] eqn:Hlast; cycle 1.
  { apply last_None in Hlast. rewrite Hlast in Hlen. simpl in Hlen. lia. }
  pose proof Hlast as Hlast'.
  apply last_Some in Hlast as [rest Hrest].
  assert (victim ∈ keys c) as Hvin by (rewrite Hrest; set_solver).
  assert (getKey s t x ≠ victim) as Hne.
  { intros <-. apply Hdom in Hvin as [? ?]. congruence. }
  exists victim. split; [by apply Hdom|]. split; [|split].
  - intros k Hk Hkv. apply Hdom in Hk. rewrite Hrest in Hk, Hs.
    apply elem_of_app in Hk as [Hk|Hk%list_elem_of_singleton]; [|done].
    apply (StronglySorted_app_1_elem_of _ _ _ k victim) in Hs; [done|done|set_solver].
  - unfold set. rewrite bool_decide_eq_false_2 by (rewrite Hnone; by intros [? ?]).
    replace (Nat.leb (maxSize c) (base.size (cache c))) with true
      by (symmetry; apply Nat.leb_le; lia).
    unfold JS.pop. rewrite Hlast'. by rewrite (Ht victim Hvin).
  - intros s' t' x' Hk. unfold get.
    assert (cache (set c s t x v) !! getKey s' t' x' = None) as ->; [|done].
    rewrite Hk. unfold set.
    rewrite bool_decide_eq_false_2 by (rewrite Hnone; by intros [? ?]).
    replace (Nat.leb (maxSize c) (base.size (cache c))) with true
      by (symmetry; apply Nat.leb_le; lia).
    unfold JS.pop. rewrite Hlast'. rewrite (Ht victim Hvin). simpl.
    rewrite lookup_insert_ne by done. apply lookup_delete_eq.
Qed.

(** *** Accesses when no empty translation is stored

    With only non-empty values stored, every value in the cache is
    non-empty, so that a [get] naming a present key finds it: the last
    operation that named a present key is a [set] or a [get] that
    returned its value. *)

Record nonEmptyStore (h : list event) (c : LRUCache) : Prop := {
  store_truthy : ∀ k v, cache c !! k = Some v → JS.truthy v = true;
  store_access : ∀ k, is_Some (cache c !! k) →
    lastAccess accessedByCall h k = lastAccess accessedByHit h k
}.

Lemma set_entries c s t x v k w :
  cache (set c s t x v) !! k = Some w →
  (k = getKey s t x ∧ w = v) ∨ (k ≠ getKey s t x ∧ cache c !! k = Some w).
Proof.
  unfold set. simpl.
  destruct (decide (k = getKey s t x)) as [->|Hne].
  { rewrite lookup_insert_eq. intros [= <-]. by left. }
  rewrite lookup_insert_ne by done. intros Hk. right. split; [done|].
  revert Hk. case_bool_decide; [done|].
  destruct (Nat.leb _ _); [|done].
  unfold JS.pop. destruct (last (keys c)) as [oldest|]; simpl; [|done].
  destruct (JS.truthy oldest); [|done].
  intros Hk. by apply lookup_delete_Some in Hk as [_ Hk].
Qed.

Lemma step_nonEmptyStore h c o e c' :
  storesNonEmpty o = true →
  nonEmptyStore h c →
  step c o = (e, c') →
  nonEmptyStore (e :: h) c'.
Proof.
  intros Ho [Ht Ha]. destruct o as [s t x|s t x v|]; simpl.
  - destruct (get c s t x) as [r c1] eqn:Hget. intros [= <- <-].
    assert (cache c1 = cache c ∧ r = cache c !! getKey s t x) as [Hc ->].
    { unfold get in Hget. by destruct (JS.truthy_opt _); injection Hget as <- <-. }
    constructor; rewrite Hc; [done|].
    intros k Hk. simpl. case_bool_decide as Heq; simpl; [|by apply Ha].
    subst k. destruct Hk as [v Hv]. rewrite Hv. simpl. by rewrite (Ht _ _ Hv).
  - intros [= <- <-]. constructor.
    + intros k w [[-> ->]|[_ Hk]]%set_entries; [done|by eapply Ht].
    + intros k [w [[-> ->]|[Hne Hk]]%set_entries]; simpl.
      * by rewrite bool_decide_eq_true_2.
      * rewrite bool_decide_eq_false_2 by done. apply Ha. by exists w.
  - intros [= <- <-]. constructor; simpl.
    + intros k v. by rewrite lookup_empty.
    + intros k [v Hv]. by rewrite lookup_empty in Hv.
Qed.

Lemma run_nonEmptyStore ops : ∀ h c h' c',
  forallb storesNonEmpty ops = true →
  nonEmptyStore h c →
  run c h ops = (h', c') →
  nonEmptyStore h' c'.
Proof.
  induction ops as [|o ops IH]; intros h c h' c' Hops Hstore; simpl.
  - by intros [= <- <-].
  - apply andb_true_iff in Hops as [Ho Hops].
    destruct (step c o) as [e c1] eqn:Hstep.
    apply IH; [done|]. by eapply step_nonEmptyStore.
Qed.

(** C3.  For every sequence of [get], [set] and [clear] operations on a
    result cache of capacity 1000 that stores no empty translation (the
    service stores none), the cache never holds more than 1000 entries; a
    [set] of a new key at capacity evicts the entry least recently
    accessed by [get] or [set], and a subsequent [get] does not find that
    key. *)
Theorem resultCache_evicts_least_recently_accessed ops h c :
  forallb storesNonEmpty ops = true →
  run (new 1000) [] ops = (h, c) →
  size c ≤ 1000 ∧
  ∀ s t x v,
    cache c !! getKey s t x = None →
    size c = 1000 →
    ∃ victim,
      is_Some (cache c !! victim) ∧
      (∀ k, is_Some (cache c !! k) → k ≠ victim →
            lastAccess accessedByCall h victim < lastAccess accessedByCall h k) ∧
      cache (set c s t x v) = <[getKey s t x := v]> (delete victim (cache c)) ∧
      (∀ s' t' x', getKey s' t' x' = victim →
            (get (set c s t x v) s' t' x').1 = None).
Proof.
  intros Hops Hrun.
  assert (nonEmptyStore h c) as [_ Ha].
  { apply (run_nonEmptyStore ops [] (new 1000)); [done| |done].
    constructor; simpl; intros k; [intros v|intros [v Hv]; revert Hv];
      by rewrite lookup_empty. }
  destruct (evicts_least_recently_hit 1000 ltac:(lia) ops h c Hrun) as [Hsize Hevict].
  split; [done|]. intros s t x v Hnone Hfull.
  destruct (Hevict s t x v Hnone Hfull) as (victim & Hin & Hmin & Hcache & Hgone).
  exists victim. split; [done|]. split; [|done].
  intros k Hk Hne. rewrite (Ha victim Hin), (Ha k Hk). by apply Hmin.
Qed.

(** A computed [let] gives a value satisfying the computed equation. *)
Lemma let_witness {A B} (a : A) (f : A → B) (v : B) :
  (let x := a in f x) = v → ∃ x, a = x ∧ f x = v.
Proof. intros H. exists a. split; [reflexivity|exact H]. Qed.

(** What the cache looks like after [fillThenGetOldest]: it is full, and
    a further [set] removes the entry for "1", not the entry for "0",
    which was set first and read last. *)
Lemma fillThenGetOldest_facts :
  ∃ h c, run (new 1000) [] fillThenGetOldest = (h, c) ∧
    cache c !! getKey "ja" "zh" "1000" = None ∧
    size c = 1000 ∧
    cache (set c "ja" "zh" "1000" "x") !! getKey "ja" "zh" "0" = Some "x" ∧
    cache (set c "ja" "zh" "1000" "x") !! getKey "ja" "zh" "1" = None.
Proof.
  assert ((let hc := run (new 1000) [] fillThenGetOldest in
           (cache hc.2 !! getKey "ja" "zh" "1000",
            size hc.2,
            cache (set hc.2 "ja" "zh" "1000" "x") !! getKey "ja" "zh" "0",
            cache (set hc.2 "ja" "zh" "1000" "x") !! getKey "ja" "zh" "1"))
          = (None, 1000, Some "x", None)) as E
    by (vm_compute; reflexivity).
  destruct (let_witness _ (λ hc : list event * LRUCache,
           (cache hc.2 !! getKey "ja" "zh" "1000",
            size hc.2,
            cache (set hc.2 "ja" "zh" "1000" "x") !! getKey "ja" "zh" "0",
            cache (set hc.2 "ja" "zh" "1000" "x") !! getKey "ja" "zh" "1")) _ E)
    as ([h c] & Hrun & E').
  cbn [fst snd] in E'. injection E' as E1 E2 E3 E4.
  exists h, c. auto 10.
Qed.

(** The theorem at a full cache whose oldest entry was read last: setting
    one more key evicts an entry accessed before all the others, and the
    entry that was read stays. *)
Lemma resultCache_evicts_least_recently_accessed_witness :
  ∃ h c, run (new 1000) [] fillThenGetOldest = (h, c) ∧
    size c ≤ 1000 ∧
    cache (set c "ja" "zh" "1000" "x") !! getKey "ja" "zh" "0" = Some "x" ∧
    cache (set c "ja" "zh" "1000" "x") !! getKey "ja" "zh" "1" = None ∧
    ∃ victim,
      is_Some (cache c !! victim) ∧
      (∀ k, is_Some (cache c !! k) → k ≠ victim →
            lastAccess accessedByCall h victim < lastAccess accessedByCall h k) ∧
      cache (set c "ja" "zh" "1000" "x")
        = <[getKey "ja" "zh" "1000" := "x"]> (delete victim (cache c)) ∧
      (∀ s' t' x', getKey s' t' x' = victim →
            (get (set c "ja" "zh" "1000" "x") s' t' x').1 = None).
Proof.
  destruct fillThenGetOldest_facts as (h & c & Hrun & Hnone & Hfull & Hkept & Hgone).
  exists h, c. split; [exact Hrun|].
  assert (forallb storesNonEmpty fillThenGetOldest = true) as Hops
    by (vm_compute; reflexivity).
  destruct (resultCache_evicts_least_recently_accessed _ h c Hops Hrun)
    as [Hsize Hevict].
  split; [exact Hsize|]. split; [exact Hkept|]. split; [exact Hgone|].
  exact (Hevict "ja" "zh" "1000" "x" Hnone Hfull).
Defined.

End LRUFacts.

(** ** The scheduler *)

Section ServiceFacts.

Import Service.

Implicit Types (s : TranslationService) (o : TranslationOptions) (p : nat).

Lemma supported_inv sl tl : supported sl tl = true → sl = "ja" ∧ tl = "zh".
Proof.
  unfold supported. intros [H1 H2]%andb_true_iff.
  by apply String.eqb_eq in H1, H2.
Qed.

(** A blank text goes through [translate] without touching the service. *)
Lemma translate_blank s (x : string) :
  JS.allWhiteSpace x = true → translate s (mkOptions "ja" "zh" x) = (Returns x, s).
Proof.
  intros Hblank. unfold translate. simpl.
  by rewrite trim_truthy, Hblank.
Qed.

(** C7.  For every text made only of whitespace (the empty text included),
    [translate] with the supported pair returns the text itself and leaves
    the whole service as it was: no request is queued, no [fetch] is
    issued and the result cache is not written. *)
Theorem translate_blank_text s (text : string) :
  JS.allWhiteSpace text = true →
  translate s (mkOptions "ja" "zh" text) = (Returns text, s).
Proof. apply translate_blank. Qed.

(** The theorem at a text of three whitespace characters and at the empty
    text, in a fresh service. *)
Lemma translate_blank_text_witness :
  translate Service.new (mkOptions "ja" "zh" "   ") = (Returns "   ", Service.new)
  ∧ translate Service.new (mkOptions "ja" "zh" "") = (Returns "", Service.new).
Proof.
  split.
  - apply (translate_blank_text Service.new "   "). reflexivity.
  - apply (translate_blank_text Service.new ""). reflexivity.
Defined.

(** *** What the queue processing leaves alone *)

Lemma sameRequests_refl s : sameRequests s s.
Proof. by split. Qed.

Lemma sameRequests_trans s1 s2 s3 :
  sameRequests s1 s2 → sameRequests s2 s3 → sameRequests s1 s3.
Proof.
  intros [A1 A2 A3 A4 A5] [B1 B2 B3 B4 B5].
  split; try congruence. by rewrite B5.
Qed.

Lemma drain_same q s :
  translationQueue s = q → sameRequests s (drain q s).
Proof.
  revert s. induction q as [|t q IH]; intros s Hq; simpl; [apply sameRequests_refl|].
  destruct (JS.numLt (JS.ofInt (activeTranslations s)) (maxConcurrent s)); [|apply sameRequests_refl].
  eapply sameRequests_trans; [|apply IH; reflexivity].
  split; try reflexivity.
  unfold jobs. simpl. rewrite Hq, fmap_app. simpl.
  rewrite (Permutation_app_comm (task <$> workers s) [t]). simpl.
  by rewrite Permutation_middle.
Qed.

Lemma processQueueIterative_same s : sameRequests s (processQueueIterative s).
Proof.
  destruct (drain_same (translationQueue s) s eq_refl) as [A1 A2 A3 A4 A5].
  by split.
Qed.

Lemma startProcessingQueue_same s : sameRequests s (startProcessingQueue s).
Proof.
  unfold startProcessingQueue. destruct (isProcessing s); [apply sameRequests_refl|].
  eapply sameRequests_trans; [|apply processQueueIterative_same].
  by split.
Qed.

Lemma NoDup_fmap_inj {A B} (g : A → B) (l : list A) (x y : A) :
  NoDup (g <$> l) → x ∈ l → y ∈ l → g x = g y → x = y.
Proof.
  induction l as [|a l IH]; simpl; [by intros _ ?%elem_of_nil|].
  intros [Hnotin Hnd]%NoDup_cons [->|Hx]%elem_of_cons [->|Hy]%elem_of_cons Heq; auto.
  - exfalso. apply Hnotin. rewrite Heq. by apply list_elem_of_fmap_2.
  - exfalso. apply Hnotin. rewrite <- Heq. by apply list_elem_of_fmap_2.
Qed.

Lemma keyOf_inj o1 o2 :
  supported (sourceLanguage o1) (targetLanguage o1) = true →
  supported (sourceLanguage o2) (targetLanguage o2) = true →
  keyOf o1 = keyOf o2 → o1 = o2.
Proof.
  destruct o1 as [s1 t1 x1], o2 as [s2 t2 x2]. unfold keyOf. simpl.
  intros [-> ->]%supported_inv [-> ->]%supported_inv.
  unfold LRU.getKey. cbn. intros H. injection H as H.
  change (x1 = x2) in H. by subst.
Qed.

(** At most one waiting frame per key. *)
Lemma frame_unique s f1 f2 :
  Inv s → f1 ∈ awaiting s → f2 ∈ awaiting s →
  keyOf (options f1) = keyOf (options f2) → f1 = f2.
Proof.
  intros HI H1 H2 Hk.
  destruct (inv_frame s HI f1 H1) as (_ & _ & E1 & _).
  destruct (inv_frame s HI f2 H2) as (_ & _ & E2 & _).
  apply (NoDup_fmap_inj promise (awaiting s)); auto using inv_frames_nodup.
  rewrite Hk in E1. congruence.
Qed.

Lemma Inv_new : Inv Service.new.
Proof.
  split; simpl.
  - by intros f ?%elem_of_nil.
  - intros k p. by rewrite lookup_empty.
  - constructor.
  - by intros j ?%elem_of_nil.
  - constructor.
  - intros p v. by rewrite lookup_nil.
Qed.

Lemma Inv_same s s' : sameRequests s s' → Inv s → Inv s'.
Proof.
  intros [A1 A2 A3 A4 A5] [I1 I2 I3 I4 I5 I6]. split.
  - rewrite A1, A2, A3, A4. exact I1.
  - rewrite A2, A4. exact I2.
  - by rewrite A4.
  - intros j Hj. rewrite A3, A4. apply I4. by rewrite <- A5.
  - by rewrite A5.
  - by rewrite A3.
Qed.

(** A cache holding the same entries (in another order of use). *)
Lemma Inv_withCache s c :
  LRU.cache c = LRU.cache (resultCache s) → Inv s → Inv (withCache s c).
Proof.
  intros Hc [I1 I2 I3 I4 I5 I6]. split; simpl; try done.
  intros f Hf. rewrite Hc. by apply I1.
Qed.

Lemma get_cache c sl tl x : LRU.cache (LRU.get c sl tl x).2 = LRU.cache c.
Proof. unfold LRU.get. by destruct (JS.truthy_opt _). Qed.

Lemma get_value c sl tl x : (LRU.get c sl tl x).1 = LRU.cache c !! LRU.getKey sl tl x.
Proof. unfold LRU.get. by destruct (JS.truthy_opt _). Qed.

Lemma withCache_id s : withCache s (resultCache s) = s.
Proof. by destruct s. Qed.

Lemma translate_cases s o : translateCase s o (translate s o).1 (translate s o).2.
Proof.
  unfold translate.
  destruct (supported (sourceLanguage o) (targetLanguage o)) eqn:Hsup; simpl;
    [|by constructor].
  rewrite trim_truthy.
  destruct (JS.allWhiteSpace (text o)) eqn:Hblank; simpl; [by constructor|].
  pose proof (get_value (resultCache s) (sourceLanguage o) (targetLanguage o) (text o)) as Hv.
  pose proof (get_cache (resultCache s) (sourceLanguage o) (targetLanguage o) (text o)) as Hc.
  fold (keyOf o) in Hv.
  assert (JS.truthy_opt (LRU.cache (resultCache s) !! keyOf o) = false →
          LRU.get (resultCache s) (sourceLanguage o) (targetLanguage o) (text o)
          = (LRU.cache (resultCache s) !! keyOf o, resultCache s)) as Hmiss.
  { intros Hf. unfold LRU.get. fold (keyOf o). by rewrite Hf. }
  destruct (LRU.cache (resultCache s) !! keyOf o) as [[|a v]|] eqn:Hlook.
  - rewrite Hmiss by done. rewrite withCache_id.
    change (sourceLanguage o +:+ "_" +:+ targetLanguage o +:+ "_" +:+ text o) with (keyOf o).
    destruct (promiseCache s !! keyOf o) as [p|] eqn:Hp; simpl.
    + by apply CaseAttached; rewrite ?Hlook.
    + by apply CaseCreated; rewrite ?Hlook.
  - destruct (LRU.get _ _ _ _) as [v' c'] eqn:Hget. simpl in Hv, Hc. subst v'. simpl.
    replace c' with (LRU.get (resultCache s) (sourceLanguage o) (targetLanguage o)
                             (text o)).2 by (by rewrite Hget).
    by apply CaseCached.
  - rewrite Hmiss by done. rewrite withCache_id.
    change (sourceLanguage o +:+ "_" +:+ targetLanguage o +:+ "_" +:+ text o) with (keyOf o).
    destruct (promiseCache s !! keyOf o) as [p|] eqn:Hp; simpl.
    + by apply CaseAttached; rewrite ?Hlook.
    + by apply CaseCreated; rewrite ?Hlook.
Qed.

Lemma enqueue_Inv s o :
  Inv s →
  supported (sourceLanguage o) (targetLanguage o) = true →
  JS.allWhiteSpace (text o) = false →
  JS.truthy_opt (LRU.cache (resultCache s) !! keyOf o) = false →
  promiseCache s !! keyOf o = None →
  Inv (enqueue s o (keyOf o)).
Proof.
  intros [I1 I2 I3 I4 I5 I6] Hsup Hblank Hmiss Hfree.
  set (item := {| options := o; promise := length (promises s) |}).
  assert (∀ f, f ∈ awaiting s → promise f ≠ length (promises s)) as Hfresh.
  { intros f Hf. destruct (I1 f Hf) as (_ & _ & _ & Hlt & _). lia. }
  assert (jobs (enqueue s o (keyOf o)) ≡ₚ item :: jobs s) as Hjobs.
  { unfold jobs. simpl. fold item. rewrite <- app_assoc. simpl.
    by rewrite <- Permutation_middle. }
  split; simpl; fold item.
  - intros f [Hf|Hf%list_elem_of_singleton]%elem_of_app; [|subst f].
    + destruct (I1 f Hf) as (A & B & C & D & E). repeat split; auto.
      * rewrite lookup_insert_ne; [done|]. intros Hk. rewrite Hk in Hfree. congruence.
      * rewrite length_app. simpl. lia.
    + simpl. repeat split; auto.
      * by rewrite lookup_insert_eq.
      * rewrite length_app. simpl. lia.
  - intros k p. destruct (decide (k = keyOf o)) as [->|Hne].
    + rewrite lookup_insert_eq. intros [= <-]. exists item.
      split; [apply elem_of_app; right; by apply list_elem_of_singleton|done].
    + rewrite lookup_insert_ne by done. intros Hp.
      destruct (I2 k p Hp) as (f & Hf & ? & ?). exists f.
      split; [apply elem_of_app; by left|done].
  - rewrite fmap_app. simpl. apply NoDup_app. split; [done|]. split.
    + intros x (f & -> & Hf)%list_elem_of_fmap Hx%list_elem_of_singleton.
      by apply (Hfresh f).
    + apply NoDup_singleton.
  - intros j Hj. rewrite Hjobs in Hj. apply elem_of_cons in Hj as [->|Hj].
    + split; [apply elem_of_app; right; by apply list_elem_of_singleton|].
      simpl. by rewrite lookup_app_r, Nat.sub_diag.
    + destruct (I4 j Hj) as [Hin Hpend]. split; [apply elem_of_app; by left|].
      rewrite lookup_app_l; [done|]. by apply lookup_lt_Some in Hpend.
  - rewrite Hjobs. simpl. apply NoDup_cons. split; [|done].
    intros (j & Hp & Hj)%list_elem_of_fmap. destruct (I4 j Hj) as [Hin _].
    by apply (Hfresh j).
  - intros p v Hp. apply (I6 p v).
    apply lookup_app_Some in Hp as [Hp|[_ Hp]]; [done|].
    by destruct (p - length (promises s)) as [|[|?]].
Qed.

(** [translate] keeps the invariant. *)
Lemma translate_Inv s o : Inv s → Inv (translate s o).2.
Proof.
  intros HI. destruct (translate_cases s o); try done.
  - apply Inv_withCache; [apply get_cache|done].
  - eapply Inv_same; [apply startProcessingQueue_same|]. by apply enqueue_Inv.
Qed.

(** A successful remote call never yields an empty translation. *)
Lemma parseResponse_truthy (x : string) data v :
  JS.allWhiteSpace x = false →
  parseResponse x data = Fulfilled v → JS.truthy v = true.
Proof.
  intros Hx%allWhiteSpace_empty_false. unfold parseResponse.
  repeat (match goal with
          | |- context [match ?d with _ => _ end] => destruct d eqn:?
          end; simpl; try congruence);
    intros [= <-]; try done.
  rewrite trim_truthy in *.
  match goal with H : negb (JS.allWhiteSpace ?t) = true |- _ =>
    apply negb_true_iff, allWhiteSpace_empty_false in H end. done.
Qed.

Lemma translateWithGoogleAPI_truthy o outcome v :
  JS.allWhiteSpace (text o) = false →
  translateWithGoogleAPI o outcome = Fulfilled v → JS.truthy v = true.
Proof.
  intros Hx. unfold translateWithGoogleAPI.
  destruct (negb _); [done|]. destruct (Nat.ltb _ _); [done|].
  destruct outcome; try done. by apply parseResponse_truthy.
Qed.

Lemma settle_Inv s p outcome w :
  Inv s → w ∈ workers s → promise (task w) = p →
  (∀ v, outcome = Fulfilled v → JS.truthy v = true) →
  Inv (settle s p outcome).
Proof.
  intros [I1 I2 I3 I4 I5 I6] Hw Hp Hval. unfold settle.
  eapply Inv_same; [apply processQueueIterative_same|].
  assert (task w ∈ jobs s) as Hjob.
  { unfold jobs. apply elem_of_app. right. by apply list_elem_of_fmap_2. }
  assert (p < length (promises s)) as Hlt.
  { destruct (I4 _ Hjob) as [_ Hpend]. apply lookup_lt_Some in Hpend. by rewrite Hp in Hpend. }
  set (s0 := {| promises := <[p := Some outcome]> (promises s) |}).
  assert (∀ j, j ∈ jobs s0 → j ∈ jobs s ∧ promise j ≠ p) as Hsub.
  { intros j. unfold jobs. simpl. rewrite !elem_of_app.
    intros [Hq|(w' & -> & Hw')%list_elem_of_fmap].
    - split; [by left|]. intros Hjp.
      unfold jobs in I5. rewrite fmap_app in I5.
      apply NoDup_app in I5 as (_ & Hdisj & _).
      apply (Hdisj (promise j)); [by apply list_elem_of_fmap_2|].
      rewrite Hjp, <- Hp. apply list_elem_of_fmap_2. by apply list_elem_of_fmap_2.
    - apply list_elem_of_filter in Hw' as [Hne Hw'].
      split; [right; by apply list_elem_of_fmap_2|done]. }
  split; simpl.
  - intros f Hf. destruct (I1 f Hf) as (A & B & C & D & E).
    repeat split; auto. by rewrite length_insert.
  - exact I2.
  - exact I3.
  - intros j Hj. destruct (Hsub j Hj) as [Hin Hne]. destruct (I4 j Hin) as [? ?].
    split; [done|]. by rewrite list_lookup_insert_ne.
  - eapply sublist_NoDup; [exact I5|]. unfold jobs. simpl.
    rewrite !fmap_app. apply sublist_app; [done|].
    apply fmap_sublist, fmap_sublist, sublist_filter.
  - intros q v. destruct (decide (p = q)) as [<-|Hne].
    + rewrite list_lookup_insert_eq by done. intros [= ->]. by apply Hval.
    + rewrite list_lookup_insert_ne by done. apply I6.
Qed.

Lemma list_find_elem {A} (P : A → Prop) `{∀ x, Decision (P x)} (l : list A) i x :
  list_find P l = Some (i, x) → x ∈ l ∧ P x.
Proof.
  intros (Hl & HP & _)%list_find_Some. split; [|done].
  by eapply list_elem_of_lookup_2.
Qed.

Lemma attemptDone_Inv s p outcome s' :
  Inv s → attemptDone s p outcome = Some s' → Inv s'.
Proof.
  intros HI. unfold attemptDone.
  destruct (list_find _ (workers s)) as [[i w]|] eqn:Hfind; [|done].
  apply list_find_elem in Hfind as [Hw Hp].
  assert (task w ∈ jobs s) as Hjob.
  { unfold jobs. apply elem_of_app. right. by apply list_elem_of_fmap_2. }
  destruct (inv_job s HI _ Hjob) as [Hframe _].
  destruct (inv_frame s HI _ Hframe) as (_ & Hblank & _).
  destruct (translateWithGoogleAPI (options (task w)) outcome) as [v|e] eqn:Hapi.
  - intros [= <-]. eapply settle_Inv; eauto.
    intros v' [= <-]. by eapply translateWithGoogleAPI_truthy.
  - destruct (Nat.leb _ _).
    + intros [= <-].
      assert (∀ ws : list Worker, (∀ w', w' ∈ ws → promise (task w') = p → task w' = task w) →
              task <$> ((λ w', if bool_decide (promise (task w') = p)
                               then {| task := task w; attempts := S (attempts w);
                                       lastError := Some e |}
                               else w') <$> ws) = task <$> ws) as Hmap.
      { induction ws as [|a ws IH]; intros Hall; [done|]. rewrite !fmap_cons.
        rewrite IH by (intros; apply Hall; [by right|done]). f_equal.
        case_bool_decide; [|done]. simpl. symmetry. apply Hall; [by left|done]. }
      destruct HI as [I1 I2 I3 I4 I5 I6].
      assert (∀ w', w' ∈ workers s → promise (task w') = p → task w' = task w) as Hsame.
      { intros w' Hw' Hp'. apply (NoDup_fmap_inj promise (jobs s)); auto.
        - unfold jobs. apply elem_of_app. right. by apply list_elem_of_fmap_2.
        - congruence. }
      split; simpl; auto.
      * intros j. unfold jobs. simpl. rewrite Hmap by done. apply I4.
      * unfold jobs. simpl. by rewrite Hmap.
    + intros [= <-]. eapply settle_Inv; eauto. by intros v [=].
Qed.

(** What a [set] does to the other entries: it keeps or deletes them. *)
Lemma set_lookup_ne c sl tl x v k :
  k ≠ LRU.getKey sl tl x →
  LRU.cache (LRU.set c sl tl x v) !! k = LRU.cache c !! k
  ∨ LRU.cache (LRU.set c sl tl x v) !! k = None.
Proof.
  intros Hne. unfold LRU.set.
  destruct (bool_decide _); simpl; [left; by apply lookup_insert_ne|].
  destruct (Nat.leb _ _); simpl; [|left; by apply lookup_insert_ne].
  unfold JS.pop. destruct (last (LRU.keys c)) as [victim|]; simpl;
    [|left; by apply lookup_insert_ne].
  rewrite lookup_insert_ne by done.
  destruct (JS.truthy victim); [|by left].
  destruct (decide (k = victim)) as [->|Hv].
  - right. apply lookup_delete_eq.
  - left. by apply lookup_delete_ne.
Qed.

Lemma set_lookup c sl tl x v :
  LRU.cache (LRU.set c sl tl x v) !! LRU.getKey sl tl x = Some v.
Proof. unfold LRU.set. simpl. apply lookup_insert_eq. Qed.

Lemma resume_Inv s p s' : Inv s → resume s p = Some s' → Inv s'.
Proof.
  intros HI. unfold resume.
  destruct (list_find _ (awaiting s)) as [[i f]|] eqn:Hfind; [|done].
  apply list_find_elem in Hfind as [Hf Hp].
  destruct (promises s !! p) as [[outcome|]|] eqn:Hsettled; try done.
  intros [= <-].
  assert (∀ f', f' ∈ awaiting s → promise f' ≠ p →
                keyOf (options f') ≠ keyOf (options f)) as Hkeys.
  { intros f' Hf' Hne Hk. apply Hne. rewrite <- Hp.
    f_equal. by apply (frame_unique s). }
  destruct HI as [I1 I2 I3 I4 I5 I6].
  split; simpl.
  - intros f' [Hne Hf']%list_elem_of_filter.
    destruct (I1 f' Hf') as (A & B & C & D & E). repeat split; auto.
    + fold (keyOf (options f)). rewrite lookup_delete_ne; [done|].
      intros Hk. by apply (Hkeys f' Hf' Hne).
    + destruct outcome as [v|e]; [|done].
      destruct (set_lookup_ne (resultCache s) (sourceLanguage (options f))
                  (targetLanguage (options f)) (text (options f)) v
                  (keyOf (options f')) (Hkeys f' Hf' Hne)) as [-> | ->]; auto.
  - intros k q. fold (keyOf (options f)).
    destruct (decide (k = keyOf (options f))) as [->|Hne].
    + by rewrite lookup_delete_eq.
    + rewrite lookup_delete_ne by done. intros Hq.
      destruct (I2 k q Hq) as (f' & Hf' & Hq' & Hk). exists f'.
      split; [|done]. apply list_elem_of_filter. split; [|done].
      intros Hpp. apply Hne. rewrite <- Hk. f_equal. f_equal.
      apply (NoDup_fmap_inj promise (awaiting s)); auto. congruence.
  - eapply sublist_NoDup; [exact I3|]. apply fmap_sublist, sublist_filter.
  - intros j Hj. destruct (I4 j Hj) as [Hin Hpend]. split; [|done].
    apply list_elem_of_filter. split; [|done]. intros Hjp. congruence.
  - exact I5.
  - exact I6.
Qed.

Lemma clearCache_Inv s : Inv s → Inv (clearCache s).
Proof.
  intros [I1 I2 I3 I4 I5 I6]. split; simpl; try done.
  intros f Hf. destruct (I1 f Hf) as (A & B & C & D & E).
  repeat split; auto.
Qed.

Lemma setMaxConcurrent_Inv s n : Inv s → Inv (setMaxConcurrent s n).
Proof.
  intros HI. unfold setMaxConcurrent.
  eapply Inv_same; [apply startProcessingQueue_same|].
  destruct HI. by split.
Qed.

Lemma step_Inv s l s' : Inv s → step s l = Some s' → Inv s'.
Proof.
  intros HI. destruct l; simpl.
  - intros [= <-]. by apply translate_Inv.
  - by apply attemptDone_Inv.
  - by apply resume_Inv.
  - intros [= <-]. by apply clearCache_Inv.
  - intros [= <-]. by apply setMaxConcurrent_Inv.
Qed.

(** The invariant holds in every state the service can reach. *)
Lemma run_Inv ls s s' : Inv s → run s ls = Some s' → Inv s'.
Proof.
  revert s. induction ls as [|l ls IH]; intros s HI; simpl.
  - by intros [= <-].
  - destruct (step s l) as [s1|] eqn:Hstep; [|done].
    apply IH. by eapply step_Inv.
Qed.

(** *** Frames are never replaced *)

Lemma step_frames s l s' :
  step s l = Some s' →
  length (promises s) ≤ length (promises s') ∧
  ∀ f, f ∈ awaiting s' → f ∈ awaiting s ∨ length (promises s) ≤ promise f.
Proof.
  destruct l as [o|p outcome|p| |n]; simpl.
  - intros [= <-]. destruct (translate_cases s o); simpl; auto.
    destruct (startProcessingQueue_same (enqueue s o (keyOf o))) as [_ _ -> -> _].
    simpl. rewrite length_app. split; [lia|].
    intros f [?|Hf%list_elem_of_singleton]%elem_of_app; [auto|subst f; auto].
  - unfold attemptDone.
    destruct (list_find _ _) as [[i w]|]; [|done].
    assert (∀ out, length (promises (settle s p out)) = length (promises s)
                   ∧ awaiting (settle s p out) = awaiting s) as Hsettle.
    { intros out. unfold settle.
      match goal with |- context [processQueueIterative ?s0] =>
        destruct (processQueueIterative_same s0) as [_ _ -> -> _] end.
      simpl. by rewrite length_insert. }
    destruct (translateWithGoogleAPI _ _) as [v|e].
    + intros [= <-]. destruct (Hsettle (Fulfilled v)) as [-> ->]. auto.
    + destruct (Nat.leb _ _); intros [= <-]; [simpl; auto|].
      destruct (Hsettle (Rejected (RetriesExhausted e))) as [-> ->]. auto.
  - unfold resume. destruct (list_find _ _) as [[i f]|]; [|done].
    destruct (promises s !! p) as [[outcome|]|]; try done.
    intros [= <-]. simpl. split; [done|].
    intros f' [_ ?]%list_elem_of_filter. auto.
  - intros [= <-]. simpl. auto.
  - intros [= <-]. unfold setMaxConcurrent.
    match goal with |- context [startProcessingQueue ?s0] =>
      destruct (startProcessingQueue_same s0) as [_ _ -> -> _] end.
    simpl. auto.
Qed.

Lemma run_frames ls s s' :
  run s ls = Some s' →
  length (promises s) ≤ length (promises s') ∧
  ∀ f, f ∈ awaiting s' → f ∈ awaiting s ∨ length (promises s) ≤ promise f.
Proof.
  revert s. induction ls as [|l ls IH]; intros s; simpl.
  - intros [= <-]. auto.
  - destruct (step s l) as [s1|] eqn:Hstep; [|done]. intros Hrun.
    destruct (step_frames _ _ _ Hstep) as [Hlen Hfr].
    destruct (IH _ Hrun) as [Hlen' Hfr']. split; [lia|].
    intros f Hf. destruct (Hfr' f Hf) as [Hin|Hge]; [|right; lia].
    destruct (Hfr f Hin); auto.
Qed.

Lemma NoDup_fmap_transfer {A B C} (g : A → B) (h : A → C) (l : list A) :
  (∀ x y, x ∈ l → y ∈ l → g x = g y → h x = h y) →
  NoDup (h <$> l) → NoDup (g <$> l).
Proof.
  induction l as [|a l IH]; intros Hgh; simpl; [constructor|].
  intros [Hnotin Hnd]%NoDup_cons. apply NoDup_cons. split.
  - intros (y & Hgy & Hy)%list_elem_of_fmap. apply Hnotin.
    rewrite (Hgh a y); [by apply list_elem_of_fmap_2|by left|by right|done].
  - apply IH; [|done]. intros x y Hx Hy. apply Hgh; by right.
Qed.

(** C2.  In every state reached by any interleaving of [translate] calls
    with the completions of remote calls: two waiting [translate] frames
    never have the same key, the entries of [promiseCache] are exactly the
    promises of the waiting frames, and no two requests in the queue or
    with a worker have the same key; a call for a key that has an entry
    returns the promise of that entry and changes nothing (nothing is
    queued); and as soon as a promise is settled, fulfilled or rejected,
    the frame that created it resumes and deletes the entry. *)
Theorem pending_request_unique_shared_removed ls s :
  run Service.new ls = Some s →
  (∀ f1 f2, f1 ∈ awaiting s → f2 ∈ awaiting s →
            keyOf (options f1) = keyOf (options f2) → f1 = f2) ∧
  (∀ k p, promiseCache s !! k = Some p ↔
          ∃ f, f ∈ awaiting s ∧ promise f = p ∧ keyOf (options f) = k) ∧
  NoDup ((λ j, keyOf (options j)) <$> jobs s) ∧
  (∀ x p, promiseCache s !! keyOf (mkOptions "ja" "zh" x) = Some p →
          translate s (mkOptions "ja" "zh" x) = (Awaits p, s)) ∧
  (∀ f outcome, f ∈ awaiting s →
          promises s !! promise f = Some (Some outcome) →
          ∃ s', resume s (promise f) = Some s' ∧
                promiseCache s' !! keyOf (options f) = None).
Proof.
  intros Hrun. pose proof (run_Inv _ _ _ Inv_new Hrun) as HI.
  split; [|split; [|split; [|split]]].
  - intros f1 f2. by apply frame_unique.
  - intros k p. split; [apply (inv_entry s HI)|].
    intros (f & Hf & <- & <-). by destruct (inv_frame s HI f Hf) as (_ & _ & ? & _).
  - apply (NoDup_fmap_transfer _ promise); [|apply (inv_jobs_nodup s HI)].
    intros x y Hx Hy Hk.
    destruct (inv_job s HI x Hx) as [Hfx _]. destruct (inv_job s HI y Hy) as [Hfy _].
    f_equal. by apply (frame_unique s).
  - intros x p Hp.
    destruct (inv_entry s HI _ _ Hp) as (f & Hf & Hpf & Hk).
    destruct (inv_frame s HI f Hf) as (Hsup & Hblank & _ & _ & Hmiss).
    apply keyOf_inj in Hk; [|done..]. rewrite Hk in Hblank, Hmiss. simpl in Hblank.
    rewrite (surjective_pairing (translate s (mkOptions "ja" "zh" x))).
    destruct (translate_cases s (mkOptions "ja" "zh" x))
      as [Hs|Hs Hb|v Hs Hb Hv Ht|q Hs Hb Hm Hq|Hs Hb Hm Hq]; simpl in *; try congruence.
    + vm_compute in Hs. discriminate.
    + rewrite Hv in Hmiss. simpl in Hmiss. congruence.
  - intros f outcome Hf Hsettled. unfold resume.
    destruct (list_find (λ f0, promise f0 = promise f) (awaiting s)) as [[i f']|] eqn:Hfind.
    + apply list_find_elem in Hfind as [Hf' Hp'].
      assert (f' = f) as ->.
      { apply (NoDup_fmap_inj promise (awaiting s)); auto using inv_frames_nodup. }
      rewrite Hsettled. eexists. split; [reflexivity|]. simpl.
      apply lookup_delete_eq.
    + apply list_find_None in Hfind. rewrite Forall_forall in Hfind.
      by destruct (Hfind f Hf).
Qed.

(** The theorem after two concurrent calls for the same text: the second
    call got the promise of the first, and nothing was queued for it. *)
Lemma pending_request_unique_shared_removed_witness :
  ∃ s, run Service.new [Translate (mkOptions "ja" "zh" "a");
                        Translate (mkOptions "ja" "zh" "b")] = Some s ∧
       translate s (mkOptions "ja" "zh" "a") = (Awaits 0, s) ∧
       length (jobs s) = 2.
Proof.
  eexists. split; [vm_compute; reflexivity|]. split; [|vm_compute; reflexivity].
  refine (proj1 (proj2 (proj2 (proj2
            (pending_request_unique_shared_removed
               [Translate (mkOptions "ja" "zh" "a");
                Translate (mkOptions "ja" "zh" "b")] _ _)))) "a" 0 _);
    vm_compute; reflexivity.
Defined.

(** C6.  Let [translate] be called in any reachable state for the
    supported pair.  If the call returns a value at once, calling again
    returns the same value.  If the call waits for promise [p], then right
    after [p] was fulfilled with [v] and the frame that created [p] has
    resumed, a second call for the same text returns [v]: the result cache
    holds [v] under the key, and the second call queues nothing, starts no
    worker, creates no promise and issues no [fetch]. *)
Theorem translate_twice_served_from_cache ls s x :
  run Service.new ls = Some s →
  let o := mkOptions "ja" "zh" x in
  (∀ v, (translate s o).1 = Returns v →
        (translate (translate s o).2 o).1 = Returns v ∧
        fetches (translate (translate s o).2 o).2 = fetches s ∧
        jobs (translate (translate s o).2 o).2 = jobs s) ∧
  (∀ p ls' s2 s3 v,
        (translate s o).1 = Awaits p →
        run (translate s o).2 ls' = Some s2 →
        promises s2 !! p = Some (Some (Fulfilled v)) →
        resume s2 p = Some s3 →
        LRU.cache (resultCache s3) !! keyOf o = Some v ∧
        (translate s3 o).1 = Returns v ∧
        fetches (translate s3 o).2 = fetches s3 ∧
        jobs (translate s3 o).2 = jobs s3 ∧
        promises (translate s3 o).2 = promises s3).
Proof.
  intros Hrun o. pose proof (run_Inv _ _ _ Inv_new Hrun) as HI.
  assert (∀ s0 v, LRU.cache (resultCache s0) !! keyOf o = Some v →
                  JS.truthy v = true → JS.allWhiteSpace x = false →
                  translate s0 o
                  = (Returns v, withCache s0 (LRU.get (resultCache s0) "ja" "zh" x).2))
    as Hhit.
  { intros s0 v Hv Ht Hb. rewrite (surjective_pairing (translate s0 o)).
    destruct (translate_cases s0 o) as [Hs|Hs Hb'|v' Hs Hb' Hv' Ht'|q Hs Hb' Hm Hq|Hs Hb' Hm Hq];
      simpl in *; try congruence.
    - vm_compute in Hs. discriminate.
    - rewrite Hv in Hm. simpl in Hm. congruence.
    - rewrite Hv in Hm. simpl in Hm. congruence. }
  split.
  - intros v. destruct (translate_cases s o)
      as [Hs|Hs Hb|v' Hs Hb Hv Ht|q Hs Hb Hm Hq|Hs Hb Hm Hq]; try done.
    + intros [= <-]. unfold o. by rewrite translate_blank.
    + intros [= <-]. rewrite (Hhit _ v'); [done|simpl|done|done].
      by rewrite get_cache.
  - intros p ls' s2 s3 v Hcall Hrun' Hfulfilled Hresume.
    pose proof (translate_Inv s o HI) as HI1.
    pose proof (run_Inv _ _ _ HI1 Hrun') as HI2.
    (* the frame waiting for [p] after the first call is the frame of [o] *)
    assert (∃ f, f ∈ awaiting (translate s o).2 ∧ promise f = p ∧ options f = o)
      as (f & Hf & Hpf & Hof).
    { assert (promiseCache (translate s o).2 !! keyOf o = Some p) as Hentry.
      { revert Hcall. destruct (translate_cases s o)
          as [Hs|Hs Hb|v' Hs Hb Hv Ht|q Hs Hb Hm Hq|Hs Hb Hm Hq]; try done.
        - by intros [= <-].
        - intros [= <-].
          destruct (startProcessingQueue_same (enqueue s o (keyOf o))) as [_ -> _ _ _].
          simpl. apply lookup_insert_eq. }
      destruct (inv_entry _ HI1 _ _ Hentry) as (f & Hf & Hpf & Hk).
      exists f. repeat split; try done.
      destruct (inv_frame _ HI1 f Hf) as (Hsup & _).
      by apply keyOf_inj. }
    destruct (inv_frame _ HI1 f Hf) as (_ & Hblank & _ & Hlt & _).
    rewrite Hof in Hblank. simpl in Hblank.
    (* and it is still that frame when [p] resumes *)
    unfold resume in Hresume.
    destruct (list_find _ (awaiting s2)) as [[i f']|] eqn:Hfind; [|done].
    apply list_find_elem in Hfind as [Hf' Hp'].
    rewrite Hfulfilled in Hresume. injection Hresume as <-.
    assert (f' = f) as ->.
    { destruct (run_frames _ _ _ Hrun') as [_ Hold].
      destruct (Hold f' Hf') as [Hin|Hge]; [|lia].
      apply (NoDup_fmap_inj promise (awaiting (translate s o).2));
        auto using inv_frames_nodup. congruence. }
    rewrite Hof. simpl.
    pose proof (inv_values _ HI2 _ _ Hfulfilled) as Htruthy.
    split; [apply set_lookup|].
    rewrite (Hhit _ v); [|simpl; apply set_lookup|done|done].
    simpl. auto.
Qed.

(** The theorem on a fresh service: the text "a" is translated to "A", the
    frame resumes, and the second call is answered from the cache. *)
Lemma translate_twice_served_from_cache_witness :
  ∃ s3, run Service.new
          [Translate (mkOptions "ja" "zh" "a");
           AttemptDone 0 (ResponseOk (JArr [JArr [JArr [JStr "A"]]]));
           Resume 0] = Some s3 ∧
        (translate s3 (mkOptions "ja" "zh" "a")).1 = Returns "A" ∧
        fetches (translate s3 (mkOptions "ja" "zh" "a")).2 = fetches s3.
Proof.
  edestruct (proj2 (translate_twice_served_from_cache [] Service.new "a" eq_refl)
               0 [AttemptDone 0 (ResponseOk (JArr [JArr [JArr [JStr "A"]]]))])
    as (Hc & Hr & Hf & _); [vm_compute; reflexivity..|].
  eexists. split; [|split; [exact Hr|exact Hf]].
  vm_compute; reflexivity.
Defined.

(** C10.  If the result cache holds the empty string under the key of a
    text, [get] returns the empty string and leaves the cache, the order
    of its keys included, as it was; and [translate] for that text (not
    blank, supported pair) does not return the cached value but goes the
    way of a miss: it joins the request in flight for the key if there is
    one, and otherwise creates a promise and puts a new request for the
    key on the queue or with a worker. *)
Theorem empty_cached_value_is_a_miss s x :
  let o := mkOptions "ja" "zh" x in
  LRU.cache (resultCache s) !! keyOf o = Some "" →
  LRU.get (resultCache s) "ja" "zh" x = (Some "", resultCache s) ∧
  (JS.allWhiteSpace x = false →
     match promiseCache s !! keyOf o with
     | Some p => translate s o = (Awaits p, s)
     | None =>
         translate s o = (Awaits (length (promises s)),
                          startProcessingQueue (enqueue s o (keyOf o))) ∧
         mkItem o (length (promises s)) ∈ jobs (translate s o).2 ∧
         length (jobs (translate s o).2) = S (length (jobs s)) ∧
         promiseCache (translate s o).2 !! keyOf o = Some (length (promises s))
     end).
Proof.
  intros o Hempty. split.
  { unfold LRU.get. change (LRU.getKey "ja" "zh" x) with (keyOf o). by rewrite Hempty. }
  intros Hblank.
  assert (translate s o
          = match promiseCache s !! keyOf o with
            | Some p => (Awaits p, s)
            | None => (Awaits (length (promises s)),
                       startProcessingQueue (enqueue s o (keyOf o)))
            end) as Htr.
  { rewrite (surjective_pairing (translate s o)).
    destruct (translate_cases s o)
      as [Hs|Hs Hb|v Hs Hb Hv Ht|q Hs Hb Hm Hq|Hs Hb Hm Hq]; simpl in *; try congruence.
    - vm_compute in Hs. discriminate.
    - rewrite Hempty in Hv. injection Hv as <-. discriminate.
    - by rewrite Hq.
    - by rewrite Hq. }
  destruct (promiseCache s !! keyOf o) as [p|] eqn:Hp; [done|].
  rewrite Htr. simpl. split; [done|].
  destruct (startProcessingQueue_same (enqueue s o (keyOf o))) as [_ Hpc _ _ Hjobs].
  split; [|split].
  - rewrite Hjobs. unfold jobs. simpl. rewrite !elem_of_app. left. right.
    by apply list_elem_of_singleton.
  - rewrite Hjobs. unfold jobs. simpl. rewrite !length_app. simpl. lia.
  - rewrite Hpc. simpl. apply lookup_insert_eq.
Qed.

(** The theorem on a service whose cache was given an empty translation of
    "a": the call creates promise 0 and a request for "a". *)
Lemma empty_cached_value_is_a_miss_witness :
  let s := withCache Service.new (LRU.set (LRU.new 1000) "ja" "zh" "a" "") in
  LRU.get (resultCache s) "ja" "zh" "a" = (Some "", resultCache s) ∧
  (translate s (mkOptions "ja" "zh" "a")).1 = Awaits 0 ∧
  mkItem (mkOptions "ja" "zh" "a") 0 ∈ jobs (translate s (mkOptions "ja" "zh" "a")).2.
Proof.
  intros s.
  destruct (empty_cached_value_is_a_miss s "a") as [Hget Htr]; [vm_compute; reflexivity|].
  specialize (Htr eq_refl).
  change (promiseCache s !! keyOf (mkOptions "ja" "zh" "a")) with (@None nat) in Htr.
  destruct Htr as (Hcall & Hjob & _). split; [exact Hget|].
  split; [by rewrite Hcall|exact Hjob].
Defined.

(** *** Cached translations *)

Lemma translate_cache s o :
  LRU.cache (resultCache (translate s o).2) = LRU.cache (resultCache s).
Proof.
  destruct (translate_cases s o)
    as [Hs|Hs Hb|v Hs Hb Hv Ht|q Hs Hb Hm Hq|Hs Hb Hm Hq]; simpl; try done.
  - apply get_cache.
  - by rewrite (same_cache _ _ (startProcessingQueue_same _)).
Qed.

Lemma settle_cache s p outcome : resultCache (settle s p outcome) = resultCache s.
Proof. unfold settle. by rewrite (same_cache _ _ (processQueueIterative_same _)). Qed.

Lemma settle_promises s p outcome :
  promises (settle s p outcome) = <[p := Some outcome]> (promises s).
Proof. unfold settle. by rewrite (same_promises _ _ (processQueueIterative_same _)). Qed.

Lemma attemptDone_cache s p outcome s' :
  attemptDone s p outcome = Some s' → resultCache s' = resultCache s.
Proof.
  unfold attemptDone. destruct (list_find _ _) as [[i w]|]; [|done].
  destruct (translateWithGoogleAPI _ _) as [v|e].
  - intros [= <-]. apply settle_cache.
  - destruct (Nat.leb _ _); intros [= <-]; [done|apply settle_cache].
Qed.

Lemma cached_values_step s l s' :
  Inv s →
  (∀ k v, LRU.cache (resultCache s) !! k = Some v → JS.truthy v = true) →
  step s l = Some s' →
  ∀ k v, LRU.cache (resultCache s') !! k = Some v → JS.truthy v = true.
Proof.
  intros HI Hc. destruct l as [o|p outcome|p| |n]; simpl.
  - intros [= <-] k v. rewrite translate_cache. apply Hc.
  - intros Hsame%attemptDone_cache. by rewrite Hsame.
  - unfold resume. destruct (list_find _ _) as [[i f]|]; [|done].
    destruct (promises s !! p) as [[outcome|]|] eqn:Hp; try done.
    intros [= <-] k v. simpl. destruct outcome as [t|e]; [|apply Hc].
    destruct (decide (k = LRU.getKey (sourceLanguage (options f))
                             (targetLanguage (options f)) (text (options f))))
      as [->|Hne].
    + rewrite set_lookup. intros [= <-]. by eapply (inv_values s HI).
    + destruct (set_lookup_ne (resultCache s) (sourceLanguage (options f))
                  (targetLanguage (options f)) (text (options f)) t k Hne)
        as [-> | ->]; [apply Hc|done].
  - intros [= <-] k v. simpl. by rewrite lookup_empty.
  - intros [= <-] k v. unfold setMaxConcurrent.
    rewrite (same_cache _ _ (startProcessingQueue_same _)). simpl. apply Hc.
Qed.

(** In every state the service can reach, every cached translation is a
    non-empty string: the cache is only written with the value of a
    fulfilled promise, and a remote answer without a translation is
    replaced by the original text, which is not blank.  Every hit of
    [get] therefore promotes its entry. *)
Theorem cached_translations_are_nonempty ls s k v :
  run Service.new ls = Some s →
  LRU.cache (resultCache s) !! k = Some v →
  JS.truthy v = true ∧
  ∀ x, k = LRU.getKey "ja" "zh" x →
       LRU.keys (LRU.get (resultCache s) "ja" "zh" x).2
       = k :: LRU.without k (LRU.keys (resultCache s)).
Proof.
  intros Hrun Hk.
  assert (∀ ls s0 s1, Inv s0 →
            (∀ k v, LRU.cache (resultCache s0) !! k = Some v → JS.truthy v = true) →
            run s0 ls = Some s1 →
            ∀ k v, LRU.cache (resultCache s1) !! k = Some v → JS.truthy v = true) as Hall.
  { clear. induction ls as [|l ls IH]; intros s0 s1 HI Hc; simpl.
    - by intros [= <-].
    - destruct (step s0 l) as [s2|] eqn:Hstep; [|done].
      apply IH; [by eapply step_Inv|by eapply cached_values_step]. }
  assert (JS.truthy v = true) as Hv.
  { eapply (Hall ls Service.new s); eauto using Inv_new.
    intros k' v'. simpl. by rewrite lookup_empty. }
  split; [done|]. intros x ->. unfold LRU.get. rewrite Hk.
  destruct v; [done|reflexivity].
Qed.

(** The theorem after "a" was translated to "A". *)
Lemma cached_translations_are_nonempty_witness :
  ∃ s, run Service.new [Translate (mkOptions "ja" "zh" "a");
                        AttemptDone 0 (answer "A"); Resume 0] = Some s ∧
       LRU.cache (resultCache s) !! "ja_zh_a" = Some "A" ∧
       JS.truthy "A" = true.
Proof.
  destruct (run Service.new [Translate (mkOptions "ja" "zh" "a");
                             AttemptDone 0 (answer "A"); Resume 0]) as [s|] eqn:Hrun.
  - assert (LRU.cache (resultCache s) !! "ja_zh_a" = Some "A") as Hk.
    { revert Hrun. vm_compute. by intros [= <-]. }
    exists s. split; [reflexivity|]. split; [exact Hk|].
    exact (proj1 (cached_translations_are_nonempty _ s _ _ Hrun Hk)).
  - exfalso. revert Hrun. vm_compute. discriminate.
Defined.

(** *** Retries *)

Lemma list_find_update (ws : list Worker) p i w w' :
  list_find (λ w, promise (task w) = p) ws = Some (i, w) →
  promise (task w') = p →
  list_find (λ w, promise (task w) = p)
    ((λ x, if bool_decide (promise (task x) = p) then w' else x) <$> ws) = Some (i, w').
Proof.
  intros (Hi & Hp & Hbefore)%list_find_Some Hp'. apply list_find_Some.
  split; [|split; [done|]].
  - rewrite list_lookup_fmap, Hi. simpl. by rewrite bool_decide_eq_true_2.
  - intros j y. rewrite list_lookup_fmap.
    destruct (ws !! j) as [y0|] eqn:Hj; [|done]. simpl. intros [= <-] Hlt.
    pose proof (Hbefore j y0 Hj Hlt) as Hno. by rewrite bool_decide_eq_false_2.
Qed.

(** A worker whose attempt fails tries again while it has failed at most
    three times. *)
Lemma attemptDone_retry s p i w outcome e :
  list_find (λ w, promise (task w) = p) (workers s) = Some (i, w) →
  translateWithGoogleAPI (options (task w)) outcome = Rejected e →
  attempts w < 3 →
  ∃ s', attemptDone s p outcome = Some s' ∧
        promises s' = promises s ∧
        list_find (λ w, promise (task w) = p) (workers s')
        = Some (i, {| task := task w; attempts := S (attempts w); lastError := Some e |}).
Proof.
  intros Hfind Hapi Hlt. unfold attemptDone. rewrite Hfind, Hapi.
  replace (Nat.leb (S (attempts w)) maxAttempts) with true
    by (symmetry; apply Nat.leb_le; unfold maxAttempts; lia).
  eexists. split; [reflexivity|]. split; [done|]. simpl.
  apply (list_find_update _ _ _ w); [done|]. simpl.
  by apply list_find_elem in Hfind as [_ ?].
Qed.

(** Retry exhaustion.  A request that has a worker and whose remote call
    fails on every attempt is rejected when its fourth attempt fails, and
    is still pending after each of the first three failures. *)
Theorem request_rejected_after_four_failures (outcomes : list FetchOutcome) :
  ∀ s p i w,
  Inv s →
  list_find (λ w, promise (task w) = p) (workers s) = Some (i, w) →
  Forall (λ outcome, ∃ e, translateWithGoogleAPI (options (task w)) outcome = Rejected e)
         outcomes →
  outcomes ≠ [] →
  length outcomes + attempts w = 4 →
  (∀ n, n < length outcomes →
        ∃ s', run s (AttemptDone p <$> take n outcomes) = Some s' ∧
              promises s' !! p = Some None) ∧
  ∃ s' e, run s (AttemptDone p <$> outcomes) = Some s' ∧
          promises s' !! p = Some (Some (Rejected (RetriesExhausted e))).
Proof.
  induction outcomes as [|outcome outcomes IH]; intros s p i w HI Hfind Hfail Hne Hlen;
    [done|].
  apply Forall_cons in Hfail as [[e Hapi] Hfail]. simpl in Hlen.
  pose proof (list_find_elem _ _ _ _ Hfind) as [Hw Hp].
  assert (promises s !! p = Some None) as Hpending.
  { rewrite <- Hp. apply (inv_job s HI). unfold jobs. apply elem_of_app. right.
    by apply list_elem_of_fmap_2. }
  destruct outcomes as [|outcome' outcomes].
  - (* the fourth failure *)
    split.
    + intros n Hn. simpl in Hn. assert (n = 0) as -> by lia. simpl. eauto.
    + exists (settle s p (Rejected (RetriesExhausted e))), e. split.
      * simpl. unfold attemptDone. rewrite Hfind, Hapi.
        replace (Nat.leb (S (attempts w)) maxAttempts) with false
          by (symmetry; apply Nat.leb_gt; unfold maxAttempts; simpl in Hlen; lia).
        done.
      * rewrite settle_promises.
        apply list_lookup_insert_eq. by apply lookup_lt_Some in Hpending.
  - (* an earlier failure *)
    destruct (attemptDone_retry s p i w outcome e Hfind Hapi) as (s1 & Hstep & Hprom & Hfind1);
      [simpl in Hlen; lia|].
    pose proof (attemptDone_Inv _ _ _ _ HI Hstep) as HI1.
    destruct (IH s1 p i _ HI1 Hfind1) as [Hbefore (s2 & e2 & Hrun & Hrej)];
      [done|done|simpl in *; lia|].
    split.
    + intros [|n] Hn; simpl; [eauto|].
      rewrite Hstep. apply Hbefore. simpl in *. lia.
    + exists s2, e2. split; [|done]. simpl. rewrite Hstep. exact Hrun.
Qed.

(** The theorem on a fresh service: the request for "a" is rejected when
    its fetch has failed four times. *)
Lemma request_rejected_after_four_failures_witness :
  ∃ s' e, run (translate Service.new (mkOptions "ja" "zh" "a")).2
              (AttemptDone 0 <$> replicate 4 Failed) = Some s' ∧
          promises s' !! 0 = Some (Some (Rejected (RetriesExhausted e))).
Proof.
  destruct (request_rejected_after_four_failures (replicate 4 Failed)
              (translate Service.new (mkOptions "ja" "zh" "a")).2 0 0
              {| task := mkItem (mkOptions "ja" "zh" "a") 0; attempts := 0;
                 lastError := None |}) as [_ H].
  - apply translate_Inv, Inv_new.
  - vm_compute. reflexivity.
  - repeat constructor; exists FetchFailed; vm_compute; reflexivity.
  - discriminate.
  - reflexivity.
  - exact H.
Defined.

(** *** The worker pool *)

Lemma filter_key_length {A} (g : A → nat) (l : list A) (x : A) :
  NoDup (g <$> l) → x ∈ l → S (length (filter (λ y, g y ≠ g x) l)) = length l.
Proof.
  induction l as [|a l IH]; simpl; [by intros _ ?%elem_of_nil|].
  intros [Hnotin Hnd]%NoDup_cons Hin. rewrite filter_cons.
  apply elem_of_cons in Hin as [->|Hin].
  - rewrite decide_False by (intros Hne; by apply Hne). f_equal.
    clear IH Hnd. induction l as [|b l IH]; [done|].
    rewrite filter_cons. apply not_elem_of_cons in Hnotin as [Hne Hnotin].
    rewrite decide_True by congruence. simpl. f_equal. by apply IH.
  - rewrite decide_True.
    + simpl. f_equal. by apply IH.
    + intros Heq. apply Hnotin. rewrite Heq. by apply list_elem_of_fmap_2.
Qed.

End ServiceFacts.

(** ** The batch coordinator *)

Section BatchFacts.

Import Service.

Local Open Scope Z_scope.

Lemma charCount_from (tasks : list Task) (a : Z) :
  foldl (λ sum t, sum + Z.of_nat (taskLength t)) a tasks = a + charCount tasks.
Proof.
  unfold charCount. revert a. induction tasks as [|t tasks IH]; intros a; simpl; [lia|].
  rewrite IH, (IH (0 + _)). lia.
Qed.

Lemma charCount_nonneg (tasks : list Task) : 0 ≤ charCount tasks.
Proof.
  induction tasks as [|t tasks IH]; [done|].
  unfold charCount in *. simpl. rewrite charCount_from. unfold charCount. lia.
Qed.

(** On the first thousand lengths the binary64 computation of
    [Math.floor(Math.sqrt(n) * 5)] is the integer square root of [25 n]. *)
Lemma floorSqrtTimes5_exact (n : nat) :
  (n < 1000)%nat → floorSqrtTimes5 n = Z.sqrt (25 * Z.of_nat n).
Proof.
  intros Hn.
  assert (forallb (λ k, Z.eqb (floorSqrtTimes5 k) (Z.sqrt (25 * Z.of_nat k)))
                  (seq 0 1000) = true) as Hall by (vm_compute; reflexivity).
  rewrite forallb_forall in Hall. apply Z.eqb_eq, Hall, in_seq. lia.
Qed.

Lemma dynamicBatchSize_bounds (n : nat) (tasks : list Task) :
  10 ≤ dynamicBatchSize n tasks ≤ 50.
Proof. unfold dynamicBatchSize, baseBatchSize. lia. Qed.

Lemma enterBatch_frame s sl tl f0 f s' :
  enterBatch s sl tl f0 = (BatchRunning f, s') →
  tasks f = tasks f0 ∧ batchSize f = batchSize f0.
Proof.
  unfold enterBatch. destruct (Nat.ltb _ _); [|done].
  destruct (submit _ _ _ _) as [ps s1]. by intros [= <- _].
Qed.

(** The first loop leaves the entries of the cache alone and makes a task
    of each text that has no non-empty cached translation. *)
Lemma collect_tasks sl tl c i texts results tasks c' results' tasks' :
  collect sl tl c i texts results tasks = (c', results', tasks') →
  LRU.cache c' = LRU.cache c ∧
  taskText <$> tasks' =
    ((taskText <$> tasks) ++
     filter (λ t, JS.truthy_opt (LRU.cache c !! LRU.getKey sl tl t) = false) texts)%list.
Proof.
  revert c i results tasks.
  induction texts as [|t texts IH]; intros c i results tasks; simpl.
  - intros [= <- _ <-]. by rewrite app_nil_r.
  - pose proof (get_cache c sl tl t) as Hc. pose proof (get_value c sl tl t) as Hv.
    destruct (LRU.get c sl tl t) as [v c1]. simpl in Hc, Hv. subst v.
    rewrite filter_cons.
    destruct (LRU.cache c !! LRU.getKey sl tl t) as [[|a v]|] eqn:Hlook; simpl;
      intros [Hc' ->]%IH; rewrite Hc' at 1; rewrite Hc; split; try done.
    all: by rewrite fmap_app, <- app_assoc.
Qed.

(** The batch size of [translateBatch] lies between 10 and 50.  It is
    the smaller of 50, of
    [Math.floor(Math.sqrt(texts.length) * 5)], where [texts] are all the
    input texts, the cached ones included (for fewer than 1000 texts this
    is the integer part of five times the square root of their number),
    and of [Math.floor(10000 / Math.max(1, average))], where [average] is
    the average length of the texts not yet cached; and it is raised
    to 10. *)
Theorem dynamicBatchSize_of_all_texts s (texts : list string) f s' :
  translateBatch s texts "ja" "zh" = (BatchRunning f, s') →
  10 ≤ Z.of_nat (batchSize f) ≤ 50 ∧
  Z.of_nat (batchSize f) =
    Z.max 10 (Z.min 50 (Z.min (floorSqrtTimes5 (length texts))
                              (charBudgetSize (tasks f)))) ∧
  ((length texts < 1000)%nat →
     floorSqrtTimes5 (length texts) = Z.sqrt (25 * Z.of_nat (length texts))) ∧
  taskText <$> tasks f =
    filter (λ t, JS.truthy_opt
                   (LRU.cache (resultCache s) !! LRU.getKey "ja" "zh" t) = false) texts.
Proof.
  unfold translateBatch. change (supported "ja" "zh") with true. simpl negb. cbv iota.
  destruct (collect _ _ _ _ _ _ _) as [[c results] tasks0] eqn:Hcollect.
  intros [Htasks Hsize]%enterBatch_frame. simpl in Htasks, Hsize.
  apply collect_tasks in Hcollect as [_ Htexts]. simpl in Htexts.
  pose proof (dynamicBatchSize_bounds (length texts) tasks0) as Hb.
  rewrite Hsize, Htasks, Z2Nat.id by lia.
  split; [done|]. split; [done|]. split; [apply floorSqrtTimes5_exact|done].
Qed.

(** C8 (the code at the failing input).  [translateBatch] of a hundred
    texts of which sixty-four are cached and thirty-six remain: the size
    is computed from the number of all the texts, [texts.length], and is
    50, so that the thirty-six calls are made at once; computed from the
    number of the tasks, as the comments in the code say, it is 30. *)
Theorem dynamicBatchSize_counts_cached_texts :
  ∃ s f s',
    run Service.new [Translate (mkOptions "ja" "zh" "x");
                     AttemptDone 0 (answer "X"); Resume 0] = Some s ∧
    translateBatch s hundredTexts "ja" "zh" = (BatchRunning f, s') ∧
    length hundredTexts = 100%nat ∧
    length (tasks f) = 36%nat ∧
    batchSize f = 50%nat ∧
    length (batchPromises f) = 36%nat ∧
    dynamicBatchSize (length (tasks f)) (tasks f) = 30.
Proof.
  assert (match run Service.new [Translate (mkOptions "ja" "zh" "x");
                                 AttemptDone 0 (answer "X"); Resume 0] with
          | Some s =>
              match translateBatch s hundredTexts "ja" "zh" with
              | (BatchRunning f, _) =>
                  Some (length (tasks f), batchSize f, length (batchPromises f),
                        dynamicBatchSize (length (tasks f)) (tasks f))
              | _ => None
              end
          | None => None
          end = Some (36%nat, 50%nat, 36%nat, 30)) as E
    by (vm_compute; reflexivity).
  destruct (run Service.new _) as [s|] eqn:Hrun; [|done].
  destruct (translateBatch s hundredTexts "ja" "zh") as [[f|r|e] s'] eqn:Hbatch;
    try done.
  injection E as E1 E2 E3 E4.
  exists s, f, s'. split; [reflexivity|]. split; [exact Hbatch|].
  split; [vm_compute; reflexivity|]. auto.
Qed.

(** C1 (the code at the failing input).  [translateBatch] of ten uncached
    texts of 2000 characters each, every remote call succeeding: the batch
    size is 10, the batch holds 20000 characters, so only its first five
    tasks are submitted; the loop then steps over the whole batch and the
    call returns with the slots 5 to 9 never filled. *)
Theorem translateBatch_leaves_slots_unfilled :
  ∃ results s,
    batchRun "ja" "zh" (translateBatch Service.new tenLongTexts "ja" "zh")
             firstWaveSucceeds = Some (BatchDone results, s) ∧
    results = (replicate 5 (Some "ok") ++ replicate 5 None)%list.
Proof.
  assert (match batchRun "ja" "zh" (translateBatch Service.new tenLongTexts "ja" "zh")
                         firstWaveSucceeds with
          | Some (BatchDone results, _) => Some results
          | _ => None
          end = Some (replicate 5 (Some "ok") ++ replicate 5 None)%list) as E
    by (vm_compute; reflexivity).
  destruct (batchRun _ _ _ _) as [[[f|results|e] s]|]; try done.
  injection E as ->. eauto.
Qed.

End BatchFacts.

(** ** The session controller *)

Section HookFacts.

Import Hook.

Local Arguments failedIn : simpl never.

Implicit Types (w : World) (ses : Session) (sid idx : nat).

(** C4 (the code at the failing input).  Session 0 is cancelled while its
    remote call is in flight and session 1 is started before the call
    returns.  The translation of session 0 is then written into its
    record, counted in the progress (which reads 1 of 1 while session 1 has
    completed nothing), and the completion callback is invoked for
    session 0. *)
Theorem cancelled_session_resumes_after_restart :
  ∃ w, run (mount twoLines) cancelThenRestart = Some w ∧
       onTranslated w = [(0, [line 1 "A"])] ∧
       progressRef w = {| completed := 1; total := 1 |} ∧
       translationProgress w = {| completed := 1; total := 1 |} ∧
       textAt (lines w) 0 = "A" ∧
       (returned <$> sessions w) = [true; false].
Proof.
  assert (match run (mount twoLines) cancelThenRestart with
          | Some w => Some (onTranslated w, progressRef w, translationProgress w,
                            textAt (lines w) 0, returned <$> sessions w)
          | None => None
          end = Some ([(0, [line 1 "A"])], {| completed := 1; total := 1 |},
                      {| completed := 1; total := 1 |}, "A", [true; false])) as E
    by (vm_compute; reflexivity).
  destruct (run _ _) as [w|]; [|done].
  injection E as E1 E2 E3 E4 E5. eauto 10.
Qed.

(** *** After a cancellation *)

Lemma cancelled_step w l w' :
  isCancelledRef w = true → quiet l = true → step w l = Some w' →
  isCancelledRef w' = true ∧
  translationProgress w' = translationProgress w ∧
  progressRef w' = progressRef w ∧
  onTranslated w' = onTranslated w ∧
  isTranslating w' = isTranslating w ∧
  translationCacheRef w' = translationCacheRef w.
Proof.
  intros Hflag Hquiet. destruct l as [l'|? ?| |sid idx|sid]; try done; simpl.
  - destruct (Service.step (service w) l') as [svc|]; [|done]. by intros [= <-].
  - destruct (sessions w !! sid) as [ses|]; [|done].
    destruct (list_find _ (pending ses)) as [[j it]|]; [|done].
    destruct (Service.observed _ _) as [[v|e]|]; [| |done]; intros [= <-]; simpl.
    + by rewrite Hflag.
    + done.
  - destruct (sessions w !! sid) as [ses|]; [|done].
    destruct (returned ses); [done|]. destruct (pending ses); [|done].
    intros [= <-]. unfold enterWave. rewrite Hflag. simpl negb. rewrite andb_false_r.
    done.
Qed.

(** After [cancelTranslation], as long as [translateSubtitles] is not
    called again: the progress reads 0 of 0, the callback is not invoked,
    and a translation arriving late is neither counted nor cached. *)
Lemma cancelled_session_stays_silent w ls w' :
  forallb quiet ls = true →
  run (cancelTranslation w) ls = Some w' →
  translationProgress w' = {| completed := 0; total := 0 |} ∧
  progressRef w' = {| completed := 0; total := 0 |} ∧
  onTranslated w' = onTranslated w ∧
  isTranslating w' = false ∧
  translationCacheRef w' = translationCacheRef w.
Proof.
  assert (∀ ls w1 w2, isCancelledRef w1 = true → forallb quiet ls = true →
            run w1 ls = Some w2 →
            isCancelledRef w2 = true ∧
            translationProgress w2 = translationProgress w1 ∧
            progressRef w2 = progressRef w1 ∧
            onTranslated w2 = onTranslated w1 ∧
            isTranslating w2 = isTranslating w1 ∧
            translationCacheRef w2 = translationCacheRef w1) as Hrun.
  { clear. induction ls as [|l ls IH]; intros w1 w2 Hflag; simpl.
    - intros _ [= <-]. done.
    - intros [Hq Hqs]%andb_true_iff. destruct (step w1 l) as [w|] eqn:Hstep; [|done].
      intros Hrest.
      destruct (cancelled_step _ _ _ Hflag Hq Hstep) as (F & A & B & C & D & E).
      destruct (IH _ _ F Hqs Hrest) as (F' & A' & B' & C' & D' & E').
      repeat split; congruence. }
  intros Hquiet Hcancel.
  destruct (Hrun ls (cancelTranslation w) w' eq_refl Hquiet Hcancel)
    as (_ & A & B & C & D & E).
  done.
Qed.

Lemma cancelled_session_stays_silent_witness :
  ∃ w', run (cancelTranslation (translateSubtitles (mount twoLines) [0] "zh")) lateAnswer
          = Some w' ∧
        translationProgress w' = {| completed := 0; total := 0 |} ∧
        onTranslated w' = [].
Proof.
  destruct (run (cancelTranslation (translateSubtitles (mount twoLines) [0] "zh"))
                lateAnswer) as [w'|] eqn:Hrun.
  - exists w'. split; [reflexivity|].
    destruct (cancelled_session_stays_silent _ lateAnswer w' eq_refl Hrun)
      as (A & _ & C & _). split; [exact A|].
    rewrite C. vm_compute. reflexivity.
  - exfalso. revert Hrun. vm_compute. discriminate.
Defined.

(** *** Subtitle objects *)

Lemma textAt_alter_ne (heap : gmap nat SubtitleLine) (ref ref' : nat) v :
  ref ≠ ref' → textAt (alter (setText v) ref heap) ref' = textAt heap ref'.
Proof. intros Hne. unfold textAt. by rewrite lookup_alter_ne. Qed.

Lemma textAt_alter_same (heap : gmap nat SubtitleLine) (ref : nat) v :
  textAt heap ref = v → textAt (alter (setText v) ref heap) ref = v.
Proof.
  unfold textAt. rewrite lookup_alter_eq.
  by destruct (heap !! ref).
Qed.

(** A write through [translatedSubtitles[index]] leaves the other objects
    alone. *)
Lemma writeText_other ses idx v (heap : gmap nat SubtitleLine) (ref : nat) :
  translatedSubtitles ses !! idx ≠ Some ref →
  textAt (writeText ses idx v heap) ref = textAt heap ref.
Proof.
  unfold writeText. destruct (translatedSubtitles ses !! idx) as [r|]; [|done].
  intros Hne. apply textAt_alter_ne. congruence.
Qed.

Lemma writeText_same ses idx v (heap : gmap nat SubtitleLine) (ref : nat) :
  translatedSubtitles ses !! idx = Some ref →
  textAt heap ref = v →
  textAt (writeText ses idx v heap) ref = v.
Proof.
  unfold writeText. intros ->. apply textAt_alter_same.
Qed.

(** *** One item starts *)

Lemma startItem_spec sid w ses idx x w' ses' :
  isCancelledRef w = false →
  startItem sid w ses idx x = (w', ses') →
  isCancelledRef w' = false ∧
  total (progressRef w') = total (progressRef w) ∧
  console w' = console w ∧ onTranslated w' = onTranslated w ∧
  sessions w' = sessions w ∧ isTranslating w' = isTranslating w ∧
  subtitles ses' = subtitles ses ∧
  translatedSubtitles ses' = translatedSubtitles ses ∧
  position ses' = position ses ∧ returned ses' = returned ses ∧
  ((∃ cached,
      pending ses' = pending ses ∧
      completed (progressRef w') = S (completed (progressRef w)) ∧
      translationProgress w' = progressRef w' ∧
      lines w' = writeText ses idx cached (lines w))
   ∨
   (∃ r,
      pending ses' = pending ses ++ [{| index := idx; itemText := x; awaited := r |}] ∧
      progressRef w' = progressRef w ∧
      translationProgress w' = translationProgress w ∧
      lines w' = lines w)).
Proof.
  intros Hflag. unfold startItem. rewrite Hflag.
  destruct (translationCacheRef w !! _) as [cached|].
  - intros [= <- <-]. simpl. repeat split; try done. left. by exists cached.
  - destruct (Service.translate _ _) as [r svc]. intros [= <- <-]. simpl.
    repeat split; try done. right. by exists r.
Qed.

Lemma writeText_index ses i v (heap : gmap nat SubtitleLine) idx (ref : nat) :
  NoDup (translatedSubtitles ses) →
  translatedSubtitles ses !! idx = Some ref → idx ≠ i →
  textAt (writeText ses i v heap) ref = textAt heap ref.
Proof.
  intros Hnd Hidx Hne. apply writeText_other. intros Hi.
  apply Hne. by eapply NoDup_lookup.
Qed.

(** *** A wave starts *)

Lemma startItems_spec sid (batch : list nat) : ∀ w ses i0 w' ses',
  isCancelledRef w = false →
  translationProgress w = progressRef w →
  startItems sid w ses i0 batch = (w', ses') →
  isCancelledRef w' = false ∧
  translationProgress w' = progressRef w' ∧
  total (progressRef w') = total (progressRef w) ∧
  console w' = console w ∧ onTranslated w' = onTranslated w ∧
  sessions w' = sessions w ∧ isTranslating w' = isTranslating w ∧
  subtitles ses' = subtitles ses ∧
  translatedSubtitles ses' = translatedSubtitles ses ∧
  position ses' = position ses ∧ returned ses' = returned ses ∧
  ∃ new,
    pending ses' = pending ses ++ new ∧
    completed (progressRef w') + length new
      = completed (progressRef w) + length batch ∧
    (index <$> new) `sublist_of` seq i0 (length batch) ∧
    (NoDup (translatedSubtitles ses) →
     (∀ j ref, batch !! j = Some ref → translatedSubtitles ses !! (i0 + j) = Some ref) →
     (∀ idx ref, translatedSubtitles ses !! idx = Some ref →
        idx < i0 ∨ i0 + length batch ≤ idx ∨ idx ∈ index <$> new →
        textAt (lines w') ref = textAt (lines w) ref) ∧
     (∀ it ref, it ∈ new → translatedSubtitles ses !! index it = Some ref →
        itemText it = textAt (lines w) ref)).
Proof.
  induction batch as [|ref0 rest IH]; intros w ses i0 w' ses' Hflag Hshown; simpl.
  - intros [= <- <-]. repeat split; try done. exists []. rewrite app_nil_r.
    repeat split; try done. by intros it ref ?%elem_of_nil.
  - destruct (startItem sid w ses i0 (textAt (lines w) ref0)) as [w1 ses1] eqn:Hitem.
    intros Hrest.
    destruct (startItem_spec _ _ _ _ _ _ _ Hflag Hitem)
      as (F1 & T1 & C1 & O1 & S1 & I1 & A1 & B1 & P1 & R1 & Hcase).
    assert (translationProgress w1 = progressRef w1) as Hshown1.
    { destruct Hcase as [(cached & _ & _ & ? & _)|(r & _ & E1 & E2 & _)]; congruence. }
    destruct (IH _ _ _ _ _ F1 Hshown1 Hrest)
      as (F2 & H2 & T2 & C2 & O2 & S2 & I2 & A2 & B2 & P2 & R2 & new' & Hpend & Hcount
          & Hsub & Htext).
    repeat split; try congruence.
    assert (∀ idx, idx ∈ index <$> new' → S i0 ≤ idx) as Hlater.
    { intros idx Hidx. apply (elem_of_sublist _ _ _ Hidx) in Hsub.
      apply elem_of_seq in Hsub. lia. }
    destruct Hcase as [(cached & Ep & Ec & _ & El)|(r & Ep & Eprog & _ & El)].
    + (* the translation is in the hook's cache *)
      exists new'. split; [congruence|]. split; [lia|]. split; [by apply sublist_cons|].
      intros Hnd Halign. rewrite B1 in Htext.
      destruct Htext as [Hkeep Hitems]; [done| |].
      { intros j ref Hj. replace (S i0 + j) with (i0 + S j) by lia. by apply Halign. }
      assert (∀ idx ref, translatedSubtitles ses !! idx = Some ref → idx ≠ i0 →
                         textAt (lines w1) ref = textAt (lines w) ref) as Hw1.
      { intros idx ref Hidx Hne. rewrite El. by eapply writeText_index. }
      split.
      * intros idx ref Hidx Hwhere. transitivity (textAt (lines w1) ref).
        -- apply (Hkeep idx); [done|].
           destruct Hwhere as [?|[?|?]]; [left; lia|right; left; lia|by right; right].
        -- apply (Hw1 idx); [done|]. destruct Hwhere as [?|[?|Hin]]; [lia|lia|].
           apply Hlater in Hin. lia.
      * intros it ref Hit Hidx. rewrite (Hitems it ref Hit Hidx).
        apply (Hw1 (index it)); [done|].
        assert (S i0 ≤ index it); [|lia].
        apply Hlater. by apply list_elem_of_fmap_2.
    + (* the translation is requested from the service *)
      exists ({| index := i0; itemText := textAt (lines w) ref0; awaited := r |} :: new').
      split; [rewrite Hpend, Ep, <- app_assoc; done|].
      split; [simpl; rewrite Eprog in Hcount; lia|].
      split; [simpl; by apply sublist_skip|].
      intros Hnd Halign. rewrite B1 in Htext.
      destruct Htext as [Hkeep Hitems]; [done| |].
      { intros j ref Hj. replace (S i0 + j) with (i0 + S j) by lia. by apply Halign. }
      rewrite El in Hkeep, Hitems. split.
      * intros idx ref Hidx Hwhere. apply (Hkeep idx); [done|].
        destruct Hwhere as [?|[?|Hin]]; [left; lia|right; left; lia|].
        simpl in Hin. apply elem_of_cons in Hin as [->|Hin]; [left; lia|by right; right].
      * intros it ref [->|Hit]%elem_of_cons Hidx; [|by apply Hitems].
        simpl in *. specialize (Halign 0 ref0 eq_refl).
        rewrite Nat.add_0_r in Halign. congruence.
Qed.

(** *** Preservation of the session invariant *)

Lemma slice_lookup {A} (a b : nat) (l : list A) j x :
  JS.slice a b l !! j = Some x → l !! (a + j) = Some x.
Proof.
  unfold JS.slice. intros [Hd _]%lookup_take_Some. by rewrite lookup_drop in Hd.
Qed.

Lemma slice_length {A} (a k : nat) (l : list A) :
  a < length l → a + length (JS.slice a (a + k) l) = Nat.min (a + k) (length l).
Proof.
  intros Ha. unfold JS.slice. rewrite length_take, length_drop. lia.
Qed.

Lemma withSession_sessions w sid ses l :
  length l = sid →
  sessions w = l ∨ (∃ old, sessions w = l ++ [old]) →
  sessions (withSession w sid ses) = l ++ [ses].
Proof.
  intros Hlen [Hs|[old Hs]]; simpl; rewrite Hs.
  - rewrite (proj2 (Nat.ltb_ge sid (length l))) by lia. done.
  - rewrite length_app. simpl.
    rewrite (proj2 (Nat.ltb_lt sid (length l + 1))) by lia.
    rewrite insert_app_r_alt by lia. by rewrite Hlen, Nat.sub_diag.
Qed.

Lemma failedIn_cons_complete sid a b c d (log : list Diagnostic) :
  failedIn sid (TranslationComplete a b c d :: log) = failedIn sid log.
Proof. reflexivity. Qed.

Lemma translateSubtitles_nonempty w (subs : list nat) target :
  subs ≠ [] →
  translateSubtitles w subs target =
    enterWave (length (sessions w))
      {| service := service w; lines := lines w; isTranslating := true;
         translationProgress := {| completed := 0; total := length subs |};
         isCancelledRef := false;
         translationCacheRef := translationCacheRef w;
         activePromisesRef := [];
         progressRef := {| completed := 0; total := length subs |};
         sessions := sessions w; console := console w;
         onTranslated := onTranslated w |}
      {| subtitles := subs; targetLanguage := target; translatedSubtitles := subs;
         cacheHits := 0; cacheTotal := 0; position := 0; pending := [];
         returned := false |}.
Proof. by destruct subs. Qed.

Section OneSession.

Variables (w0 : World) (subs : list nat).

Let sid := length (sessions w0).
Let n := length subs.

(** The loop test and a new wave (or the end of the session) keep the
    invariant. *)
Lemma enterWave_Inv w ses :
  sessions w = sessions w0 ∨ (∃ old, sessions w = sessions w0 ++ [old]) →
  subtitles ses = subs → translatedSubtitles ses = subs →
  pending ses = [] → returned ses = false →
  isCancelledRef w = false →
  total (progressRef w) = n →
  translationProgress w = progressRef w →
  completed (progressRef w) + length (failedIn sid (console w))
    = Nat.min (position ses) n →
  isTranslating w = true → onTranslated w = onTranslated w0 →
  (∀ idx, idx ∈ failedIn sid (console w) → idx < Nat.min (position ses) n) →
  (NoDup subs → ∀ idx ref, subs !! idx = Some ref →
     Nat.min (position ses) n ≤ idx ∨ idx ∈ failedIn sid (console w) →
     textAt (lines w) ref = textAt (lines w0) ref) →
  Inv w0 subs (enterWave sid w ses).
Proof.
  subst sid n.
  intros Hsessions Hsubs Htrans Hpend Hret Hflag Htotal Hshown Hcount Hbusy Hcalls
         Hfailed Htext.
  unfold enterWave. rewrite Hflag, Hsubs. simpl negb. rewrite andb_true_r.
  destruct (Nat.ltb_spec (position ses) (length subs)) as [Hlt|Hge].
  - (* a wave starts *)
    destruct (startItems _ w ses (position ses) _) as [w' ses'] eqn:Hstart.
    destruct (startItems_spec _ _ _ _ _ _ _ Hflag Hshown Hstart)
      as (F & H & T & C & O & S & I & A & B & P & R & new & Hnew & Hcnt & Hsub & Htxt).
    rewrite Hpend in Hnew. simpl in Hnew.
    pose proof (slice_length (position ses) maxConcurrent subs Hlt) as Hlen.
    assert (∀ idx, idx ∈ index <$> new →
                   position ses ≤ idx
                   < Nat.min (position ses + maxConcurrent) (length subs)) as Hrange.
    { intros idx Hidx. apply (elem_of_sublist _ _ _ Hidx) in Hsub.
      apply elem_of_seq in Hsub. lia. }
    exists ses'. split.
    { apply withSession_sessions; [done|]. by rewrite S. }
    assert (dispatched subs ses'
            = Nat.min (position ses + maxConcurrent) (length subs)) as Hdisp.
    { unfold dispatched. by rewrite R, Hret, P. }
    split; simpl; rewrite ?Hdisp, ?Hnew; try congruence.
    + rewrite C. lia.
    + eapply sublist_NoDup; [apply (NoDup_seq (position ses))|exact Hsub].
    + intros it Hit. rewrite P. apply Hrange. by apply list_elem_of_fmap_2.
    + rewrite C. intros idx Hidx. specialize (Hfailed idx Hidx). split; [lia|].
      intros Hin%Hrange. lia.
    + intros _. split; congruence.
    + intros Hnd idx ref Hidx Hwhere. rewrite C in Hwhere.
      rewrite Htrans in Htxt. destruct Htxt as [Hkeep _]; [done|apply slice_lookup|].
      transitivity (textAt (lines w) ref).
      * apply (Hkeep idx); [done|].
        destruct Hwhere as [?|[?%Hfailed|?]]; [right; left; lia|left; lia|by right; right].
      * apply (Htext Hnd idx); [done|].
        destruct Hwhere as [?|[?|?%Hrange]]; [left; lia|by right|left; lia].
    + intros Hnd it ref Hit Hidx.
      rewrite Htrans in Htxt. destruct Htxt as [_ Hitems]; [done|apply slice_lookup|].
      rewrite (Hitems it ref Hit Hidx). apply (Htext Hnd (index it)); [done|].
      left. assert (index it ∈ index <$> new) as ?%Hrange by (by apply list_elem_of_fmap_2).
      lia.
  - (* the session ends and the callback is invoked *)
    eexists. split; [by apply withSession_sessions|].
    split; simpl; unfold dispatched; simpl;
      rewrite ?Hpend, ?failedIn_cons_complete; try done.
    + simpl. lia.
    + constructor.
    + by intros it ?%elem_of_nil.
    + intros idx Hidx. specialize (Hfailed idx Hidx). split; [lia|].
      by intros ?%elem_of_nil.
    + intros _. rewrite Hcalls, Htrans. done.
    + intros Hnd idx ref Hidx Hwhere. apply (Htext Hnd idx); [done|].
      destruct Hwhere as [?|[?|Hin]]; [left; lia|by right|].
      by apply elem_of_nil in Hin.
    + by intros _ it ref ?%elem_of_nil.
Qed.

Hypothesis Hidle : idle w0.
Hypothesis Hfresh : failedIn sid (console w0) = [].

(** The call of [translateSubtitles] establishes the invariant. *)
Lemma translateSubtitles_Inv target :
  subs ≠ [] → Inv w0 subs (translateSubtitles w0 subs target).
Proof.
  intros Hne. rewrite translateSubtitles_nonempty by done.
  apply enterWave_Inv; simpl; auto.
  - fold sid. rewrite Hfresh. simpl. lia.
  - fold sid. rewrite Hfresh. by intros idx ?%elem_of_nil.
Qed.

(** Only the session under way has frames that can resume. *)
Lemma session_lookup w ses sid' ses' :
  sessions w = sessions w0 ++ [ses] →
  sessions w !! sid' = Some ses' →
  (pending ses' = [] ∧ returned ses' = true) ∨ (sid' = sid ∧ ses' = ses).
Proof.
  intros -> [Hold|[Hge Hnew]]%lookup_app_Some.
  - left. unfold idle in Hidle. rewrite Forall_forall in Hidle.
    eapply Hidle. by eapply list_elem_of_lookup_2.
  - right. fold sid in Hge, Hnew. destruct (sid' - sid) as [|k] eqn:Hk; [|done].
    injection Hnew as <-. split; [lia|done].
Qed.

Lemma filter_index_length (l : list Item) (it : Item) :
  NoDup (index <$> l) → it ∈ l →
  S (length (filter (λ it', index it' ≠ index it) l)) = length l.
Proof.
  induction l as [|a l IH]; simpl; [by intros _ ?%elem_of_nil|].
  intros [Hnotin Hnd]%NoDup_cons Hin. rewrite filter_cons.
  apply elem_of_cons in Hin as [->|Hin].
  - rewrite decide_False by (intros Hne; by apply Hne). f_equal.
    clear IH Hnd. induction l as [|b l IH]; [done|].
    rewrite filter_cons. apply not_elem_of_cons in Hnotin as [Hne Hnotin].
    rewrite decide_True by congruence. simpl. f_equal. by apply IH.
  - rewrite decide_True.
    + simpl. f_equal. by apply IH.
    + intros Heq. apply Hnotin. rewrite Heq. by apply list_elem_of_fmap_2.
Qed.

Lemma failedIn_cons_failed idx e (c : list Diagnostic) :
  failedIn sid (TranslationFailed sid idx e :: c) = idx :: failedIn sid c.
Proof. unfold failedIn. simpl. by rewrite Nat.eqb_refl. Qed.

(** An item of the session resumes. *)
Lemma itemDone_Inv w ses it outcome :
  sessions w = sessions w0 ++ [ses] →
  SessionInv w0 subs w ses →
  it ∈ pending ses →
  Inv w0 subs (withSession (finishItem sid w ses it outcome) sid
                 (withoutItem ses (index it))).
Proof.
  intros Hsessions HI Hit.
  exists (withoutItem ses (index it)). split.
  { apply withSession_sessions; [done|]. right. exists ses.
    destruct outcome; simpl; [destruct (isCancelledRef w)|]; done. }
  destruct HI as [Hsubs Htrans Hflag Htotal Hshown Hcount Hnd Hbounds Hfailed
                  Hreturned Hrunning Htext Hitem].
  fold sid in Hcount, Hfailed, Htext.
  assert (returned ses = false) as Hret.
  { destruct (returned ses) eqn:Hr; [|done].
    destruct (Hreturned eq_refl) as [Hnil _]. rewrite Hnil in Hit.
    by apply elem_of_nil in Hit. }
  pose proof (filter_index_length _ _ Hnd Hit) as Hlen.
  assert (dispatched subs (withoutItem ses (index it)) = dispatched subs ses) as Hdisp
    by done.
  assert (∀ idx, idx ∈ index <$> pending (withoutItem ses (index it)) →
                 idx ≠ index it ∧ idx ∈ index <$> pending ses) as Hrest.
  { intros idx (it' & -> & [Hne Hin]%list_elem_of_filter)%list_elem_of_fmap.
    split; [done|by apply list_elem_of_fmap_2]. }
  assert (index it ∈ index <$> pending ses) as Hidx by (by apply list_elem_of_fmap_2).
  assert (∀ idx ref v, NoDup subs → subs !! idx = Some ref → idx ≠ index it →
            textAt (writeText ses (index it) v (lines w)) ref = textAt (lines w) ref)
    as Hother.
  { intros idx ref v Hnodup Href Hne. apply (writeText_index _ _ _ _ idx);
      [by rewrite Htrans|by rewrite Htrans|done]. }
  destruct outcome as [translated|e].
  - (* the translation arrived *)
    simpl. rewrite Hflag.
    split; simpl; fold sid; rewrite ?Hdisp; try done.
    + lia.
    + eapply sublist_NoDup; [exact Hnd|]. apply fmap_sublist, sublist_filter.
    + intros it' [_ Hin]%list_elem_of_filter. by apply Hbounds.
    + intros idx Hin. destruct (Hfailed idx Hin) as [? Hnot]. split; [done|].
      intros [_ ?]%Hrest. by apply Hnot.
    + by rewrite Hret.
    + intros Hnodup idx ref Href Hwhere.
      assert (idx ≠ index it) as Hne.
      { destruct Hwhere as [Hge|[Hin|Hin]].
        - destruct (Hbounds it Hit). lia.
        - destruct (Hfailed idx Hin) as [_ Hnot]. congruence.
        - by destruct (Hrest idx Hin). }
      rewrite (Hother idx) by done. apply (Htext Hnodup idx); [done|].
      destruct Hwhere as [?|[?|Hin]]; [by left|by right; left|].
      right; right. by destruct (Hrest idx Hin).
    + intros Hnodup it' ref [_ Hin]%list_elem_of_filter. by apply Hitem.
  - (* the translation failed: the original text is written back *)
    split; simpl; fold sid; rewrite ?Hdisp, ?failedIn_cons_failed; try done.
    + simpl. lia.
    + eapply sublist_NoDup; [exact Hnd|]. apply fmap_sublist, sublist_filter.
    + intros it' [_ Hin]%list_elem_of_filter. by apply Hbounds.
    + intros idx [->|Hin]%elem_of_cons.
      * split; [by destruct (Hbounds it Hit)|]. by intros [? _]%Hrest.
      * destruct (Hfailed idx Hin) as [? Hnot]. split; [done|].
        intros [_ ?]%Hrest. by apply Hnot.
    + by rewrite Hret.
    + intros Hnodup idx ref Href Hwhere.
      destruct (decide (idx = index it)) as [->|Hne].
      * rewrite <- (Hitem Hnodup it ref Hit Href).
        apply writeText_same; [by rewrite Htrans|].
        rewrite (Hitem Hnodup it ref Hit Href).
        apply (Htext Hnodup (index it)); [done|]. by right; right.
      * rewrite (Hother idx) by done. apply (Htext Hnodup idx); [done|].
        destruct Hwhere as [?|[[?|?]%elem_of_cons|Hin]];
          [by left|done|by right; left|].
        right; right. by destruct (Hrest idx Hin).
    + intros Hnodup it' ref [_ Hin]%list_elem_of_filter. by apply Hitem.
Qed.

(** Every transition other than a call of the hook keeps the invariant. *)
Lemma session_step_Inv w l w' :
  Inv w0 subs w → quiet l = true → step w l = Some w' → Inv w0 subs w'.
Proof.
  intros (ses & Hsessions & HI) Hquiet.
  destruct l as [l'|? ?| |sid' idx|sid']; try done; simpl.
  - (* the service moves *)
    destruct (Service.step (service w) l') as [svc|]; [|done]. intros [= <-].
    exists ses. split; [done|]. destruct HI. by split.
  - (* an item resumes *)
    destruct (sessions w !! sid') as [ses'|] eqn:Hlook; [|done].
    destruct (list_find _ (pending ses')) as [[j it]|] eqn:Hfind; [|done].
    apply list_find_elem in Hfind as [Hit <-].
    destruct (Service.observed _ _) as [outcome|]; [|done]. intros [= <-].
    destruct (session_lookup _ _ _ _ Hsessions Hlook) as [[Hnil _]|[-> ->]].
    + rewrite Hnil in Hit. by apply elem_of_nil in Hit.
    + by apply itemDone_Inv.
  - (* the wave is complete *)
    destruct (sessions w !! sid') as [ses'|] eqn:Hlook; [|done].
    destruct (returned ses') eqn:Hret; [done|].
    destruct (pending ses') eqn:Hpend; [|done]. intros [= <-].
    destruct (session_lookup _ _ _ _ Hsessions Hlook) as [[_ ?]|[-> ->]]; [congruence|].
    destruct HI as [Hsubs Htrans Hflag Htotal Hshown Hcount Hnd Hbounds Hfailed
                    Hreturned Hrunning Htext Hitem].
    unfold dispatched in *. rewrite Hret in *. rewrite Hpend in *. simpl in Hcount.
    destruct (Hrunning eq_refl) as [Hbusy Hcalls].
    apply enterWave_Inv; simpl; auto.
    + right. by exists ses.
    + fold sid in Hcount. lia.
    + intros idx Hidx. by destruct (Hfailed idx Hidx).
    + intros Hnodup idx ref Href Hwhere. apply (Htext Hnodup idx); [done|].
      destruct Hwhere; [by left|by right; left].
Qed.

Lemma session_run_Inv ls w w' :
  Inv w0 subs w → forallb quiet ls = true → run w ls = Some w' → Inv w0 subs w'.
Proof.
  revert w. induction ls as [|l ls IH]; intros w HI; simpl.
  - by intros _ [= <-].
  - intros [Hq Hqs]%andb_true_iff. destruct (step w l) as [w1|] eqn:Hstep; [|done].
    apply IH; [|done]. by eapply session_step_Inv.
Qed.

End OneSession.

Lemma failedIn_elem sid idx e (log : list Diagnostic) :
  TranslationFailed sid idx e ∈ log → idx ∈ failedIn sid log.
Proof.
  intros Hin. unfold failedIn. apply list_elem_of_omap.
  exists (TranslationFailed sid idx e). split; [done|]. simpl. by rewrite Nat.eqb_refl.
Qed.

(** C5.  A session is started on an idle hook with distinct subtitle
    objects, and runs under any interleaving of remote completions and
    resumptions (no cancellation, no other session).  In every state of
    the run, each record whose translation failed (the failure is on the
    console) holds the text it had when the session started.  The
    session is not aborted by a failure: while it has not returned it is
    still translating, every record handed out so far is completed, failed
    or pending, and the next wave can start as soon as nothing is pending;
    when it has returned, the callback was invoked with all the records,
    each of them completed or failed. *)
Theorem failed_record_keeps_source_text w0 (subs : list nat) target ls w :
  idle w0 →
  failedIn (length (sessions w0)) (console w0) = [] →
  NoDup subs → subs ≠ [] →
  forallb quiet ls = true →
  run (translateSubtitles w0 subs target) ls = Some w →
  let sid := length (sessions w0) in
  (∀ idx ref e, subs !! idx = Some ref →
       TranslationFailed sid idx e ∈ console w →
       textAt (lines w) ref = textAt (lines w0) ref) ∧
  ∃ ses, sessions w !! sid = Some ses ∧
    completed (progressRef w) + length (failedIn sid (console w)) + length (pending ses)
      = dispatched subs ses ∧
    (returned ses = false →
       isTranslating w = true ∧
       (pending ses = [] → is_Some (step w (WaveDone sid)))) ∧
    (returned ses = true →
       dispatched subs ses = length subs ∧ pending ses = [] ∧
       onTranslated w =
         onTranslated w0 ++ [(sid, omap (λ ref, lines w !! ref) subs)]).
Proof.
  intros Hidle Hfresh Hnd Hne Hquiet Hrun sid.
  pose proof (session_run_Inv w0 subs Hidle ls _ w
                (translateSubtitles_Inv w0 subs Hfresh target Hne) Hquiet Hrun)
    as (ses & Hsessions & HI).
  split.
  - intros idx ref e Href Hfailed. apply (si_text _ _ _ _ HI Hnd idx); [done|].
    right; left. by eapply failedIn_elem.
  - assert (sessions w !! sid = Some ses) as Hlook.
    { rewrite Hsessions. by rewrite lookup_app_r, Nat.sub_diag. }
    exists ses. split; [done|]. split; [apply (si_count _ _ _ _ HI)|]. split.
    + intros Hret. destruct (si_running _ _ _ _ HI Hret) as [Hbusy _].
      split; [done|]. intros Hpend. simpl. rewrite Hlook, Hret, Hpend. eauto.
    + intros Hret. destruct (si_returned _ _ _ _ HI Hret) as (? & _ & ?).
      unfold dispatched. by rewrite Hret.
Qed.

(** The theorem on two records: the four remote calls for the first
    record fail, the second record is translated, and the session returns
    with the first record unchanged. *)
Lemma failed_record_keeps_source_text_witness :
  ∃ w, run (translateSubtitles (mount twoLines) [0; 1] "zh") firstRecordFails = Some w ∧
       (∀ idx ref e, [0; 1] !! idx = Some ref →
            TranslationFailed 0 idx e ∈ console w →
            textAt (lines w) ref = textAt (lines (mount twoLines)) ref) ∧
       failedIn 0 (console w) = [0] ∧
       onTranslated w = [(0, [line 1 "a"; line 2 "B"])].
Proof.
  assert (match run (translateSubtitles (mount twoLines) [0; 1] "zh") firstRecordFails with
          | Some w => Some (failedIn 0 (console w), onTranslated w)
          | None => None
          end = Some ([0], [(0, [line 1 "a"; line 2 "B"])])) as E
    by (vm_compute; reflexivity).
  destruct (run _ firstRecordFails) as [w|] eqn:Hrun; [|discriminate E].
  injection E as E1 E2. exists w. split; [reflexivity|].
  split; [|split; [exact E1|exact E2]].
  refine (proj1 (failed_record_keeps_source_text (mount twoLines) [0; 1] "zh"
                   firstRecordFails w _ _ _ _ _ Hrun)).
  - constructor.
  - reflexivity.
  - apply NoDup_cons. split; [|apply NoDup_singleton].
    intros H%list_elem_of_singleton. discriminate H.
  - discriminate.
  - reflexivity.
Defined.



End HookFacts.

(** ** More about the result cache *)

Section LRUMore.

Import LRU.

(** Write, then read.  In a cache of capacity [M >= 1], after any
    operations: a [get] that follows a [set] of the same key returns the
    value just written and leaves the cache as the [set] left it; the
    cache stays within its capacity; a [set] that overwrites an entry, or
    that adds one below the capacity, loses no other entry. *)
Theorem set_then_get M ops h c s t x v :
  0 < M →
  run (new M) [] ops = (h, c) →
  let key := getKey s t x in
  let c' := set c s t x v in
  get c' s t x = (Some v, c') ∧
  size c' ≤ M ∧
  (is_Some (cache c !! key) →
     size c' = size c ∧ ∀ k, k ≠ key → cache c' !! k = cache c !! k) ∧
  (cache c !! key = None → size c < M →
     size c' = S (size c) ∧ ∀ k, k ≠ key → cache c' !! k = cache c !! k).
Proof.
  intros HM Hrun key c'.
  destruct (run_consistent _ _ _ _ _ (new_consistent _ M) HM Hrun) as [Hc HMc].
  simpl in HMc.
  destruct (set_consistent h c s t x v Hc ltac:(lia)) as [Hc' HMc'].
  fold c' in Hc', HMc'. fold key in Hc'.
  assert (cache c' !! key = Some v) as Hlook by apply set_lookup.
  assert (∃ ks, keys c' = key :: ks) as [ks Hks] by (unfold c', set; simpl; eauto).
  split; [|split; [|split]].
  - unfold get. fold key. rewrite Hlook.
    destruct (JS.truthy_opt (Some v)); [|done]. f_equal.
    pose proof (cons_nodup _ _ _ Hc') as Hnd. rewrite Hks in Hnd.
    apply NoDup_cons in Hnd as [Hnotin _].
    destruct c' as [m M' ks']. simpl in *. subst ks'. f_equal.
    unfold without. rewrite filter_cons, decide_False by (intros Hne; by apply Hne).
    f_equal. by apply without_id.
  - pose proof (cons_size _ _ _ Hc'). unfold size. lia.
  - intros Hsome. unfold c', set. fold key.
    rewrite bool_decide_eq_true_2 by done. unfold size. simpl. split.
    + by rewrite map_size_insert_Some.
    + intros k Hk. by rewrite lookup_insert_ne.
  - intros Hnone Hroom. unfold c', set. fold key.
    rewrite bool_decide_eq_false_2 by (rewrite Hnone; by intros [? ?]).
    unfold size in Hroom.
    replace (Nat.leb (maxSize c) (base.size (cache c))) with false
      by (symmetry; apply Nat.leb_gt; lia).
    unfold size. simpl. split.
    + by rewrite map_size_insert_None.
    + intros k Hk. by rewrite lookup_insert_ne.
Qed.

(** The theorem on a cache of capacity 2 holding "a" and "b": "a" is
    overwritten and read back. *)
Lemma set_then_get_witness :
  let c := (run (new 2) [] [OpSet "ja" "zh" "a" "A"; OpSet "ja" "zh" "b" "B"]).2 in
  (get (set c "ja" "zh" "a" "A2") "ja" "zh" "a").1 = Some "A2" ∧
  size (set c "ja" "zh" "a" "A2") = 2 ∧
  cache (set c "ja" "zh" "a" "A2") !! getKey "ja" "zh" "b" = Some "B".
Proof.
  intros c.
  destruct (set_then_get 2 [OpSet "ja" "zh" "a" "A"; OpSet "ja" "zh" "b" "B"]
              (run (new 2) [] [OpSet "ja" "zh" "a" "A"; OpSet "ja" "zh" "b" "B"]).1 c
              "ja" "zh" "a" "A2") as (Hget & _ & Hover & _).
  - lia.
  - reflexivity.
  - destruct Hover as [Hsize Hkeep]; [vm_compute; eauto|].
    split; [by rewrite Hget|]. split; [rewrite Hsize; vm_compute; reflexivity|].
    rewrite Hkeep by (vm_compute; discriminate). vm_compute. reflexivity.
Defined.

End LRUMore.

(** ** More about the scheduler *)

Section ServiceMore.

Import Service.

Implicit Types (s : TranslationService) (o : TranslationOptions).

(** *** The cache statistics *)

Lemma translate_resultCache s o :
  resultCache (translate s o).2 = resultCache s
  ∨ resultCache (translate s o).2
    = (LRU.get (resultCache s) (sourceLanguage o) (targetLanguage o) (text o)).2.
Proof.
  destruct (translate_cases s o)
    as [Hs|Hs Hb|v Hs Hb Hv Ht|q Hs Hb Hm Hq|Hs Hb Hm Hq]; simpl; auto.
  left. by rewrite (same_cache _ _ (startProcessingQueue_same _)).
Qed.

Lemma cache_consistent_step s l s' :
  (∃ h, LRU.consistent LRU.accessedByHit h (resultCache s)) →
  LRU.maxSize (resultCache s) = 1000 →
  step s l = Some s' →
  (∃ h, LRU.consistent LRU.accessedByHit h (resultCache s'))
  ∧ LRU.maxSize (resultCache s') = 1000.
Proof.
  intros [h Hc] HM. destruct l as [o|p outcome|p| |n]; simpl.
  - intros [= <-]. destruct (translate_resultCache s o) as [-> | ->]; [eauto|].
    destruct (LRU.get (resultCache s) (sourceLanguage o) (targetLanguage o) (text o))
      as [v c1] eqn:Hget. simpl.
    split; [eexists; by eapply get_consistent|].
    unfold LRU.get in Hget. by destruct (JS.truthy_opt _); injection Hget as <- <-.
  - intros Hsame%attemptDone_cache. rewrite Hsame. eauto.
  - unfold resume. destruct (list_find _ _) as [[i f]|]; [|done].
    destruct (promises s !! p) as [[outcome|]|]; try done.
    intros [= <-]. simpl. destruct outcome as [v|e]; [|eauto].
    destruct (set_consistent h (resultCache s) (sourceLanguage (options f))
                (targetLanguage (options f)) (text (options f)) v Hc) as [Hc' HM'];
      [lia|].
    split; [eauto|congruence].
  - intros [= <-]. simpl. split; [eexists; by apply clear_consistent|done].
  - intros [= <-]. unfold setMaxConcurrent.
    rewrite (same_cache _ _ (startProcessingQueue_same _)). simpl. eauto.
Qed.

(** [getCacheStats].  In every state the service can reach, the size it
    reports is at most the capacity it reports, which is the capacity of
    the cache; the size is the number of keys the cache lists, each key
    once, and these are the keys of its entries. *)
Theorem cache_stats_within_capacity ls s :
  run Service.new ls = Some s →
  stats_size (getCacheStats s) ≤ stats_maxSize (getCacheStats s) ∧
  stats_maxSize (getCacheStats s) = LRU.maxSize (resultCache s) ∧
  stats_size (getCacheStats s) = length (LRU.keys (resultCache s)) ∧
  NoDup (LRU.keys (resultCache s)) ∧
  ∀ k, k ∈ LRU.keys (resultCache s) ↔ is_Some (LRU.cache (resultCache s) !! k).
Proof.
  intros Hrun.
  assert (∀ ls s0 s1,
            (∃ h, LRU.consistent LRU.accessedByHit h (resultCache s0)) →
            LRU.maxSize (resultCache s0) = 1000 →
            run s0 ls = Some s1 →
            (∃ h, LRU.consistent LRU.accessedByHit h (resultCache s1))
            ∧ LRU.maxSize (resultCache s1) = 1000) as Hall.
  { clear. induction ls as [|l ls IH]; intros s0 s1 Hc HM; simpl.
    - by intros [= <-].
    - destruct (step s0 l) as [s2|] eqn:Hstep; [|done].
      destruct (cache_consistent_step _ _ _ Hc HM Hstep) as [Hc2 HM2].
      by apply IH. }
  destruct (Hall ls Service.new s) as [[h Hc] HM]; [|done|done|].
  { exists []. apply new_consistent. }
  pose proof (size_keys _ _ _ Hc) as Hlen.
  destruct Hc as [_ Hnd Hdom _ Hsz]. unfold getCacheStats, LRU.size. simpl.
  repeat split; try done; try lia. all: by apply Hdom.
Qed.

(** The theorem after "a" was translated: one entry of a thousand. *)
Lemma cache_stats_within_capacity_witness :
  ∃ s, run Service.new [Translate (mkOptions "ja" "zh" "a");
                        AttemptDone 0 (answer "A"); Resume 0] = Some s ∧
       stats_size (getCacheStats s) = 1 ∧
       stats_size (getCacheStats s) ≤ stats_maxSize (getCacheStats s).
Proof.
  destruct (run Service.new [Translate (mkOptions "ja" "zh" "a");
                             AttemptDone 0 (answer "A"); Resume 0]) as [s|] eqn:Hrun.
  - exists s. split; [reflexivity|].
    pose proof (cache_stats_within_capacity _ s Hrun) as (Hle & _).
    split; [|exact Hle].
    revert Hrun. vm_compute. by intros [= <-].
  - exfalso. revert Hrun. vm_compute. discriminate.
Defined.

(** *** Comparing a count with the limit *)

Lemma numLt_ofInt_Finite a q :
  JS.numLt (JS.ofInt a) (JS.Finite q) = true ↔ (a < Qceiling q)%Z.
Proof.
  unfold JS.numLt, JS.ofInt.
  destruct (Qcompare_spec (inject_Z a) q) as [He|Hl|Hg].
  - split; [done|]. intros Hlt. exfalso.
    rewrite <- (Qceiling_comp _ _ He), Qceiling_Z in Hlt. lia.
  - split; [|done]. intros _.
    rewrite Zlt_Qlt. eapply Qlt_le_trans; [exact Hl|apply Qle_ceiling].
  - split; [done|]. intros Hlt. exfalso.
    assert (a ≤ Qceiling q - 1)%Z as Hle by lia.
    rewrite Zle_Qle in Hle. apply (Qlt_irrefl q).
    eapply Qlt_le_trans; [exact Hg|].
    eapply Qle_trans; [exact Hle|]. apply Qlt_le_weak, Qceiling_lt.
Qed.

(** Below a limit that is not above [m], there is room under [m]. *)
Lemma numLt_room a m limit :
  JS.numLt (JS.ofInt a) limit = true →
  JS.numLt (JS.ofInt m) limit = false →
  (a + 1 ≤ m)%Z.
Proof.
  destruct limit as [| |q|]; try done.
  intros Ha%numLt_ofInt_Finite Hm.
  destruct (Z.lt_ge_cases m (Qceiling q)) as [Hlt|Hge]; [|lia].
  apply numLt_ofInt_Finite in Hlt. congruence.
Qed.

(** At a limit of at least 1 that a count has reached, the count is
    positive. *)
Lemma numLt_reached a q :
  JS.numLt (JS.ofInt a) (JS.Finite q) = false → (1 <= q)%Q → (0 < a)%Z.
Proof.
  intros Ha Hq.
  destruct (Z.lt_ge_cases a (Qceiling q)) as [Hlt|Hge].
  { apply numLt_ofInt_Finite in Hlt. congruence. }
  apply Qceiling_resp_le in Hq. change (Qceiling 1) with 1%Z in Hq. lia.
Qed.

(** What [setMaxConcurrent] stores: NaN for NaN, otherwise a number
    within 1..50. *)
Lemma limit_cases x :
  let c := JS.mathMax (JS.ofInt 1) (JS.mathMin (JS.ofInt 50) x) in
  (x = JS.NaN ∧ c = JS.NaN) ∨ (∃ q, c = JS.Finite q ∧ (1 <= q)%Q ∧ (q <= 50)%Q).
Proof.
  destruct x as [| |q|]; [by left|right..].
  - exists 1%Q. split; [reflexivity|]. split; apply Qle_bool_iff; reflexivity.
  - unfold JS.mathMin, JS.mathMax, JS.numLt, JS.ofInt.
    destruct (Qcompare_spec q (inject_Z 50)) as [He|Hl|Hg].
    + exists (inject_Z 50). split; [reflexivity|].
      split; apply Qle_bool_iff; reflexivity.
    + destruct (Qcompare_spec (inject_Z 1) q) as [He'|Hl'|Hg'].
      * exists (inject_Z 1). split; [reflexivity|].
        split; apply Qle_bool_iff; reflexivity.
      * exists q. split; [reflexivity|]. split; by apply Qlt_le_weak.
      * exists (inject_Z 1). split; [reflexivity|].
        split; apply Qle_bool_iff; reflexivity.
    + exists (inject_Z 50). split; [reflexivity|].
      split; apply Qle_bool_iff; reflexivity.
  - exists 50%Q. split; [reflexivity|]. split; apply Qle_bool_iff; reflexivity.
Qed.

Lemma limit_at_most_50 x :
  JS.numLt (JS.ofInt 50) (JS.mathMax (JS.ofInt 1) (JS.mathMin (JS.ofInt 50) x)) = false.
Proof.
  destruct (limit_cases x) as [[-> ->]|(q & -> & _ & Hq)]; [done|].
  destruct (JS.numLt _ _) eqn:Hlt; [|done].
  apply numLt_ofInt_Finite in Hlt.
  apply Qceiling_resp_le in Hq. change (Qceiling 50) with 50%Z in Hq. lia.
Qed.

Lemma slots_step limit k a :
  JS.numLt (JS.ofInt a) limit = true → slots limit (S k) a = S (slots limit k (a + 1)).
Proof.
  destruct limit as [| |q|]; try done.
  intros Ha%numLt_ofInt_Finite. unfold slots. lia.
Qed.

Lemma slots_stop limit k a :
  JS.numLt (JS.ofInt a) limit = false → slots limit k a = 0.
Proof.
  destruct limit as [| |q|]; try done.
  intros Ha. unfold slots.
  destruct (Z.lt_ge_cases a (Qceiling q)) as [Hlt|Hge]; [|lia].
  apply numLt_ofInt_Finite in Hlt. congruence.
Qed.

(** *** The worker pool at large *)

(** The loop of [processQueueIterative] counts every worker it starts. *)
Lemma drain_count q s :
  activeTranslations s = Z.of_nat (length (workers s)) →
  activeTranslations (drain q s) = Z.of_nat (length (workers (drain q s))) ∧
  maxConcurrent (drain q s) = maxConcurrent s ∧
  isProcessing (drain q s) = isProcessing s.
Proof.
  revert s. induction q as [|t q IH]; intros s Hcount; simpl; [done|].
  destruct (JS.numLt (JS.ofInt (activeTranslations s)) (maxConcurrent s)); [|done].
  match goal with |- context [drain q ?s1] => destruct (IH s1) as (A & B & C) end;
    [|done].
  simpl. rewrite length_app. simpl. lia.
Qed.

Lemma processQueueIterative_PoolInv s :
  activeTranslations s = Z.of_nat (length (workers s)) →
  PoolInv (processQueueIterative s).
Proof.
  intros Hcount.
  destruct (drain_count (translationQueue s) s Hcount) as (A & _ & _).
  unfold processQueueIterative. constructor; simpl; [done|].
  rewrite orb_true_iff, Nat.ltb_lt, Z.ltb_lt.
  destruct (translationQueue (drain _ _)); simpl; split; intros [?|?]; auto;
    try lia; try done.
Qed.

Lemma startProcessingQueue_PoolInv s :
  activeTranslations s = Z.of_nat (length (workers s)) →
  (isProcessing s = true → translationQueue s ≠ [] ∨ (0 < activeTranslations s)%Z) →
  PoolInv (startProcessingQueue s).
Proof.
  intros Hcount Hflag. unfold startProcessingQueue.
  destruct (isProcessing s) eqn:Hp.
  - constructor; [done|]. rewrite Hp. split; auto.
  - by apply processQueueIterative_PoolInv.
Qed.

Lemma settle_count s p w :
  Inv s → w ∈ workers s → promise (task w) = p →
  S (length (filter (λ w', promise (task w') ≠ p) (workers s))) = length (workers s).
Proof.
  intros HI Hw Hp. rewrite <- Hp.
  apply (filter_key_length (λ w', promise (task w')) (workers s) w); [|done].
  pose proof (inv_jobs_nodup s HI) as Hnd. unfold jobs in Hnd.
  rewrite fmap_app in Hnd. apply NoDup_app in Hnd as (_ & _ & Hnd).
  by rewrite <- list_fmap_compose in Hnd.
Qed.

Lemma settle_PoolInv s p outcome w :
  Inv s → PoolInv s → w ∈ workers s → promise (task w) = p →
  PoolInv (settle s p outcome).
Proof.
  intros HI [Hcount _] Hw Hp. unfold settle.
  apply processQueueIterative_PoolInv; simpl.
  pose proof (settle_count s p w HI Hw Hp). lia.
Qed.

Lemma PoolInv_step s l s' : Inv s → PoolInv s → step s l = Some s' → PoolInv s'.
Proof.
  intros HI HP. pose proof HP as [Hcount Hflag].
  destruct l as [o|p outcome|p| |n]; simpl.
  - intros [= <-].
    destruct (translate_cases s o)
      as [Hs|Hs Hb|v Hs Hb Hv Ht|q Hs Hb Hm Hq|Hs Hb Hm Hq]; simpl; try done.
    apply startProcessingQueue_PoolInv; simpl; [done|].
    intros _. left. by destruct (translationQueue s).
  - unfold attemptDone.
    destruct (list_find _ (workers s)) as [[i w]|] eqn:Hfind; [|done].
    apply list_find_elem in Hfind as [Hw Hp].
    destruct (translateWithGoogleAPI _ _) as [v|e].
    + intros [= <-]. by eapply settle_PoolInv.
    + destruct (Nat.leb _ _); intros [= <-]; [|by eapply settle_PoolInv].
      constructor; simpl; try done; by rewrite length_fmap.
  - unfold resume. destruct (list_find _ _) as [[i f]|]; [|done].
    destruct (promises s !! p) as [[outcome|]|]; try done.
    by intros [= <-].
  - by intros [= <-].
  - intros [= <-]. unfold setMaxConcurrent.
    apply startProcessingQueue_PoolInv; simpl; [done|]. apply Hflag.
Qed.

Lemma PoolInv_new : PoolInv Service.new.
Proof. constructor; simpl; [done|]. split; [done|]. intros [?|?]; [done|lia]. Qed.

Lemma run_PoolInv ls s s' : Inv s → PoolInv s → run s ls = Some s' → PoolInv s'.
Proof.
  revert s. induction ls as [|l ls IH]; intros s HI HP; simpl.
  - by intros [= <-].
  - destruct (step s l) as [s1|] eqn:Hstep; [|done].
    apply IH; [by eapply step_Inv|by eapply PoolInv_step].
Qed.

(** *** The workers and the limit *)

Lemma drain_limit q s : maxConcurrent (drain q s) = maxConcurrent s.
Proof.
  revert s. induction q as [|t q IH]; intros s; simpl; [done|].
  destruct (JS.numLt (JS.ofInt (activeTranslations s)) (maxConcurrent s)); [|done].
  by rewrite IH.
Qed.

(** The loop of [processQueueIterative] starts a worker only below the
    limit. *)
Lemma drain_within (m : Z) q s :
  (activeTranslations s ≤ m)%Z →
  JS.numLt (JS.ofInt m) (maxConcurrent s) = false →
  (activeTranslations (drain q s) ≤ m)%Z.
Proof.
  revert s. induction q as [|t q IH]; intros s Hle Hm; simpl; [done|].
  destruct (JS.numLt (JS.ofInt (activeTranslations s)) (maxConcurrent s)) eqn:Hlt;
    [|done].
  apply IH; simpl; [|done]. by eapply numLt_room.
Qed.

Lemma processQueueIterative_within (m : Z) s :
  (activeTranslations s ≤ m)%Z →
  JS.numLt (JS.ofInt m) (maxConcurrent s) = false →
  (activeTranslations (processQueueIterative s) ≤ m)%Z ∧
  JS.numLt (JS.ofInt m) (maxConcurrent (processQueueIterative s)) = false.
Proof.
  intros Hle Hm. unfold processQueueIterative. simpl. rewrite drain_limit.
  split; [by apply drain_within|done].
Qed.

Lemma startProcessingQueue_within (m : Z) s :
  (activeTranslations s ≤ m)%Z →
  JS.numLt (JS.ofInt m) (maxConcurrent s) = false →
  (activeTranslations (startProcessingQueue s) ≤ m)%Z ∧
  JS.numLt (JS.ofInt m) (maxConcurrent (startProcessingQueue s)) = false.
Proof.
  intros Hle Hm. unfold startProcessingQueue. destruct (isProcessing s); [done|].
  by apply processQueueIterative_within.
Qed.

(** A step that sets no limit above [m] keeps the pool within [m]. *)
Lemma within_step (m : Z) s l s' :
  limitWithin m l = true →
  (activeTranslations s ≤ m)%Z →
  JS.numLt (JS.ofInt m) (maxConcurrent s) = false →
  step s l = Some s' →
  (activeTranslations s' ≤ m)%Z ∧ JS.numLt (JS.ofInt m) (maxConcurrent s') = false.
Proof.
  intros Hl Hle Hm. destruct l as [o|p outcome|p| |x]; simpl.
  - intros [= <-].
    destruct (translate_cases s o)
      as [Hs|Hs Hb|v Hs Hb Hv Ht|q Hs Hb Hm' Hq|Hs Hb Hm' Hq]; simpl; try done.
    by apply startProcessingQueue_within.
  - unfold attemptDone.
    destruct (list_find _ (workers s)) as [[i w]|]; [|done].
    destruct (translateWithGoogleAPI _ _) as [v|e].
    + intros [= <-]. apply processQueueIterative_within; simpl; [lia|done].
    + destruct (Nat.leb _ _); intros [= <-]; [done|].
      apply processQueueIterative_within; simpl; [lia|done].
  - unfold resume. destruct (list_find _ _) as [[i f]|]; [|done].
    destruct (promises s !! p) as [[outcome|]|]; try done.
    by intros [= <-].
  - by intros [= <-].
  - intros [= <-]. apply startProcessingQueue_within; simpl; [done|].
    simpl in Hl. by apply negb_true_iff in Hl.
Qed.

Lemma run_within (m : Z) ls : ∀ s s',
  forallb (limitWithin m) ls = true →
  (activeTranslations s ≤ m)%Z →
  JS.numLt (JS.ofInt m) (maxConcurrent s) = false →
  run s ls = Some s' →
  (activeTranslations s' ≤ m)%Z ∧ JS.numLt (JS.ofInt m) (maxConcurrent s') = false.
Proof.
  induction ls as [|l ls IH]; intros s s' Hls Hle Hm; simpl.
  - by intros [= <-].
  - apply andb_true_iff in Hls as [Hl Hls].
    destruct (step s l) as [s1|] eqn:Hstep; [|done].
    destruct (within_step m s l s1 Hl Hle Hm Hstep) as [Hle1 Hm1].
    by apply IH.
Qed.

Lemma limitWithin_50 ls : forallb (limitWithin 50) ls = true.
Proof.
  induction ls as [|l ls IH]; simpl; [done|]. rewrite IH, andb_true_r.
  destruct l; simpl; try done. by rewrite limit_at_most_50.
Qed.

(** The workers and the limit.  In a state the service has reached, let
    [m] bound the number of workers and the limit; as long as no limit
    above [m] is set, whatever else is called or set, even NaN or a
    fraction, the counter [activeTranslations] is the number of workers
    and there are never more than [m] of them; and never more than 50. *)
Theorem workers_within_highest_limit ls0 s0 (m : Z) ls s :
  run Service.new ls0 = Some s0 →
  (Z.of_nat (length (workers s0)) ≤ m)%Z →
  JS.numLt (JS.ofInt m) (maxConcurrent s0) = false →
  forallb (limitWithin m) ls = true →
  run s0 ls = Some s →
  activeTranslations s = Z.of_nat (length (workers s)) ∧
  (Z.of_nat (length (workers s)) ≤ m)%Z ∧
  (Z.of_nat (length (workers s)) ≤ 50)%Z.
Proof.
  intros Hrun0 Hle Hm Hls Hrun.
  pose proof (run_Inv _ _ _ Inv_new Hrun0) as HI0.
  destruct (run_PoolInv _ _ _ Inv_new PoolInv_new Hrun0) as [Hcount0 _].
  destruct (run_PoolInv _ _ _ HI0 (Build_PoolInv _ Hcount0
              (pool_flag _ (run_PoolInv _ _ _ Inv_new PoolInv_new Hrun0))) Hrun)
    as [Hcount _].
  destruct (run_within 50 ls0 Service.new s0 (limitWithin_50 ls0)) as [Hle0 Hm0];
    [simpl; lia|done|done|].
  destruct (run_within 50 ls s0 s (limitWithin_50 ls) Hle0 Hm0 Hrun) as [Hle50 _].
  destruct (run_within m ls s0 s Hls) as [Hlem _]; [lia|done|done|].
  split; [done|]. lia.
Qed.

(** The theorem at the limit 2.5: of five requests, three are with a
    worker once the first worker has ended; they still are when the limit
    has been lowered to 1. *)
Lemma workers_within_highest_limit_witness :
  ∃ s0 s,
    run Service.new [SetMaxConcurrent (JS.Finite (5 # 2))] = Some s0 ∧
    run s0 [Translate (mkOptions "ja" "zh" "a"); Translate (mkOptions "ja" "zh" "b");
            Translate (mkOptions "ja" "zh" "c"); Translate (mkOptions "ja" "zh" "d");
            Translate (mkOptions "ja" "zh" "e");
            AttemptDone 0 (answer "A"); SetMaxConcurrent (JS.ofInt 1)] = Some s ∧
    length (workers s) = 3 ∧ length (translationQueue s) = 1 ∧
    maxConcurrent s = JS.ofInt 1 ∧
    (Z.of_nat (length (workers s)) ≤ 3)%Z.
Proof.
  assert (match run Service.new [SetMaxConcurrent (JS.Finite (5 # 2))] with
          | Some s0 =>
              match run s0 [Translate (mkOptions "ja" "zh" "a");
                            Translate (mkOptions "ja" "zh" "b");
                            Translate (mkOptions "ja" "zh" "c");
                            Translate (mkOptions "ja" "zh" "d");
                            Translate (mkOptions "ja" "zh" "e");
                            AttemptDone 0 (answer "A");
                            SetMaxConcurrent (JS.ofInt 1)] with
              | Some s => Some (length (workers s0), maxConcurrent s0,
                                length (workers s), length (translationQueue s),
                                maxConcurrent s)
              | None => None
              end
          | None => None
          end = Some (0, JS.Finite (5 # 2), 3, 1, JS.ofInt 1)) as E
    by (vm_compute; reflexivity).
  destruct (run Service.new _) as [s0|] eqn:Hrun0; [|done].
  destruct (run s0 _) as [s|] eqn:Hrun; [|done].
  injection E as Hw0 Hlimit Hw Hq Hlow.
  exists s0, s. split; [reflexivity|]. split; [exact Hrun|].
  split; [exact Hw|]. split; [exact Hq|]. split; [exact Hlow|].
  refine (proj1 (proj2 (workers_within_highest_limit _ s0 3 _ s Hrun0 _ _ _ Hrun))).
  - rewrite Hw0. simpl. lia.
  - rewrite Hlimit. reflexivity.
  - vm_compute. reflexivity.
Defined.

(** *** The queue under a limit that is a number *)

Lemma drain_attended q s :
  translationQueue s = q →
  (∃ q0, maxConcurrent s = JS.Finite q0 ∧ (1 <= q0)%Q) →
  translationQueue (drain q s) ≠ [] → (0 < activeTranslations (drain q s))%Z.
Proof.
  revert s. induction q as [|t q IH]; intros s Hq Hlimit; simpl.
  - by rewrite Hq.
  - destruct (JS.numLt (JS.ofInt (activeTranslations s)) (maxConcurrent s)) eqn:Hlt.
    + by apply IH.
    + intros _. destruct Hlimit as (q0 & Hq0 & Hge). rewrite Hq0 in Hlt.
      by eapply numLt_reached.
Qed.

Lemma processQueueIterative_Attended s :
  (∃ q, maxConcurrent s = JS.Finite q ∧ (1 <= q)%Q ∧ (q <= 50)%Q) →
  Attended (processQueueIterative s).
Proof.
  intros (q & Hq & H1 & H50). unfold processQueueIterative. constructor; simpl.
  - rewrite drain_limit. eauto.
  - apply drain_attended; [done|eauto].
Qed.

Lemma startProcessingQueue_Attended s :
  (∃ q, maxConcurrent s = JS.Finite q ∧ (1 <= q)%Q ∧ (q <= 50)%Q) →
  (isProcessing s = true → translationQueue s ≠ [] → (0 < activeTranslations s)%Z) →
  Attended (startProcessingQueue s).
Proof.
  intros Hlimit Hatt. unfold startProcessingQueue.
  destruct (isProcessing s) eqn:Hp.
  - constructor; [done|by apply Hatt].
  - by apply processQueueIterative_Attended.
Qed.

Lemma Attended_step s l s' :
  PoolInv s → Attended s → numericLimit l = true → step s l = Some s' → Attended s'.
Proof.
  intros [Hcount Hflag] HA Hl. pose proof HA as [Hlimit Hatt].
  destruct l as [o|p outcome|p| |x]; simpl.
  - intros [= <-].
    destruct (translate_cases s o)
      as [Hs|Hs Hb|v Hs Hb Hv Ht|q Hs Hb Hm Hq|Hs Hb Hm Hq]; simpl; try done.
    apply startProcessingQueue_Attended; simpl; [done|].
    intros Hp _. apply Hflag in Hp as [Hq'|Ha]; [by apply Hatt|done].
  - unfold attemptDone.
    destruct (list_find _ (workers s)) as [[i w]|]; [|done].
    destruct (translateWithGoogleAPI _ _) as [v|e].
    + intros [= <-]. by apply processQueueIterative_Attended.
    + destruct (Nat.leb _ _); intros [= <-]; [done|].
      by apply processQueueIterative_Attended.
  - unfold resume. destruct (list_find _ _) as [[i f]|]; [|done].
    destruct (promises s !! p) as [[outcome|]|]; try done.
    by intros [= <-].
  - by intros [= <-].
  - intros [= <-]. apply startProcessingQueue_Attended; simpl.
    + destruct (limit_cases x) as [[-> _]|Hx]; [done|exact Hx].
    + intros _. apply Hatt.
Qed.

Lemma Attended_new : Attended Service.new.
Proof.
  constructor; [|done]. exists (inject_Z 40). split; [reflexivity|].
  split; apply Qle_bool_iff; reflexivity.
Qed.

Lemma run_Attended ls : ∀ s s',
  Inv s → PoolInv s → Attended s → forallb numericLimit ls = true →
  run s ls = Some s' → Attended s'.
Proof.
  induction ls as [|l ls IH]; intros s s' HI HP HA Hls; simpl.
  - by intros [= <-].
  - apply andb_true_iff in Hls as [Hl Hls].
    destruct (step s l) as [s1|] eqn:Hstep; [|done].
    apply IH; [by eapply step_Inv|by eapply PoolInv_step|by eapply Attended_step|done].
Qed.

(** [getQueueStatus].  In every state the service can reach: [active] is
    the number of running workers and [isProcessing] tells whether a
    request is queued or running.  As long as [setMaxConcurrent] was not
    given NaN, moreover, the limit is a number within 1..50, requests are
    queued only while a worker is running (whose end will look at the
    queue again), and [isProcessing] is true exactly while a worker is
    running. *)
Theorem queue_status_consistent ls s :
  run Service.new ls = Some s →
  let st := getQueueStatus s in
  status_active st = Z.of_nat (length (workers s)) ∧
  (status_isProcessing st = true ↔ 0 < status_queued st ∨ (0 < status_active st)%Z) ∧
  (forallb numericLimit ls = true →
   (∃ q, status_maxConcurrent st = JS.Finite q ∧ (1 <= q)%Q ∧ (q <= 50)%Q) ∧
   (status_isProcessing st = true ↔ (0 < status_active st)%Z) ∧
   (0 < status_queued st → (0 < status_active st)%Z)).
Proof.
  intros Hrun st.
  destruct (run_PoolInv _ _ _ Inv_new PoolInv_new Hrun) as [Hcount Hflag].
  assert (0 < length (translationQueue s) ↔ translationQueue s ≠ []) as Hq.
  { destruct (translationQueue s); simpl; split; try done; lia. }
  unfold st, getQueueStatus. simpl. split; [done|]. split; [by rewrite Hq|].
  intros Hls.
  destruct (run_Attended ls _ _ Inv_new PoolInv_new Attended_new Hls Hrun)
    as [Hlimit Hatt].
  split; [done|]. rewrite Hq. split; [|done].
  rewrite Hflag. split; [|by right]. intros [?|?]; auto.
Qed.

(** The theorem at the limit 2.5, after two requests: one worker, one
    request queued. *)
Lemma queue_status_consistent_witness :
  ∃ s, run Service.new [SetMaxConcurrent (JS.Finite (5 # 2));
                        Translate (mkOptions "ja" "zh" "a");
                        Translate (mkOptions "ja" "zh" "b")] = Some s ∧
       getQueueStatus s = {| status_queued := 1; status_active := 1;
                             status_maxConcurrent := JS.Finite (5 # 2);
                             status_isProcessing := true |} ∧
       (0 < status_queued (getQueueStatus s) → (0 < status_active (getQueueStatus s))%Z).
Proof.
  assert (match run Service.new [SetMaxConcurrent (JS.Finite (5 # 2));
                                 Translate (mkOptions "ja" "zh" "a");
                                 Translate (mkOptions "ja" "zh" "b")] with
          | Some s => Some (getQueueStatus s)
          | None => None
          end = Some {| status_queued := 1; status_active := 1;
                        status_maxConcurrent := JS.Finite (5 # 2);
                        status_isProcessing := true |}) as E
    by (vm_compute; reflexivity).
  destruct (run Service.new _) as [s|] eqn:Hrun; [|done].
  pose proof (f_equal (default (getQueueStatus s)) E) as E'.
  exists s. split; [reflexivity|]. split; [exact E'|].
  exact (proj2 (proj2 (proj2 (proj2 (queue_status_consistent _ s Hrun)) eq_refl))).
Defined.

(** *** Requests that arrive while a worker is running *)

(** While a worker is running, the service starts no further worker on
    its own: a request for a new key is only put at the end of the queue,
    even below the limit, and [setMaxConcurrent] only changes the limit.
    The queue is looked at again when a worker ends. *)
Theorem busy_service_only_queues ls s :
  run Service.new ls = Some s →
  (0 < activeTranslations s)%Z →
  (∀ x, let o := mkOptions "ja" "zh" x in
        JS.allWhiteSpace x = false →
        JS.truthy_opt (LRU.cache (resultCache s) !! keyOf o) = false →
        promiseCache s !! keyOf o = None →
        (translate s o).1 = Awaits (length (promises s)) ∧
        workers (translate s o).2 = workers s ∧
        translationQueue (translate s o).2
          = translationQueue s ++ [mkItem o (length (promises s))] ∧
        fetches (translate s o).2 = fetches s) ∧
  (∀ n, workers (setMaxConcurrent s n) = workers s ∧
        translationQueue (setMaxConcurrent s n) = translationQueue s ∧
        fetches (setMaxConcurrent s n) = fetches s ∧
        maxConcurrent (setMaxConcurrent s n)
        = JS.mathMax (JS.ofInt 1) (JS.mathMin (JS.ofInt 50) n)).
Proof.
  intros Hrun Hbusy.
  destruct (run_PoolInv _ _ _ Inv_new PoolInv_new Hrun) as [_ Hflag].
  assert (isProcessing s = true) as Hp by (apply Hflag; by right).
  split.
  - intros x o Hblank Hmiss Hnew.
    destruct (translate_cases s o)
      as [Hs|Hs Hb|v Hs Hb Hv Ht|q Hs Hb Hm Hq|Hs Hb Hm Hq]; simpl in *; try congruence.
    + vm_compute in Hs. discriminate.
    + rewrite Hv in Hmiss. simpl in Hmiss. congruence.
    + unfold startProcessingQueue. simpl. by rewrite Hp.
  - intros n. unfold setMaxConcurrent, startProcessingQueue. simpl. by rewrite Hp.
Qed.

(** The theorem while the request for "a" is with a worker: the request
    for "b" waits in the queue, although thirty-nine slots are free. *)
Lemma busy_service_only_queues_witness :
  let s := (translate Service.new (mkOptions "ja" "zh" "a")).2 in
  length (workers (translate s (mkOptions "ja" "zh" "b")).2) = 1 ∧
  translationQueue (translate s (mkOptions "ja" "zh" "b")).2
    = [mkItem (mkOptions "ja" "zh" "b") 1] ∧
  maxConcurrent s = JS.ofInt 40.
Proof.
  intros s.
  destruct (busy_service_only_queues [Translate (mkOptions "ja" "zh" "a")] s)
    as [Hqueue _]; [reflexivity|vm_compute; reflexivity|].
  destruct (Hqueue "b") as (_ & Hw & Hq & _); try (vm_compute; reflexivity).
  rewrite Hw, Hq. vm_compute. done.
Defined.

(** *** Dispatch in arrival order *)

Lemma drain_fifo q s :
  translationQueue s = q →
  let n := slots (maxConcurrent s) (length q) (activeTranslations s) in
  translationQueue (drain q s) = drop n q ∧
  workers (drain q s) = workers s ++ (freshWorker <$> take n q).
Proof.
  revert s. induction q as [|t q IH]; intros s Hq n; simpl.
  - rewrite Hq. unfold n. rewrite take_nil, drop_nil. simpl. by rewrite app_nil_r.
  - destruct (JS.numLt (JS.ofInt (activeTranslations s)) (maxConcurrent s)) eqn:Hlt.
    + match goal with |- context [drain q ?s1] => destruct (IH s1 eq_refl) as [A B] end.
      simpl in A, B. rewrite A, B.
      unfold n. cbn [length]. rewrite (slots_step _ _ _ Hlt).
      simpl. by rewrite <- app_assoc.
    + unfold n. rewrite (slots_stop _ _ _ Hlt).
      simpl. by rewrite Hq, app_nil_r.
Qed.

(** [processQueueIterative] starts workers for the requests at the head
    of the queue, in their order of arrival, as many as there are free
    slots (none when the limit is NaN), and leaves the others queued in
    the same order; so does the end of a worker, which frees one slot
    first. *)
Theorem queue_is_dispatched_in_arrival_order s :
  (translationQueue (processQueueIterative s)
     = drop (dispatchCount s) (translationQueue s) ∧
   workers (processQueueIterative s)
     = workers s ++ (freshWorker <$> take (dispatchCount s) (translationQueue s))) ∧
  ∀ p outcome,
    let n := slots (maxConcurrent s) (length (translationQueue s))
                   (activeTranslations s - 1) in
    translationQueue (settle s p outcome) = drop n (translationQueue s) ∧
    workers (settle s p outcome)
      = filter (λ w, promise (task w) ≠ p) (workers s)
        ++ (freshWorker <$> take n (translationQueue s)).
Proof.
  split.
  - unfold processQueueIterative, dispatchCount. simpl.
    apply (drain_fifo (translationQueue s) s eq_refl).
  - intros p outcome n. unfold settle, processQueueIterative. simpl.
    match goal with
    | |- context [drain ?q ?s1] => exact (drain_fifo q s1 eq_refl)
    end.
Qed.


(** *** A limit that is not a number *)

Lemma drain_NaN q s : maxConcurrent s = JS.NaN → drain q s = s.
Proof. intros Hlimit. destruct q as [|t q]; simpl; [done|]. by rewrite Hlimit. Qed.

(** Without a worker and with a request in the queue nothing moves: no
    worker is started, nothing is sent, no pending promise is settled. *)
Lemma stalled_step s l s' :
  workers s = [] → translationQueue s ≠ [] → isProcessing s = true →
  step s l = Some s' →
  workers s' = [] ∧ translationQueue s' ≠ [] ∧ isProcessing s' = true ∧
  fetches s' = fetches s ∧
  (∀ p, promises s !! p = Some None → promises s' !! p = Some None).
Proof.
  intros Hw Hq Hp. destruct l as [o|p outcome|p| |x]; simpl.
  - intros [= <-].
    destruct (translate_cases s o)
      as [Hs|Hs Hb|v Hs Hb Hv Ht|q Hs Hb Hm Hq'|Hs Hb Hm Hq']; simpl; try done.
    unfold startProcessingQueue. simpl. rewrite Hp. simpl.
    split; [done|]. split; [by destruct (translationQueue s)|].
    split; [done|]. split; [done|].
    intros p Hnone. by apply lookup_app_l_Some.
  - unfold attemptDone. by rewrite Hw.
  - unfold resume. destruct (list_find _ _) as [[i f]|]; [|done].
    destruct (promises s !! p) as [[outcome|]|]; try done.
    by intros [= <-].
  - by intros [= <-].
  - intros [= <-]. unfold setMaxConcurrent, startProcessingQueue. simpl.
    by rewrite Hp.
Qed.

Lemma stalled_run ls : ∀ s s',
  workers s = [] → translationQueue s ≠ [] → isProcessing s = true →
  run s ls = Some s' →
  workers s' = [] ∧ fetches s' = fetches s ∧
  (∀ p, promises s !! p = Some None → promises s' !! p = Some None).
Proof.
  induction ls as [|l ls IH]; intros s s' Hw Hq Hp; simpl.
  - by intros [= <-].
  - destruct (step s l) as [s1|] eqn:Hstep; [|done]. intros Hrun.
    destruct (stalled_step s l s1 Hw Hq Hp Hstep) as (Hw1 & Hq1 & Hp1 & Hf1 & Hn1).
    destruct (IH s1 s' Hw1 Hq1 Hp1 Hrun) as (Hw' & Hf' & Hn').
    split; [done|]. split; [congruence|]. auto.
Qed.

(** [setMaxConcurrent(NaN)] stores NaN, and no count is below NaN.  Once
    it has been called while no worker is running, a request for a new
    text is never sent and never answered, whatever is called
    afterwards, [setMaxConcurrent] with a valid limit included: the
    request waits in the queue with [isProcessing] set, which keeps
    every later call from looking at the queue. *)
Theorem NaN_limit_stalls_the_service ls0 s0 (x : string) ls s :
  run Service.new ls0 = Some s0 →
  workers s0 = [] →
  let o := mkOptions "ja" "zh" x in
  JS.allWhiteSpace x = false →
  JS.truthy_opt (LRU.cache (resultCache s0) !! keyOf o) = false →
  promiseCache s0 !! keyOf o = None →
  run (translate (setMaxConcurrent s0 JS.NaN) o).2 ls = Some s →
  (translate (setMaxConcurrent s0 JS.NaN) o).1 = Awaits (length (promises s0)) ∧
  workers s = [] ∧ fetches s = fetches s0 ∧
  observed s (Awaits (length (promises s0))) = None.
Proof.
  intros Hrun0 Hw0 o Hblank Hmiss Hnew.
  set (s1 := setMaxConcurrent s0 JS.NaN).
  assert (workers s1 = [] ∧ fetches s1 = fetches s0 ∧ maxConcurrent s1 = JS.NaN ∧
          resultCache s1 = resultCache s0 ∧ promiseCache s1 = promiseCache s0 ∧
          promises s1 = promises s0) as (Hw1 & Hf1 & Hl1 & Hc1 & Hpc1 & Hps1).
  { unfold s1, setMaxConcurrent, startProcessingQueue. simpl.
    destruct (isProcessing s0); [done|].
    unfold processQueueIterative. rewrite drain_NaN by done. done. }
  destruct (translate_cases s1 o)
    as [Hs|Hs Hb|v Hs Hb Hv Ht|q Hs Hb Hm Hq|Hs Hb Hm Hq]; simpl in *.
  - vm_compute in Hs. discriminate.
  - congruence.
  - rewrite Hc1 in Hv. rewrite Hv in Hmiss. simpl in Hmiss. congruence.
  - congruence.
  - rewrite Hps1. intros Hrun. split; [done|].
    set (s2 := startProcessingQueue (enqueue s1 o (keyOf o))) in *.
    assert (workers s2 = [] ∧ translationQueue s2 ≠ [] ∧ isProcessing s2 = true ∧
            fetches s2 = fetches s0 ∧
            promises s2 !! length (promises s0) = Some None)
      as (Hw2 & Hq2 & Hp2 & Hf2 & Hn2).
    { unfold s2, startProcessingQueue. simpl.
      destruct (isProcessing s1) eqn:Hp1; simpl.
      - split; [done|]. split; [by destruct (translationQueue s1)|].
        split; [done|]. split; [done|].
        rewrite Hps1. by rewrite lookup_app_r, Nat.sub_diag.
      - unfold processQueueIterative. rewrite drain_NaN by done. simpl.
        split; [done|]. split; [by destruct (translationQueue s1)|].
        split; [by rewrite length_app, Nat.add_comm|]. split; [done|].
        rewrite Hps1. by rewrite lookup_app_r, Nat.sub_diag. }
    destruct (stalled_run ls s2 s Hw2 Hq2 Hp2 Hrun) as (Hw & Hf & Hn).
    split; [done|]. split; [congruence|].
    unfold observed. rewrite (Hn _ Hn2). by case_bool_decide.
Qed.

(** The theorem on a fresh service: after [setMaxConcurrent(NaN)], the
    request for "a" is still waiting when the limit has been set to 5
    and a second request has been made. *)
Lemma NaN_limit_stalls_the_service_witness :
  ∃ s, run (translate (setMaxConcurrent Service.new JS.NaN) (mkOptions "ja" "zh" "a")).2
           [SetMaxConcurrent (JS.ofInt 5); Translate (mkOptions "ja" "zh" "b")] = Some s ∧
       length (translationQueue s) = 2 ∧ maxConcurrent s = JS.ofInt 5 ∧
       workers s = [] ∧ observed s (Awaits 0) = None.
Proof.
  assert (match run (translate (setMaxConcurrent Service.new JS.NaN)
                       (mkOptions "ja" "zh" "a")).2
                    [SetMaxConcurrent (JS.ofInt 5); Translate (mkOptions "ja" "zh" "b")] with
          | Some s => Some (length (translationQueue s), maxConcurrent s)
          | None => None
          end = Some (2, JS.ofInt 5)) as E by (vm_compute; reflexivity).
  destruct (run _ _) as [s|] eqn:Hrun; [|done].
  injection E as Hq Hlimit.
  exists s. split; [reflexivity|]. split; [exact Hq|]. split; [exact Hlimit|].
  destruct (NaN_limit_stalls_the_service [] Service.new "a" _ s eq_refl eq_refl
              eq_refl eq_refl eq_refl Hrun) as (_ & Hw & _ & Hobs).
  split; [exact Hw|exact Hobs].
Defined.

(** *** What is sent to the remote service *)

Lemma replaceNewlines_no_newline b (x : string) :
  forallb (λ c, negb (isNewline c)) (list_ascii_of_string (replaceNewlines b x)) = true.
Proof.
  revert b. induction x as [|c x IH]; intros b; simpl; [done|].
  destruct (isNewline c) eqn:Hc.
  - destruct b; simpl; by rewrite IH.
  - simpl. by rewrite Hc, IH.
Qed.

Lemma replaceNewlines_truthy (x : string) :
  JS.truthy x = true → JS.truthy (replaceNewlines false x) = true.
Proof. destruct x as [|c x]; [done|]. simpl. by destruct (isNewline c). Qed.

Lemma logFetch_sendable o (log : list string) :
  JS.allWhiteSpace (text o) = false →
  Forall (λ q, sendable q = true) log →
  Forall (λ q, sendable q = true) (logFetch o log).
Proof.
  intros Hblank Hlog. unfold logFetch, reachesFetch.
  destruct (supported _ _); simpl; [|done].
  destruct (Nat.leb _ _) eqn:Hlen; [|done].
  constructor; [|done]. unfold sendable.
  rewrite Hlen, andb_true_r. unfold processedText.
  rewrite replaceNewlines_no_newline, andb_true_r.
  apply replaceNewlines_truthy. by rewrite trim_truthy, Hblank.
Qed.

Lemma drain_sendable q s :
  Forall (λ t, JS.allWhiteSpace (text (options t)) = false) q →
  Forall (λ q, sendable q = true) (fetches s) →
  Forall (λ q, sendable q = true) (fetches (drain q s)).
Proof.
  revert s. induction q as [|t q IH]; intros s Hq Hlog; simpl; [done|].
  apply Forall_cons in Hq as [Ht Hq].
  destruct (JS.numLt _ _); [|done].
  apply IH; [done|]. simpl. by apply logFetch_sendable.
Qed.

Lemma queue_nonblank s :
  Inv s → Forall (λ t, JS.allWhiteSpace (text (options t)) = false) (translationQueue s).
Proof.
  intros HI. apply Forall_forall. intros t Ht.
  assert (t ∈ jobs s) as Hjob by (unfold jobs; apply elem_of_app; by left).
  destruct (inv_job s HI t Hjob) as [Hf _].
  by destruct (inv_frame s HI t Hf) as (_ & Hb & _).
Qed.

Lemma startProcessingQueue_sendable s :
  Forall (λ t, JS.allWhiteSpace (text (options t)) = false) (translationQueue s) →
  Forall (λ q, sendable q = true) (fetches s) →
  Forall (λ q, sendable q = true) (fetches (startProcessingQueue s)).
Proof.
  intros Hq Hlog. unfold startProcessingQueue.
  destruct (isProcessing s); [done|].
  unfold processQueueIterative. simpl. by apply drain_sendable.
Qed.

Lemma settle_sendable s p outcome :
  Inv s →
  Forall (λ q, sendable q = true) (fetches s) →
  Forall (λ q, sendable q = true) (fetches (settle s p outcome)).
Proof.
  intros HI Hlog. unfold settle, processQueueIterative. simpl.
  apply drain_sendable; [|done]. by apply queue_nonblank.
Qed.

Lemma sendable_step s l s' :
  Inv s →
  Forall (λ q, sendable q = true) (fetches s) →
  step s l = Some s' →
  Forall (λ q, sendable q = true) (fetches s').
Proof.
  intros HI Hlog. destruct l as [o|p outcome|p| |n]; simpl.
  - intros [= <-].
    destruct (translate_cases s o)
      as [Hs|Hs Hb|v Hs Hb Hv Ht|q Hs Hb Hm Hq|Hs Hb Hm Hq]; simpl; try done.
    apply startProcessingQueue_sendable; [|done]. simpl.
    apply Forall_app. split; [by apply queue_nonblank|]. by constructor.
  - unfold attemptDone.
    destruct (list_find _ (workers s)) as [[i w]|] eqn:Hfind; [|done].
    apply list_find_elem in Hfind as [Hw Hp].
    destruct (translateWithGoogleAPI _ _) as [v|e].
    + intros [= <-]. by apply settle_sendable.
    + destruct (Nat.leb _ _); intros [= <-]; [|by apply settle_sendable].
      simpl. apply logFetch_sendable; [|done].
      assert (task w ∈ jobs s) as Hjob.
      { unfold jobs. apply elem_of_app. right. by apply list_elem_of_fmap_2. }
      destruct (inv_job s HI _ Hjob) as [Hf _].
      by destruct (inv_frame s HI _ Hf) as (_ & Hb & _).
  - unfold resume. destruct (list_find _ _) as [[i f]|]; [|done].
    destruct (promises s !! p) as [[outcome|]|]; try done.
    by intros [= <-].
  - by intros [= <-].
  - intros [= <-]. unfold setMaxConcurrent.
    apply startProcessingQueue_sendable; [|done]. simpl. by apply queue_nonblank.
Qed.

Lemma run_sendable ls s s' :
  Inv s →
  Forall (λ q, sendable q = true) (fetches s) →
  run s ls = Some s' →
  Forall (λ q, sendable q = true) (fetches s').
Proof.
  revert s. induction ls as [|l ls IH]; intros s HI Hlog; simpl.
  - by intros [= <-].
  - destruct (step s l) as [s1|] eqn:Hstep; [|done].
    apply IH; [by eapply step_Inv|by eapply sendable_step].
Qed.

Lemma reachable_fetch_sendable ls s q :
  run Service.new ls = Some s → q ∈ fetches s → sendable q = true.
Proof.
  intros Hrun Hq.
  pose proof (run_sendable _ _ _ Inv_new (Forall_nil_2 _) Hrun) as Hall.
  rewrite Forall_forall in Hall. by apply Hall.
Qed.

(** Every [q] the service ever puts in a request is the trimmed text with
    its line breaks replaced: it is not empty, has at most 5000 code
    units and contains no line break. *)
Theorem every_fetch_is_sendable ls s q :
  run Service.new ls = Some s →
  q ∈ fetches s →
  q ≠ "" ∧ String.length q ≤ 5000 ∧
  ∀ c, c ∈ list_ascii_of_string q → nat_of_ascii c ≠ 10 ∧ nat_of_ascii c ≠ 13.
Proof.
  intros Hrun Hq.
  pose proof (reachable_fetch_sendable _ _ _ Hrun Hq) as Hall.
  unfold sendable in Hall. apply andb_true_iff in Hall as [[H1 H2]%andb_true_iff H3].
  split; [by destruct q|]. split; [by apply Nat.leb_le in H2|].
  intros c Hc. rewrite forallb_forall in H3.
  apply list_elem_of_In, H3 in Hc. unfold isNewline in Hc.
  apply negb_true_iff, orb_false_iff in Hc as [?%Nat.eqb_neq ?%Nat.eqb_neq]. done.
Qed.

(** The theorem on a text with blanks around it and a line feed inside. *)
Lemma every_fetch_is_sendable_witness :
  let x := " a" +:+ String (ascii_of_nat 10) "b " in
  fetches (translate Service.new (mkOptions "ja" "zh" x)).2 = ["a b"] ∧
  String.length "a b" ≤ 5000.
Proof.
  intros x.
  assert (fetches (translate Service.new (mkOptions "ja" "zh" x)).2 = ["a b"]) as Hlog
    by (vm_compute; reflexivity).
  split; [exact Hlog|].
  refine (proj1 (proj2 (every_fetch_is_sendable [Translate (mkOptions "ja" "zh" x)]
                          (translate Service.new (mkOptions "ja" "zh" x)).2 "a b"
                          eq_refl _))).
  rewrite Hlog. apply list_elem_of_singleton. reflexivity.
Defined.

(** *** A text that is too long *)

Lemma run_app ls1 ls2 s s1 s2 :
  run s ls1 = Some s1 → run s1 ls2 = Some s2 → run s (ls1 ++ ls2) = Some s2.
Proof.
  revert s. induction ls1 as [|l ls1 IH]; intros s; simpl.
  - by intros [= <-].
  - destruct (step s l) as [s'|]; [|done]. apply IH.
Qed.

Lemma oversized_rejected o outcome :
  supported (sourceLanguage o) (targetLanguage o) = true →
  maxTextLength < String.length (processedText (text o)) →
  translateWithGoogleAPI o outcome
  = Rejected (TextTooLong (String.length (processedText (text o)))).
Proof.
  intros Hs Hlong. unfold translateWithGoogleAPI. rewrite Hs. simpl.
  by rewrite (proj2 (Nat.ltb_lt _ _) Hlong).
Qed.

(** A worker whose every attempt fails with the same error gives up at
    its fourth failure. *)
Lemma constant_failure_exhausts e (outcomes : list FetchOutcome) : ∀ s p i w,
  Inv s →
  list_find (λ w, promise (task w) = p) (workers s) = Some (i, w) →
  (∀ outcome, translateWithGoogleAPI (options (task w)) outcome = Rejected e) →
  outcomes ≠ [] →
  length outcomes + attempts w = 4 →
  ∃ s', run s (AttemptDone p <$> outcomes) = Some s' ∧
        promises s' !! p = Some (Some (Rejected (RetriesExhausted e))).
Proof.
  induction outcomes as [|outcome outcomes IH]; intros s p i w HI Hfind Hfail Hne Hlen;
    [done|].
  pose proof (list_find_elem _ _ _ _ Hfind) as [Hw Hp].
  assert (promises s !! p = Some None) as Hpending.
  { rewrite <- Hp. apply (inv_job s HI). unfold jobs. apply elem_of_app. right.
    by apply list_elem_of_fmap_2. }
  destruct outcomes as [|outcome' outcomes].
  - exists (settle s p (Rejected (RetriesExhausted e))). split.
    + simpl. unfold attemptDone. rewrite Hfind, Hfail.
      replace (Nat.leb (S (attempts w)) maxAttempts) with false
        by (symmetry; apply Nat.leb_gt; unfold maxAttempts; simpl in Hlen; lia).
      done.
    + rewrite settle_promises.
      apply list_lookup_insert_eq. by apply lookup_lt_Some in Hpending.
  - destruct (attemptDone_retry s p i w outcome e Hfind (Hfail outcome))
      as (s1 & Hstep & Hprom & Hfind1); [simpl in Hlen; lia|].
    pose proof (attemptDone_Inv _ _ _ _ HI Hstep) as HI1.
    destruct (IH s1 p i _ HI1 Hfind1) as (s2 & Hrun & Hrej);
      [done|done|simpl in *; lia|].
    exists s2. split; [|done]. simpl. rewrite Hstep. exact Hrun.
Qed.

(** A request whose text, trimmed and with its line breaks replaced, has
    more than 5000 code units is never sent: each of its four attempts
    fails before the [fetch], whatever the network would do, and the
    request is rejected as too long. *)
Theorem oversized_text_is_rejected_unsent ls s i w p (outcomes : list FetchOutcome) :
  run Service.new ls = Some s →
  list_find (λ w, promise (task w) = p) (workers s) = Some (i, w) →
  attempts w = 0 →
  5000 < String.length (processedText (text (options (task w)))) →
  length outcomes = 4 →
  ∃ s', run s (AttemptDone p <$> outcomes) = Some s' ∧
        promises s' !! p
        = Some (Some (Rejected (RetriesExhausted
            (TextTooLong (String.length (processedText (text (options (task w)))))))))
        ∧ processedText (text (options (task w))) ∉ fetches s'.
Proof.
  intros Hrun Hfind Hfresh Hlong Hlen.
  pose proof (run_Inv _ _ _ Inv_new Hrun) as HI.
  pose proof (list_find_elem _ _ _ _ Hfind) as [Hw Hp].
  assert (supported (sourceLanguage (options (task w)))
                    (targetLanguage (options (task w))) = true) as Hs.
  { assert (task w ∈ jobs s) as Hjob.
    { unfold jobs. apply elem_of_app. right. by apply list_elem_of_fmap_2. }
    destruct (inv_job s HI _ Hjob) as [Hf _].
    by destruct (inv_frame s HI _ Hf) as (? & _). }
  destruct (constant_failure_exhausts
              (TextTooLong (String.length (processedText (text (options (task w))))))
              outcomes s p i w HI Hfind) as (s' & Hrun' & Hrej).
  - intros outcome. by apply oversized_rejected.
  - by destruct outcomes.
  - lia.
  - exists s'. split; [done|]. split; [done|].
    intros Hin.
    pose proof (reachable_fetch_sendable _ _ _ (run_app _ _ _ _ _ Hrun Hrun') Hin) as Hq.
    unfold sendable in Hq. apply andb_true_iff in Hq as [[_ Hle]%andb_true_iff _].
    apply Nat.leb_le in Hle. unfold maxTextLength in Hle. lia.
Qed.

(** The theorem on a text of 5001 characters, with a network that would
    answer at once. *)
Lemma oversized_text_is_rejected_unsent_witness :
  let o := mkOptions "ja" "zh" (repeatChar "a" (S 5000)) in
  ∃ s', run (translate Service.new o).2 (AttemptDone 0 <$> replicate 4 (answer "ok"))
          = Some s' ∧
        processedText (text o) ∉ fetches s'.
Proof.
  intros o.
  destruct (oversized_text_is_rejected_unsent [Translate o] (translate Service.new o).2
              0 (freshWorker (mkItem o 0)) 0 (replicate 4 (answer "ok")))
    as (s' & Hrun & _ & Hunsent).
  - reflexivity.
  - vm_compute. reflexivity.
  - reflexivity.
  - apply Nat.ltb_lt. vm_compute. reflexivity.
  - reflexivity.
  - exists s'. split; [exact Hrun|exact Hunsent].
Defined.

End ServiceMore.

(** ** More about the batch coordinator *)

Section BatchMore.

Import Service.

Implicit Types (s : TranslationService) (f : BatchFrame) (texts : list string).

Lemma cachedSlot_cache c c' sl tl x :
  LRU.cache c' = LRU.cache c → cachedSlot c' sl tl x = cachedSlot c sl tl x.
Proof. intros Hc. unfold cachedSlot. by rewrite Hc. Qed.

(** The first loop of [translateBatch]. *)
Lemma collect_spec sl tl texts : ∀ c i results tasks c' results' tasks',
  collect sl tl c i texts results tasks = (c', results', tasks') →
  i + length texts ≤ length results →
  length results' = length results ∧
  (∀ k, k < i → results' !! k = results !! k) ∧
  (∀ j x v, texts !! j = Some x → cachedSlot c sl tl x = Some v →
            results' !! (i + j) = Some (Some v)) ∧
  ∃ new, tasks' = tasks ++ new ∧
    (∀ t, t ∈ new →
       ∃ j x, taskIndex t = i + j ∧ texts !! j = Some x ∧
              taskLength t = String.length x ∧ cachedSlot c sl tl x = None) ∧
    (∀ j x, texts !! j = Some x → cachedSlot c sl tl x = None →
            i + j ∈ taskIndex <$> new).
Proof.
  induction texts as [|t texts IH]; intros c i results tasks c' results' tasks'; simpl.
  - intros [= <- <- <-] _. split; [done|]. split; [done|]. split; [done|].
    exists []. rewrite app_nil_r. split; [done|]. split; [by intros ? ?%elem_of_nil|done].
  - pose proof (get_cache c sl tl t) as Hc. pose proof (get_value c sl tl t) as Hv.
    destruct (LRU.get c sl tl t) as [v c1]. simpl in Hc, Hv. subst v.
    intros Hcollect Hlen.
    assert (∀ x, cachedSlot c1 sl tl x = cachedSlot c sl tl x) as Hslot
      by (intros x; by apply cachedSlot_cache).
    destruct (cachedSlot c sl tl t) as [v|] eqn:Hcached.
    + (* the text has a cached translation *)
      assert (LRU.cache c !! LRU.getKey sl tl t = Some v ∧ JS.truthy v = true) as [Hlook Htr].
      { unfold cachedSlot in Hcached.
        destruct (LRU.cache c !! LRU.getKey sl tl t) as [w|]; simpl in Hcached; [|done].
        destruct (JS.truthy w) eqn:Hw; [|done]. by injection Hcached as ->. }
      rewrite Hlook in Hcollect. destruct v as [|a v]; [done|].
      apply IH in Hcollect as (L & Hbefore & Hfilled & new & -> & Hnew & Hcover);
        [|rewrite length_insert; lia].
      rewrite length_insert in L. split; [done|]. split; [|split].
      * intros k Hk. rewrite Hbefore by lia. apply list_lookup_insert_ne. lia.
      * intros [|j] x w Hx Hw; simpl in Hx.
        -- injection Hx as <-. rewrite Hcached in Hw. injection Hw as <-.
           rewrite Nat.add_0_r, Hbefore by lia. apply list_lookup_insert_eq. lia.
        -- replace (i + S j) with (S i + j) by lia. apply (Hfilled j x); [done|].
           by rewrite Hslot.
      * exists new. split; [done|]. split.
        -- intros t' Ht'. destruct (Hnew t' Ht') as (j & x & E1 & E2 & E3 & E4).
           exists (S j), x. rewrite <- Hslot. repeat split; try done; lia.
        -- intros [|j] x Hx Hw; simpl in Hx.
           ++ injection Hx as <-. congruence.
           ++ replace (i + S j) with (S i + j) by lia. apply (Hcover j x); [done|].
              by rewrite Hslot.
    + (* the text becomes a task *)
      assert (collect sl tl c1 (S i) texts results
                (tasks ++ [{| taskIndex := i; taskText := t;
                              taskLength := String.length t |}])
              = (c', results', tasks')) as Hcollect'.
      { unfold cachedSlot in Hcached.
        destruct (LRU.cache c !! LRU.getKey sl tl t) as [[|a w]|]; try done. }
      clear Hcollect.
      apply IH in Hcollect' as (L & Hbefore & Hfilled & new & -> & Hnew & Hcover);
        [|lia].
      split; [done|]. split; [|split].
      * intros k Hk. apply Hbefore. lia.
      * intros [|j] x w Hx Hw; simpl in Hx.
        -- injection Hx as <-. congruence.
        -- replace (i + S j) with (S i + j) by lia. apply (Hfilled j x); [done|].
           by rewrite Hslot.
      * exists ({| taskIndex := i; taskText := t; taskLength := String.length t |} :: new).
        split; [by rewrite <- app_assoc|]. split.
        -- intros t' [->|Ht']%elem_of_cons.
           ++ exists 0, t. simpl. repeat split; try done; lia.
           ++ destruct (Hnew t' Ht') as (j & x & E1 & E2 & E3 & E4).
              exists (S j), x. rewrite <- Hslot. repeat split; try done; lia.
        -- intros [|j] x Hx Hw; simpl in Hx.
           ++ rewrite Nat.add_0_r. simpl. by left.
           ++ simpl. right. replace (i + S j) with (S i + j) by lia.
              apply (Hcover j x); [done|]. by rewrite Hslot.
Qed.

Lemma submit_indices sl tl (batch : list Task) : ∀ s ps s',
  submit s sl tl batch = (ps, s') → ps.*1 = taskIndex <$> batch.
Proof.
  induction batch as [|t batch IH]; intros s ps s'; simpl.
  - by intros [= <- <-].
  - destruct (translate s _) as [r s1].
    destruct (submit s1 sl tl batch) as [rs s2] eqn:Hrest.
    intros [= <- <-]. simpl. f_equal. by eapply IH.
Qed.

Lemma allSettled_indices s (ps : list (nat * CallResult)) : ∀ vs,
  allSettled s ps = Some (inr vs) → vs.*1 = ps.*1.
Proof.
  induction ps as [|[i r] ps IH]; intros vs; simpl.
  - by intros [= <-].
  - destruct (observed s r) as [[v|e]|]; destruct (allSettled s ps) as [[e'|vs']|];
      try done.
    intros [= <-]. simpl. f_equal. by apply IH.
Qed.

(** Filling the slots of the answers of a sub-batch. *)
Lemma fillResults_spec (batchResults : list (nat * string)) :
  ∀ results : list (option string),
  length (fillResults results batchResults) = length results ∧
  (∀ k, k ∉ batchResults.*1 →
        fillResults results batchResults !! k = results !! k) ∧
  (∀ k, k ∈ batchResults.*1 → k < length results →
        ∃ v, fillResults results batchResults !! k = Some (Some v)) ∧
  (∀ k v, results !! k = Some (Some v) →
        ∃ v', fillResults results batchResults !! k = Some (Some v')).
Proof.
  unfold fillResults.
  induction batchResults as [|[i v] rest IH]; intros results; simpl.
  - split; [done|]. split; [done|]. split; [by intros k ?%elem_of_nil|eauto].
  - destruct (IH (<[i := Some v]> results)) as (L & Hother & Hin & Hkeep).
    rewrite length_insert in L, Hin. split; [done|]. split; [|split].
    + intros k [Hne Hk]%not_elem_of_cons. rewrite Hother by done.
      by apply list_lookup_insert_ne.
    + intros k [->|Hk]%elem_of_cons Hlt; [|by apply Hin].
      apply (Hkeep i v). by apply list_lookup_insert_eq.
    + intros k w Hk. destruct (decide (i = k)) as [->|Hne].
      * apply (Hkeep k v). apply list_lookup_insert_eq. by apply lookup_lt_Some in Hk.
      * apply (Hkeep k w). by rewrite list_lookup_insert_ne.
Qed.

Lemma slice_sublist {A} (a b : nat) (l : list A) : JS.slice a b l `sublist_of` l.
Proof.
  unfold JS.slice. etrans; [apply sublist_take|apply sublist_drop].
Qed.

(** The loop test and the submission of a sub-batch. *)
Lemma enterBatch_spec s f0 st s' :
  enterBatch s "ja" "zh" f0 = (st, s') →
  (st = BatchDone (results f0) ∧ length (tasks f0) ≤ position f0)
  ∨ (∃ f, st = BatchRunning f ∧ position f0 < length (tasks f0) ∧
          results f = results f0 ∧ tasks f = tasks f0 ∧ batchSize f = batchSize f0 ∧
          position f = position f0 ∧ sleeping f = false ∧
          (batchPromises f).*1
          = taskIndex <$> JS.slice 0 (effectiveBatchSize f)
                            (JS.slice (position f0) (position f0 + batchSize f0)
                                      (tasks f0)) ∧
          ((charCount (JS.slice (position f0) (position f0 + batchSize f0) (tasks f0))
            ≤ maxCharsPerBatch)%Z → effectiveBatchSize f = batchSize f0)).
Proof.
  unfold enterBatch. destruct (Nat.ltb _ _) eqn:Hlt.
  - apply Nat.ltb_lt in Hlt.
    destruct (submit _ _ _ _) as [ps s1] eqn:Hsubmit. intros [= <- <-].
    right. eexists. split; [reflexivity|]. simpl.
    repeat split; try done.
    + by apply submit_indices in Hsubmit.
    + intros Hfit. by rewrite (proj2 (Z.ltb_ge _ _) Hfit).
  - apply Nat.ltb_ge in Hlt. intros [= <- <-]. by left.
Qed.

(** *** The length of the result and the cached slots *)

Lemma BatchInv_fill texts c0 f (batchResults : list (nat * string)) size pos eff sleep :
  BatchInv texts c0 f →
  batchResults.*1 = (batchPromises f).*1 →
  BatchInv texts c0
    {| results := fillResults (results f) batchResults; tasks := tasks f;
       batchSize := size; position := pos; effectiveBatchSize := eff;
       batchPromises := []; sleeping := sleep |}.
Proof.
  intros [L Hcached Htasks Hcover Hprom] Hidx.
  destruct (fillResults_spec batchResults (results f)) as (L' & Hother & _ & _).
  constructor; simpl; try done; [congruence| |by intros p ?%elem_of_nil].
  intros i x v Hx Hv. rewrite Hother; [by eapply Hcached|].
  rewrite Hidx. intros (p & -> & Hp)%list_elem_of_fmap.
  apply Hprom in Hp. apply list_elem_of_fmap in Hp as (t & Hi & Ht).
  destruct (Htasks t Ht) as (x' & Hx' & _ & Hnone). rewrite <- Hi in Hx'. congruence.
Qed.

Lemma BatchInv_frame texts c0 f size pos eff sleep :
  BatchInv texts c0 f →
  BatchInv texts c0
    {| results := results f; tasks := tasks f;
       batchSize := size; position := pos; effectiveBatchSize := eff;
       batchPromises := []; sleeping := sleep |}.
Proof.
  intros [L Hcached Htasks Hcover Hprom].
  constructor; simpl; try done. by intros p ?%elem_of_nil.
Qed.

Lemma enterBatch_BatchInv texts c0 s f0 st s' :
  BatchInv texts c0 f0 →
  enterBatch s "ja" "zh" f0 = (st, s') →
  BatchStateInv texts c0 st.
Proof.
  intros [L Hcached Htasks Hcover Hprom] Henter.
  destruct (enterBatch_spec _ _ _ _ Henter)
    as [[-> _]|(f & -> & _ & Hr & Ht & _ & _ & _ & Hidx & _)]; simpl; [done|].
  constructor; rewrite ?Hr, ?Ht; try done.
  intros p Hp. apply (list_elem_of_fmap_2 fst) in Hp. rewrite Hidx in Hp.
  eapply elem_of_sublist; [exact Hp|].
  apply fmap_sublist. etrans; apply slice_sublist.
Qed.

Lemma continueBatch_BatchInv texts c0 s f st s' :
  BatchInv texts c0 f →
  continueBatch s "ja" "zh" f = Some (st, s') →
  BatchStateInv texts c0 st.
Proof.
  intros HI. unfold continueBatch. destruct (sleeping f).
  - intros [= Henter]. eapply enterBatch_BatchInv; [|exact Henter].
    by apply BatchInv_frame.
  - destruct (allSettled s (batchPromises f)) as [[e|batchResults]|] eqn:Hall; [| |done].
    + by intros [= <- <-].
    + apply allSettled_indices in Hall.
      destruct (Nat.ltb _ _).
      * intros [= <- <-]. simpl. by apply BatchInv_fill.
      * intros [= Henter]. eapply enterBatch_BatchInv; [|exact Henter].
        by apply BatchInv_fill.
Qed.

Lemma translateBatch_frame s texts :
  ∃ c f0,
    translateBatch s texts "ja" "zh" = enterBatch (withCache s c) "ja" "zh" f0 ∧
    BatchInv texts (resultCache s) f0 ∧
    position f0 = 0 ∧ sleeping f0 = false ∧
    batchSize f0 = Z.to_nat (dynamicBatchSize (length texts) (tasks f0)).
Proof.
  unfold translateBatch. change (supported "ja" "zh") with true. simpl negb. cbv iota.
  destruct (collect _ _ _ _ _ _ _) as [[c results] tasks0] eqn:Hcollect.
  eexists c, _. split; [reflexivity|]. simpl. split; [|done].
  apply collect_spec in Hcollect as (L & _ & Hfilled & new & -> & Hnew & Hcover);
    [|by rewrite length_replicate].
  rewrite length_replicate in L.
  constructor; simpl; try done.
  - intros t Ht. destruct (Hnew t Ht) as (j & x & E1 & E2 & E3 & E4). exists x.
    by rewrite E1.
  - by intros p ?%elem_of_nil.
Qed.

Lemma batchRun_BatchInv texts c0 ls : ∀ st s st' s',
  BatchStateInv texts c0 st →
  batchRun "ja" "zh" (st, s) ls = Some (st', s') →
  BatchStateInv texts c0 st'.
Proof.
  induction ls as [|l ls IH]; intros st s st' s' HI; simpl.
  - by intros [= <- <-].
  - destruct l as [l'|]; unfold batchStep.
    + destruct (step s l') as [s1|]; [|done]. by apply IH.
    + destruct st as [f|results|e]; try done.
      destruct (continueBatch s "ja" "zh" f) as [[st1 s1]|] eqn:Hcont; [|done].
      apply IH. by eapply continueBatch_BatchInv.
Qed.

(** Whatever the answers and their order, and whether or not a sub-batch
    is truncated: the array [translateBatch] returns has the length of the
    input, and the slot of every text that had a non-empty cached
    translation at the call holds that translation. *)
Theorem translateBatch_keeps_length_and_cached_slots s texts ls results s' :
  batchRun "ja" "zh" (translateBatch s texts "ja" "zh") ls = Some (BatchDone results, s') →
  length results = length texts ∧
  ∀ i x v, texts !! i = Some x →
           LRU.cache (resultCache s) !! LRU.getKey "ja" "zh" x = Some v →
           JS.truthy v = true →
           results !! i = Some (Some v).
Proof.
  destruct (translateBatch_frame s texts) as (c & f0 & -> & HI & _).
  destruct (enterBatch (withCache s c) "ja" "zh" f0) as [st0 s0] eqn:Henter.
  intros Hrun.
  pose proof (batchRun_BatchInv _ _ _ _ _ _ _
                (enterBatch_BatchInv _ _ _ _ _ _ HI Henter) Hrun) as [L Hcached].
  split; [done|]. intros i x v Hx Hv Htr. apply (Hcached i x v Hx).
  unfold cachedSlot. by rewrite Hv; simpl; rewrite Htr.
Qed.

(** The theorem on four texts, every call succeeding. *)
Lemma translateBatch_keeps_length_and_cached_slots_witness :
  ∃ results s',
    batchRun "ja" "zh" (translateBatch Service.new fourTexts "ja" "zh")
             (everyCallSucceeds 4) = Some (BatchDone results, s') ∧
    length results = 4.
Proof.
  destruct (batchRun "ja" "zh" (translateBatch Service.new fourTexts "ja" "zh")
                     (everyCallSucceeds 4)) as [[[f|results|e] s']|] eqn:Hrun;
    try (exfalso; revert Hrun; vm_compute; discriminate).
  exists results, s'. split; [reflexivity|].
  exact (proj1 (translateBatch_keeps_length_and_cached_slots _ _ _ _ _ Hrun)).
Defined.

(** *** No slot is left unfilled when no sub-batch is truncated *)

Lemma charCount_cons t (l : list Task) :
  charCount (t :: l) = (Z.of_nat (taskLength t) + charCount l)%Z.
Proof. unfold charCount at 1. simpl. by rewrite charCount_from. Qed.

Lemma charCount_bound L (l : list Task) :
  Forall (λ t, taskLength t ≤ L) l → (charCount l ≤ Z.of_nat (L * length l))%Z.
Proof.
  induction 1 as [|t l Ht Hl IH]; [unfold charCount; simpl; lia|].
  rewrite charCount_cons. cbn [length]. nia.
Qed.

Lemma slice_length_le {A} (a b : nat) (l : list A) : length (JS.slice a b l) ≤ b - a.
Proof. unfold JS.slice. rewrite length_take. lia. Qed.

Lemma slice_window_lookup {A} (a k : nat) (l : list A) j x :
  l !! j = Some x → a ≤ j < a + k → x ∈ JS.slice a (a + k) l.
Proof.
  intros Hj Hin. unfold JS.slice. apply list_elem_of_lookup. exists (j - a).
  rewrite lookup_take_lt by lia. rewrite lookup_drop.
  by replace (a + (j - a)) with j by lia.
Qed.

Lemma short_texts_withinBudget texts c0 f :
  BatchInv texts c0 f →
  Forall (λ x, String.length x ≤ 200) texts →
  batchSize f ≤ 50 →
  withinBudget (batchSize f) (tasks f).
Proof.
  intros HI Hshort Hsize k. unfold maxCharsPerBatch.
  set (batch := JS.slice _ _ _).
  assert (Forall (λ t, taskLength t ≤ 200) batch) as Hall.
  { apply Forall_forall. intros t Ht.
    assert (t ∈ tasks f) as Hin
      by (eapply elem_of_sublist; [exact Ht|apply slice_sublist]).
    destruct (bi_tasks _ _ _ HI t Hin) as (x & Hx & -> & _).
    rewrite Forall_forall in Hshort. apply Hshort. by eapply list_elem_of_lookup_2. }
  apply charCount_bound in Hall.
  pose proof (slice_length_le (k * batchSize f) (k * batchSize f + batchSize f) (tasks f))
    as Hlen.
  fold batch in Hlen. nia.
Qed.

Lemma enterBatch_Complete texts c0 s f0 st s' :
  BatchInv texts c0 f0 →
  0 < batchSize f0 →
  (∃ k, position f0 = k * batchSize f0) →
  withinBudget (batchSize f0) (tasks f0) →
  (∀ j t, tasks f0 !! j = Some t → j < position f0 →
          ∃ v, results f0 !! taskIndex t = Some (Some v)) →
  enterBatch s "ja" "zh" f0 = (st, s') →
  BatchStateComplete texts st.
Proof.
  intros [L Hcached Htasks Hcover Hprom] Hsize [k Hk] Hbudget Hfilled Henter.
  destruct (enterBatch_spec _ _ _ _ Henter)
    as [[-> Hend]|(f & -> & Hlt & Hr & Ht & Hb & Hp & Hs & Hidx & Heff)]; simpl.
  - intros i Hi. rewrite <- L in Hi. apply lookup_lt_is_Some in Hi.
    assert (is_Some (texts !! i)) as [x Hx]
      by (apply lookup_lt_is_Some; rewrite <- L; by apply lookup_lt_is_Some).
    destruct (cachedSlot c0 "ja" "zh" x) as [v|] eqn:Hslot; [by eauto|].
    apply (Hcover i x Hx) in Hslot.
    apply list_elem_of_fmap in Hslot as (t & -> & Hin).
    apply list_elem_of_lookup in Hin as [j Hj].
    apply (Hfilled j t Hj). apply lookup_lt_Some in Hj. lia.
  - pose proof (Hbudget k) as Hfit. rewrite <- Hk in Hfit. specialize (Heff Hfit).
    constructor; rewrite ?Hr, ?Ht, ?Hb, ?Hp, ?Hs; try done; [by exists k| |].
    + intros j t Hj Hlt'. apply (Hfilled j t Hj). lia.
    + intros _. split; [done|]. rewrite Hidx, Heff. f_equal.
      unfold JS.slice at 1. rewrite Nat.sub_0_r, drop_0. apply take_ge.
      pose proof (slice_length_le (position f0) (position f0 + batchSize f0) (tasks f0)).
      lia.
Qed.

Lemma continueBatch_Complete texts c0 s f st s' :
  BatchInv texts c0 f →
  BatchComplete f →
  continueBatch s "ja" "zh" f = Some (st, s') →
  BatchStateComplete texts st.
Proof.
  intros HI [Hsize [k Hk] Hbudget Hfilled Hbatch]. unfold continueBatch.
  destruct (sleeping f) eqn:Hsleep.
  - intros [= Henter].
    eapply (enterBatch_Complete texts c0); [| | | | |exact Henter]; simpl; try done.
    + by apply BatchInv_frame.
    + exists (S k). lia.
  - destruct (Hbatch eq_refl) as [Heff Hidx].
    destruct (allSettled s (batchPromises f)) as [[e|batchResults]|] eqn:Hall; [| |done].
    { by intros [= <- <-]. }
    apply allSettled_indices in Hall.
    destruct (fillResults_spec batchResults (results f)) as (L' & _ & Hin & Hkeep).
    assert (∀ j t, tasks f !! j = Some t → j < position f + batchSize f →
                   ∃ v, fillResults (results f) batchResults !! taskIndex t
                        = Some (Some v)) as Hfilled'.
    { intros j t Hj Hlt. destruct (decide (j < position f)) as [Hold|Hnew].
      - destruct (Hfilled j t Hj) as [v Hv]; [lia|]. by eapply Hkeep.
      - apply Hin.
        + rewrite Hall, Hidx. apply list_elem_of_fmap_2.
          apply (slice_window_lookup _ _ _ j); [done|lia].
        + destruct (bi_tasks _ _ _ HI t) as (x & Hx & _);
            [by eapply list_elem_of_lookup_2|].
          rewrite (bi_length _ _ _ HI). by apply lookup_lt_Some in Hx. }
    destruct (Nat.ltb _ _).
    + intros [= <- <-]. simpl. constructor; simpl; try done. by exists k.
    + intros [= Henter].
      eapply (enterBatch_Complete texts c0); [| | | | |exact Henter]; simpl; try done.
      * by apply BatchInv_fill.
      * exists (S k). lia.
Qed.

Lemma batchRun_Complete texts c0 ls : ∀ st s st' s',
  BatchStateInv texts c0 st →
  BatchStateComplete texts st →
  batchRun "ja" "zh" (st, s) ls = Some (st', s') →
  BatchStateComplete texts st'.
Proof.
  induction ls as [|l ls IH]; intros st s st' s' HI HC; simpl.
  - by intros [= <- <-].
  - destruct l as [l'|]; unfold batchStep.
    + destruct (step s l') as [s1|]; [|done]. by apply IH.
    + destruct st as [f|results|e]; try done.
      destruct (continueBatch s "ja" "zh" f) as [[st1 s1]|] eqn:Hcont; [|done].
      apply IH; [by eapply continueBatch_BatchInv|by eapply continueBatch_Complete].
Qed.

(** When no text has more than 200 code units (so that no sub-batch of
    at most 50 texts exceeds the budget of 10000), [translateBatch] leaves
    no slot unfilled: whatever the order of the answers, the array it
    returns has the length of the input and holds a string at every
    index. *)
Theorem translateBatch_fills_every_slot s texts ls results s' :
  Forall (λ x, String.length x ≤ 200) texts →
  batchRun "ja" "zh" (translateBatch s texts "ja" "zh") ls = Some (BatchDone results, s') →
  length results = length texts ∧
  ∀ i, i < length texts → ∃ v, results !! i = Some (Some v).
Proof.
  intros Hshort.
  destruct (translateBatch_frame s texts) as (c & f0 & -> & HI & Hpos & Hsleep & Hsize).
  destruct (enterBatch (withCache s c) "ja" "zh" f0) as [st0 s0] eqn:Henter.
  intros Hrun.
  pose proof (dynamicBatchSize_bounds (length texts) (tasks f0)) as Hbounds.
  pose proof (enterBatch_BatchInv _ _ _ _ _ _ HI Henter) as HI0.
  assert (BatchStateComplete texts st0) as HC0.
  { eapply (enterBatch_Complete texts (resultCache s)); [done| | | | |exact Henter].
    - lia.
    - exists 0. lia.
    - apply (short_texts_withinBudget texts (resultCache s)); [done|done|lia].
    - intros j t _ Hj. lia. }
  pose proof (batchRun_BatchInv _ _ _ _ _ _ _ HI0 Hrun) as [L _].
  pose proof (batchRun_Complete _ _ _ _ _ _ _ HI0 HC0 Hrun) as Hall.
  done.
Qed.

(** The theorem on four texts, every call succeeding. *)
Lemma translateBatch_fills_every_slot_witness :
  ∃ results s',
    batchRun "ja" "zh" (translateBatch Service.new fourTexts "ja" "zh")
             (everyCallSucceeds 4) = Some (BatchDone results, s') ∧
    ∃ v, results !! 3 = Some (Some v).
Proof.
  destruct (batchRun "ja" "zh" (translateBatch Service.new fourTexts "ja" "zh")
                     (everyCallSucceeds 4)) as [[[f|results|e] s']|] eqn:Hrun;
    try (exfalso; revert Hrun; vm_compute; discriminate).
  exists results, s'. split; [reflexivity|].
  apply (proj2 (translateBatch_fills_every_slot Service.new fourTexts _ _ _
                  ltac:(repeat constructor; simpl; lia) Hrun)).
  simpl. lia.
Defined.

(** *** A batch that is entirely cached *)

(** When every text has a non-empty cached translation, [translateBatch]
    returns at once with the cached translations in the order of the
    input; nothing is queued and no request is made: only the order of
    use of the cache entries changes. *)
Theorem translateBatch_all_cached s texts :
  Forall (λ x, JS.truthy_opt (LRU.cache (resultCache s) !! LRU.getKey "ja" "zh" x) = true)
         texts →
  ∃ c, translateBatch s texts "ja" "zh"
       = (BatchDone ((λ x, LRU.cache (resultCache s) !! LRU.getKey "ja" "zh" x) <$> texts),
          withCache s c) ∧
       LRU.cache c = LRU.cache (resultCache s).
Proof.
  intros Hall. unfold translateBatch.
  change (supported "ja" "zh") with true. simpl negb. cbv iota.
  destruct (collect _ _ _ _ _ _ _) as [[c results] tasks0] eqn:Hcollect.
  pose proof (collect_tasks _ _ _ _ _ _ _ _ _ _ Hcollect) as [Hc Htasks].
  apply collect_spec in Hcollect as (L & _ & Hfilled & _);
    [|by rewrite length_replicate].
  rewrite length_replicate in L. simpl in Htasks.
  assert (tasks0 = []) as ->.
  { apply (fmap_nil_inv taskText). rewrite Htasks. clear -Hall.
    induction Hall as [|x texts' Hx _ IH]; [done|].
    rewrite filter_cons, decide_False by (rewrite Hx; done). exact IH. }
  exists c. split; [|done]. unfold enterBatch. simpl. f_equal. f_equal.
  apply list_eq. intros i. rewrite list_lookup_fmap.
  destruct (texts !! i) as [x|] eqn:Hx; simpl.
  - rewrite Forall_forall in Hall.
    pose proof (Hall x (list_elem_of_lookup_2 _ _ _ Hx)) as Htr.
    destruct (LRU.cache (resultCache s) !! LRU.getKey "ja" "zh" x) as [v|] eqn:Hv;
      [|done].
    apply (Hfilled i x v Hx). unfold cachedSlot. by rewrite Hv, Htr.
  - apply lookup_ge_None. rewrite L. by apply lookup_ge_None in Hx.
Qed.

(** The theorem on a service that has translated "a": the batch of "a"
    twice is served from the cache. *)
Lemma translateBatch_all_cached_witness :
  ∃ s c, run Service.new [Translate (mkOptions "ja" "zh" "a");
                          AttemptDone 0 (answer "A"); Resume 0] = Some s ∧
         translateBatch s ["a"; "a"] "ja" "zh"
         = (BatchDone [Some "A"; Some "A"], withCache s c).
Proof.
  destruct (run Service.new [Translate (mkOptions "ja" "zh" "a");
                             AttemptDone 0 (answer "A"); Resume 0]) as [s|] eqn:Hrun.
  - assert (LRU.cache (resultCache s) !! LRU.getKey "ja" "zh" "a" = Some "A") as Hk.
    { revert Hrun. vm_compute. by intros [= <-]. }
    destruct (translateBatch_all_cached s ["a"; "a"]) as (c & Hbatch & _).
    { repeat constructor; by rewrite Hk. }
    exists s, c. split; [reflexivity|]. rewrite Hbatch. simpl. by rewrite Hk.
  - exfalso. revert Hrun. vm_compute. discriminate.
Defined.

End BatchMore.

(** ** More about the session controller *)

Section HookMore.

Import Hook.

Implicit Types (w : World) (ses : Session) (sid idx : nat).

(** *** Only the text of a record is written *)

Lemma writeText_timing ses idx v (heap : gmap nat SubtitleLine) (ref : nat) :
  timing <$> writeText ses idx v heap !! ref = timing <$> heap !! ref.
Proof.
  unfold writeText. destruct (translatedSubtitles ses !! idx) as [r|]; [|done].
  destruct (decide (r = ref)) as [->|Hne].
  - rewrite lookup_alter_eq. by destruct (heap !! ref).
  - by rewrite lookup_alter_ne.
Qed.

Lemma startItem_timing sid w ses idx x w' ses' (ref : nat) :
  startItem sid w ses idx x = (w', ses') →
  timing <$> lines w' !! ref = timing <$> lines w !! ref.
Proof.
  unfold startItem. destruct (isCancelledRef w); [by intros [= <- <-]|].
  destruct (translationCacheRef w !! _) as [cached|].
  - intros [= <- <-]. simpl. apply writeText_timing.
  - destruct (Service.translate _ _) as [r svc]. by intros [= <- <-].
Qed.

Lemma startItems_timing sid (batch : list nat) (ref : nat) : ∀ w ses i0 w' ses',
  startItems sid w ses i0 batch = (w', ses') →
  timing <$> lines w' !! ref = timing <$> lines w !! ref.
Proof.
  induction batch as [|r batch IH]; intros w ses i0 w' ses'; simpl.
  - by intros [= <- <-].
  - destruct (startItem sid w ses i0 (textAt (lines w) r)) as [w1 ses1] eqn:Hitem.
    intros Hrest. rewrite (IH _ _ _ _ _ Hrest). by eapply startItem_timing.
Qed.

Lemma enterWave_timing sid w ses (ref : nat) :
  timing <$> lines (enterWave sid w ses) !! ref = timing <$> lines w !! ref.
Proof.
  unfold enterWave. destruct (_ && _).
  - destruct (startItems _ _ _ _ _) as [w' ses'] eqn:Hitems. simpl.
    by eapply startItems_timing.
  - by destruct (isCancelledRef w).
Qed.

Lemma step_timing w l w' (ref : nat) :
  step w l = Some w' → timing <$> lines w' !! ref = timing <$> lines w !! ref.
Proof.
  destruct l as [l'|subs target| |sid idx|sid]; simpl.
  - destruct (Service.step _ _); [|done]. by intros [= <-].
  - intros [= <-]. unfold translateSubtitles. destruct subs; [done|].
    by rewrite enterWave_timing.
  - by intros [= <-].
  - destruct (sessions w !! sid) as [ses|]; [|done].
    destruct (list_find _ _) as [[j it]|]; [|done].
    destruct (Service.observed _ _) as [outcome|]; [|done].
    intros [= <-]. simpl. unfold finishItem.
    destruct outcome as [v|e]; [destruct (isCancelledRef w)|]; simpl;
      try done; apply writeText_timing.
  - destruct (sessions w !! sid) as [ses|]; [|done].
    destruct (returned ses); [done|]. destruct (pending ses); [|done].
    intros [= <-]. by rewrite enterWave_timing.
Qed.

(** Whatever is called and whatever the network does, the hook changes
    nothing but the text of the subtitle objects: their identifiers and
    their times stay as they were, and no object is added or removed. *)
Theorem hook_writes_only_text heap ls w (ref : nat) :
  run (mount heap) ls = Some w →
  timing <$> lines w !! ref = timing <$> heap !! ref.
Proof.
  change heap with (lines (mount heap)) at 2.
  generalize (mount heap). clear heap. intros w0. revert w0.
  induction ls as [|l ls IH]; intros w0; simpl.
  - by intros [= <-].
  - destruct (step w0 l) as [w1|] eqn:Hstep; [|done].
    intros Hrun. rewrite (IH _ Hrun). by eapply step_timing.
Qed.

(** The theorem on a record that is translated: its text changes, its
    identifier and its times do not. *)
Lemma hook_writes_only_text_witness :
  ∃ w, run (mount twoLines)
           [TranslateSubtitles [0] "zh"; Env (Service.AttemptDone 0 (Service.answer "A"));
            Env (Service.Resume 0); ItemDone 0 0] = Some w ∧
       textAt (lines w) 0 = "A" ∧
       timing <$> lines w !! 0 = Some (1%Z, "00:00:01,000", "00:00:02,000").
Proof.
  destruct (run (mount twoLines)
              [TranslateSubtitles [0] "zh"; Env (Service.AttemptDone 0 (Service.answer "A"));
               Env (Service.Resume 0); ItemDone 0 0]) as [w|] eqn:Hrun.
  - exists w. split; [reflexivity|].
    rewrite (hook_writes_only_text twoLines _ w 0 Hrun).
    split; [|reflexivity]. revert Hrun. vm_compute. by intros [= <-].
  - exfalso. revert Hrun. vm_compute. discriminate.
Defined.

(** *** The width of a wave *)

Lemma bounded_NoDup_length (l : list nat) (a n : nat) :
  NoDup l → (∀ x, x ∈ l → a ≤ x < a + n) → length l ≤ n.
Proof.
  intros Hnd Hin. transitivity (length (seq a n)); [|by rewrite length_seq].
  apply submseteq_length, NoDup_submseteq; [done|].
  intros x Hx. apply elem_of_seq. by apply Hin.
Qed.

Lemma startItem_pending sid w ses idx x w' ses' :
  startItem sid w ses idx x = (w', ses') →
  sessions w' = sessions w ∧ position ses' = position ses ∧
  (pending ses' = pending ses ∨
   ∃ r, pending ses' = pending ses ++ [{| index := idx; itemText := x; awaited := r |}]).
Proof.
  unfold startItem. destruct (isCancelledRef w); [intros [= <- <-]; auto|].
  destruct (translationCacheRef w !! _) as [cached|].
  - intros [= <- <-]. simpl. auto.
  - destruct (Service.translate _ _) as [r svc]. intros [= <- <-]. simpl. eauto.
Qed.

Lemma startItems_pending sid (batch : list nat) : ∀ w ses i0 w' ses',
  startItems sid w ses i0 batch = (w', ses') →
  sessions w' = sessions w ∧ position ses' = position ses ∧
  ∃ new, pending ses' = pending ses ++ new ∧
         (index <$> new) `sublist_of` seq i0 (length batch).
Proof.
  induction batch as [|r batch IH]; intros w ses i0 w' ses'; simpl.
  - intros [= <- <-]. split; [done|]. split; [done|]. exists []. by rewrite app_nil_r.
  - destruct (startItem sid w ses i0 (textAt (lines w) r)) as [w1 ses1] eqn:Hitem.
    intros Hrest.
    destruct (startItem_pending _ _ _ _ _ _ _ Hitem) as (S1 & P1 & Hcase).
    destruct (IH _ _ _ _ _ Hrest) as (S2 & P2 & new & Hnew & Hsub).
    split; [congruence|]. split; [congruence|].
    destruct Hcase as [E|[r0 E]]; rewrite E in Hnew.
    + exists new. split; [done|]. by apply sublist_cons.
    + eexists (_ :: new). rewrite <- app_assoc in Hnew. split; [exact Hnew|].
      simpl. by apply sublist_skip.
Qed.

Lemma withSession_Forall (P : Session → Prop) w sid ses :
  Forall P (sessions w) → P ses → Forall P (sessions (withSession w sid ses)).
Proof.
  intros Hall Hses. simpl. destruct (Nat.ltb _ _).
  - by apply Forall_insert.
  - apply Forall_app. split; [done|]. by constructor.
Qed.

Lemma enterWave_inWave sid w ses :
  Forall inWave (sessions w) → pending ses = [] →
  Forall inWave (sessions (enterWave sid w ses)).
Proof.
  intros Hall Hnone. unfold enterWave. destruct (_ && _).
  - destruct (startItems _ _ _ _ _) as [w' ses'] eqn:Hitems.
    destruct (startItems_pending _ _ _ _ _ _ _ Hitems) as (Hs & Hp & new & Hnew & Hsub).
    rewrite Hnone in Hnew. simpl in Hnew.
    apply withSession_Forall; [by rewrite Hs|].
    unfold inWave. rewrite Hnew, Hp. split.
    + eapply sublist_NoDup; [apply NoDup_seq|exact Hsub].
    + intros it Hit. apply (list_elem_of_fmap_2 index) in Hit.
      apply (elem_of_sublist _ _ _ Hit), elem_of_seq in Hsub.
      pose proof (slice_length_le (position ses) (position ses + maxConcurrent)
                    (subtitles ses)). lia.
  - destruct (isCancelledRef w); apply withSession_Forall; simpl; try done.
    all: unfold inWave; simpl; rewrite Hnone; split; [constructor|by intros it ?%elem_of_nil].
Qed.

Lemma step_inWave w l w' :
  Forall inWave (sessions w) → step w l = Some w' → Forall inWave (sessions w').
Proof.
  intros Hall. destruct l as [l'|subs target| |sid idx|sid]; simpl.
  - destruct (Service.step _ _); [|done]. by intros [= <-].
  - intros [= <-]. unfold translateSubtitles. destruct subs; [done|].
    by apply enterWave_inWave.
  - by intros [= <-].
  - destruct (sessions w !! sid) as [ses|] eqn:Hses; [|done].
    destruct (list_find _ _) as [[j it]|]; [|done].
    destruct (Service.observed _ _) as [outcome|]; [|done].
    intros [= <-]. apply withSession_Forall.
    + unfold finishItem. destruct outcome as [v|e]; [destruct (isCancelledRef w)|]; done.
    + rewrite Forall_forall in Hall.
      destruct (Hall ses (list_elem_of_lookup_2 _ _ _ Hses)) as [Hnd Hin].
      unfold inWave, withoutItem. simpl. split.
      * eapply sublist_NoDup; [exact Hnd|]. apply fmap_sublist, sublist_filter.
      * intros it' [_ Hit']%list_elem_of_filter. by apply Hin.
  - destruct (sessions w !! sid) as [ses|]; [|done].
    destruct (returned ses); [done|]. destruct (pending ses); [|done].
    intros [= <-]. by apply enterWave_inWave.
Qed.

(** Whatever is called and whatever the network does, an invocation of
    [translateSubtitles] never waits for more than five translations at a
    time: those of its current wave. *)
Theorem session_waits_for_at_most_five heap ls w ses :
  run (mount heap) ls = Some w →
  ses ∈ sessions w →
  length (pending ses) ≤ 5 ∧
  ∀ it, it ∈ pending ses → position ses ≤ index it < position ses + 5.
Proof.
  intros Hrun Hses.
  assert (∀ ls w0 w1, Forall inWave (sessions w0) → run w0 ls = Some w1 →
                      Forall inWave (sessions w1)) as Hall.
  { clear. induction ls as [|l ls IH]; intros w0 w1 H0; simpl.
    - by intros [= <-].
    - destruct (step w0 l) as [w2|] eqn:Hstep; [|done].
      apply IH. by eapply step_inWave. }
  specialize (Hall ls (mount heap) w (Forall_nil_2 _) Hrun).
  rewrite Forall_forall in Hall. destruct (Hall ses Hses) as [Hnd Hin].
  split; [|exact Hin].
  rewrite <- (length_fmap index).
  apply (bounded_NoDup_length _ (position ses)); [done|].
  intros x (it & -> & Hit)%list_elem_of_fmap. by apply Hin.
Qed.

(** The theorem on six records: five are handed out, the sixth waits for
    the next wave. *)
Lemma session_waits_for_at_most_five_witness :
  ∃ w ses, run (mount twoLines) [TranslateSubtitles [0; 1; 0; 1; 0; 1] "zh"] = Some w ∧
           sessions w !! 0 = Some ses ∧
           length (pending ses) = 5 ∧ length (pending ses) ≤ 5.
Proof.
  destruct (run (mount twoLines) [TranslateSubtitles [0; 1; 0; 1; 0; 1] "zh"])
    as [w|] eqn:Hrun; [|exfalso; revert Hrun; vm_compute; discriminate].
  destruct (sessions w !! 0) as [ses|] eqn:Hses.
  - exists w, ses. split; [reflexivity|]. split; [exact Hses|].
    pose proof (proj1 (session_waits_for_at_most_five twoLines _ w ses Hrun
                         (list_elem_of_lookup_2 _ _ _ Hses))) as Hle.
    split; [|exact Hle].
    revert Hses. revert Hrun. vm_compute. intros [= <-]. vm_compute.
    by intros [= <-].
  - exfalso. revert Hses. revert Hrun. vm_compute. intros [= <-]. vm_compute.
    discriminate.
Defined.

End HookMore.

(** ** Writing subtitles out *)

Section SrtFacts.

Import Srt.

Lemma block_truthy (id startTime endTime text : string) :
  JS.truthy (block id startTime endTime text) = true.
Proof. unfold block. apply truthy_append_r. reflexivity. Qed.

Lemma exportBlock_toObject index (l : Hook.SubtitleLine) :
  Hook.startTime l ≠ "" → Hook.endTime l ≠ "" →
  exportBlock index (toObject l)
  = Some (block (ofZ (Z.of_nat (index + 1))) (Hook.startTime l) (Hook.endTime l)
                (Hook.text l)).
Proof.
  intros Hstart Hend. unfold exportBlock.
  assert (isMainSubtitleFormat (toObject l) = true) as -> by reflexivity.
  assert (prop (toObject l) "startTime" = VStr (Hook.startTime l)) as -> by reflexivity.
  assert (prop (toObject l) "endTime" = VStr (Hook.endTime l)) as -> by reflexivity.
  assert (prop (toObject l) "text" = VStr (Hook.text l)) as -> by reflexivity.
  simpl. rewrite (proj2 (truthy_iff _) Hstart), (proj2 (truthy_iff _) Hend). simpl.
  do 2 f_equal. unfold or. simpl. by destruct (Hook.text l).
Qed.

Lemma export_blocks (subs : list Hook.SubtitleLine) : ∀ f g,
  (∀ i, f i = exportBlock (g i)) →
  Forall (λ l, Hook.startTime l ≠ "" ∧ Hook.endTime l ≠ "") subs →
  omap (λ b, if JS.truthy_opt b then b else None) (imap f (toObject <$> subs))
  = (λ sub, block (ofZ (Hook.id sub)) (Hook.startTime sub) (Hook.endTime sub)
                  (Hook.text sub))
    <$> imap (λ index sub,
                {| Hook.id := Z.of_nat (g index + 1);
                   Hook.startTime := Hook.startTime sub;
                   Hook.endTime := Hook.endTime sub; Hook.text := Hook.text sub |}) subs.
Proof.
  induction subs as [|l subs IH]; intros f g Hf Hall; [done|].
  apply Forall_cons in Hall as [[Hstart Hend] Hall]. simpl.
  rewrite Hf, exportBlock_toObject by done. simpl. rewrite block_truthy. f_equal.
  apply (IH (f ∘ S) (g ∘ S)); [|done]. intros i. simpl. apply Hf.
Qed.

(** On the records of the application whose times are not empty,
    [exportSrtContent] writes what [generateSRT] writes: the blocks in the
    order of the records, numbered from 1 whatever their identifiers, and
    separated by an empty line. *)
Theorem exportSrtContent_agrees_with_generateSRT (subs : list Hook.SubtitleLine) :
  Forall (λ l, Hook.startTime l ≠ "" ∧ Hook.endTime l ≠ "") subs →
  exportSrtContent (toObject <$> subs) = generateSRT subs.
Proof.
  intros Hall. destruct subs as [|l subs]; [done|].
  unfold exportSrtContent, generateSRT. rewrite fmap_cons. f_equal.
  apply (export_blocks (l :: subs) exportBlock id); [done|done].
Qed.

(** The theorem on two records. *)
Lemma exportSrtContent_agrees_with_generateSRT_witness :
  exportSrtContent (toObject <$> [Hook.line 7 "a"; Hook.line 9 "b"])
  = generateSRT [Hook.line 7 "a"; Hook.line 9 "b"]
  ∧ generateSRT [Hook.line 7 "a"; Hook.line 9 "b"]
    = block "1" "00:00:01,000" "00:00:02,000" "a" +:+ LF +:+ LF
      +:+ block "2" "00:00:01,000" "00:00:02,000" "b".
Proof.
  split; [|reflexivity].
  apply exportSrtContent_agrees_with_generateSRT.
  repeat constructor; discriminate.
Defined.

End SrtFacts.

(** ** Promises and answers *)

Section AnswerFacts.

Import Service.

Implicit Types (s : TranslationService) (o : TranslationOptions).

(** A settled promise keeps its outcome. *)
Lemma settled_stays s l s' p outcome :
  Inv s → step s l = Some s' →
  promises s !! p = Some (Some outcome) →
  promises s' !! p = Some (Some outcome).
Proof.
  intros HI Hstep Hp.
  assert (∀ q out, promises s !! q = Some None →
                   promises (settle s q out) !! p = Some (Some outcome)) as Hsettle.
  { intros q out Hq. rewrite settle_promises.
    rewrite list_lookup_insert_ne; [done|]. intros ->. congruence. }
  destruct l as [o|q out|q| |n]; simpl in Hstep.
  - injection Hstep as <-.
    destruct (translate_cases s o)
      as [Hs|Hs Hb|v Hs Hb Hv Ht|q Hs Hb Hm Hq|Hs Hb Hm Hq]; simpl; try done.
    rewrite (same_promises _ _ (startProcessingQueue_same _)). simpl.
    by apply lookup_app_l_Some.
  - unfold attemptDone in Hstep.
    destruct (list_find _ (workers s)) as [[i w]|] eqn:Hfind; [|done].
    apply list_find_elem in Hfind as [Hw Hq].
    assert (promises s !! q = Some None) as Hpending.
    { rewrite <- Hq. apply (inv_job s HI). unfold jobs. apply elem_of_app. right.
      by apply list_elem_of_fmap_2. }
    destruct (translateWithGoogleAPI _ _) as [v|e].
    + injection Hstep as <-. by apply Hsettle.
    + destruct (Nat.leb _ _); injection Hstep as <-; [done|by apply Hsettle].
  - unfold resume in Hstep. destruct (list_find _ _) as [[i f]|]; [|done].
    destruct (promises s !! q) as [[out'|]|]; try done.
    by injection Hstep as <-.
  - by injection Hstep as <-.
  - injection Hstep as <-. unfold setMaxConcurrent.
    by rewrite (same_promises _ _ (startProcessingQueue_same _)).
Qed.

(** What a caller has observed stays observed. *)
Lemma observed_stable s l s' r outcome :
  Inv s → step s l = Some s' →
  observed s r = Some outcome → observed s' r = Some outcome.
Proof.
  intros HI Hstep. destruct r as [e|v|p]; simpl; try done.
  case_bool_decide as Hwait; [done|].
  destruct (promises s !! p) as [[out|]|] eqn:Hp; simpl; try done.
  intros [= ->].
  rewrite (settled_stays _ _ _ _ _ HI Hstep Hp). simpl.
  rewrite bool_decide_eq_false_2; [done|].
  intros (f & Hf & Hfp)%Exists_exists.
  destruct (step_frames _ _ _ Hstep) as [_ Hframes].
  destruct (Hframes f Hf) as [Hold|Hnew].
  - apply Hwait, Exists_exists. eauto.
  - apply lookup_lt_Some in Hp. lia.
Qed.

Lemma translate_promiseCache s o k p :
  promiseCache s !! k = Some p → promiseCache (translate s o).2 !! k = Some p.
Proof.
  intros Hk.
  destruct (translate_cases s o)
    as [Hs|Hs Hb|v Hs Hb Hv Ht|q Hs Hb Hm Hq|Hs Hb Hm Hq]; simpl; try done.
  rewrite (same_promiseCache _ _ (startProcessingQueue_same _)). simpl.
  rewrite lookup_insert_ne; [done|]. intros <-. congruence.
Qed.

Lemma translate_answered s (x : string) :
  answered (translate s (mkOptions "ja" "zh" x)).2 x
           (translate s (mkOptions "ja" "zh" x)).1.
Proof.
  unfold answered.
  destruct (translate_cases s (mkOptions "ja" "zh" x))
    as [Hs|Hs Hb|v Hs Hb Hv Ht|q Hs Hb Hm Hq|Hs Hb Hm Hq]; simpl in *.
  - vm_compute in Hs. discriminate.
  - by rewrite Hb.
  - rewrite Hb, get_cache. unfold keyOf in Hv. simpl in Hv. rewrite Hv.
    by destruct v.
  - rewrite Hb. unfold keyOf in Hm, Hq. simpl in Hm, Hq.
    destruct (LRU.cache (resultCache s) !! _) as [[|a v]|]; try done; eauto.
  - rewrite Hb. rewrite (same_cache _ _ (startProcessingQueue_same _)).
    rewrite (same_promiseCache _ _ (startProcessingQueue_same _)). simpl.
    unfold keyOf in Hm |- *. simpl in Hm |- *.
    destruct (LRU.cache (resultCache s) !! _) as [[|a v]|]; try done;
      eexists; (split; [reflexivity|apply lookup_insert_eq]).
Qed.

Lemma answered_translate s o (x : string) r :
  answered s x r → answered (translate s o).2 x r.
Proof.
  unfold answered. destruct (JS.allWhiteSpace x); [done|].
  rewrite translate_cache.
  destruct (LRU.cache (resultCache s) !! _) as [[|a v]|]; try done.
  all: intros (p & -> & Hp); exists p; split; [done|]; by apply translate_promiseCache.
Qed.

Lemma answered_once s (x : string) r1 r2 :
  answered s x r1 → answered s x r2 → r1 = r2.
Proof.
  unfold answered. destruct (JS.allWhiteSpace x); [congruence|].
  destruct (LRU.cache (resultCache s) !! _) as [[|a v]|]; try congruence.
  all: intros (p1 & -> & H1) (p2 & -> & H2); congruence.
Qed.

End AnswerFacts.

(** ** What the callers of [translate] observe *)

Section ObservedFacts.

Import Service.

Implicit Types (s : TranslationService) (o : TranslationOptions).

Lemma observed_run ls : ∀ s s' r outcome,
  Inv s → run s ls = Some s' →
  observed s r = Some outcome → observed s' r = Some outcome.
Proof.
  induction ls as [|l ls IH]; intros s s' r outcome HI; simpl.
  - by intros [= <-].
  - destruct (step s l) as [s1|] eqn:Hstep; [|done]. intros Hrun Hobs.
    eapply (IH s1); [by eapply step_Inv|done|]. by eapply observed_stable.
Qed.

(** What a caller of [translate] has observed, a value or an error, is
    what every caller sharing the answer observes from then on, whatever
    happens in the service afterwards. *)
Theorem observed_outcome_is_final ls s ls' s' r outcome :
  run Service.new ls = Some s →
  run s ls' = Some s' →
  observed s r = Some outcome →
  observed s' r = Some outcome.
Proof.
  intros Hrun Hrun'. apply observed_run with (ls := ls'); [|done].
  by eapply run_Inv; [apply Inv_new|].
Qed.

(** The theorem on the request for "a": its answer stays "A" while "b" is
    requested and the cache is cleared. *)
Lemma observed_outcome_is_final_witness :
  ∃ s s',
    run Service.new [Translate (mkOptions "ja" "zh" "a");
                     AttemptDone 0 (answer "A"); Resume 0] = Some s ∧
    run s [Translate (mkOptions "ja" "zh" "b"); ClearCache] = Some s' ∧
    observed s' (Awaits 0) = Some (Fulfilled "A").
Proof.
  assert (match run Service.new [Translate (mkOptions "ja" "zh" "a");
                                 AttemptDone 0 (answer "A"); Resume 0] with
          | Some s =>
              match run s [Translate (mkOptions "ja" "zh" "b"); ClearCache] with
              | Some s' => observed s (Awaits 0)
              | None => None
              end
          | None => None
          end = Some (Fulfilled "A")) as E by (vm_compute; reflexivity).
  destruct (run Service.new _) as [s|] eqn:Hrun; [|done].
  destruct (run s _) as [s'|] eqn:Hrun'; [|done].
  exists s, s'. split; [reflexivity|]. split; [exact Hrun'|].
  exact (observed_outcome_is_final _ s _ s' _ _ Hrun Hrun' E).
Defined.

(** For a text that is not blank, [translate] never gives an empty
    string: what a caller observes is a non-empty translation (at worst
    the original text). *)
Theorem translation_is_never_empty ls s (x : string) ls' s' v :
  run Service.new ls = Some s →
  JS.allWhiteSpace x = false →
  run (translate s (mkOptions "ja" "zh" x)).2 ls' = Some s' →
  observed s' (translate s (mkOptions "ja" "zh" x)).1 = Some (Fulfilled v) →
  JS.truthy v = true.
Proof.
  intros Hrun Hblank Hrun'.
  pose proof (run_Inv _ _ _ Inv_new Hrun) as HI.
  pose proof (run_Inv _ _ _ (translate_Inv s (mkOptions "ja" "zh" x) HI) Hrun') as HI'.
  destruct (translate_cases s (mkOptions "ja" "zh" x))
    as [Hs|Hs Hb|w Hs Hb Hv Ht|q Hs Hb Hm Hq|Hs Hb Hm Hq]; simpl in *;
    try congruence; try (by intros [= <-]).
  - case_bool_decide; [done|].
    destruct (promises s' !! q) as [[out|]|] eqn:Hp; simpl; try done.
    intros [= ->]. by eapply (inv_values s' HI').
  - case_bool_decide; [done|].
    destruct (promises s' !! length (promises s)) as [[out|]|] eqn:Hp; simpl; try done.
    intros [= ->]. by eapply (inv_values s' HI').
Qed.

(** The theorem on a remote answer that carries an empty translation: the
    caller gets the original text. *)
Lemma translation_is_never_empty_witness :
  ∃ s', run (translate Service.new (mkOptions "ja" "zh" "a")).2
            [AttemptDone 0 (answer ""); Resume 0] = Some s' ∧
        observed s' (Awaits 0) = Some (Fulfilled "a") ∧ JS.truthy "a" = true.
Proof.
  destruct (run (translate Service.new (mkOptions "ja" "zh" "a")).2
                [AttemptDone 0 (answer ""); Resume 0]) as [s'|] eqn:Hrun;
    [|exfalso; revert Hrun; vm_compute; discriminate].
  assert (observed s' (Awaits 0) = Some (Fulfilled "a")) as Hobs.
  { revert Hrun. vm_compute. by intros [= <-]. }
  exists s'. split; [reflexivity|]. split; [exact Hobs|].
  exact (translation_is_never_empty [] Service.new "a" _ s' "a" eq_refl eq_refl Hrun Hobs).
Defined.

(** *** A batch fails as a whole *)

Lemma allSettled_rejected s (ps : list (nat * CallResult)) i r e :
  (i, r) ∈ ps → observed s r = Some (Rejected e) →
  ∃ e' i' r', allSettled s ps = Some (inl e') ∧
              (i', r') ∈ ps ∧ observed s r' = Some (Rejected e').
Proof.
  induction ps as [|[j q] ps IH]; [by intros ?%elem_of_nil|].
  intros [[= <- <-]|Hin]%elem_of_cons Hobs; simpl.
  - rewrite Hobs. exists e, i, r. split; [done|]. split; [by left|done].
  - destruct (IH Hin Hobs) as (e' & i' & r' & Hall & Hin' & Hobs').
    rewrite Hall.
    destruct (observed s q) as [[v|e0]|] eqn:Hq.
    + exists e', i', r'. split; [done|]. split; [by right|done].
    + exists e0, j, q. split; [done|]. split; [by left|done].
    + exists e', i', r'. split; [done|]. split; [by right|done].
Qed.

(** When one call of a sub-batch has failed, [translateBatch] fails with
    the error of a failed call, whatever the other calls gave or will
    give: it returns no array, not even of the texts already translated. *)
Theorem translateBatch_fails_as_a_whole s f i r e :
  sleeping f = false →
  (i, r) ∈ batchPromises f →
  observed s r = Some (Rejected e) →
  ∃ e' i' r', continueBatch s "ja" "zh" f = Some (BatchFailed e', s) ∧
              (i', r') ∈ batchPromises f ∧ observed s r' = Some (Rejected e').
Proof.
  intros Hawake Hin Hobs.
  destruct (allSettled_rejected s _ i r e Hin Hobs) as (e' & i' & r' & Hall & Hin' & Hobs').
  exists e', i', r'. split; [|done]. unfold continueBatch. by rewrite Hawake, Hall.
Qed.

(** The theorem on two texts, the second of which fails. *)
Lemma translateBatch_fails_as_a_whole_witness :
  ∃ f s e, batchRun "ja" "zh" (translateBatch Service.new ["a"; "b"] "ja" "zh")
                    secondTextFails = Some (BatchRunning f, s) ∧
           continueBatch s "ja" "zh" f = Some (BatchFailed e, s).
Proof.
  assert (match batchRun "ja" "zh" (translateBatch Service.new ["a"; "b"] "ja" "zh")
                         secondTextFails with
          | Some (BatchRunning f, s) =>
              Some (sleeping f, batchPromises f, observed s (Awaits 1))
          | _ => None
          end = Some (false, [(0, Awaits 0); (1, Awaits 1)],
                      Some (Rejected (RetriesExhausted FetchFailed)))) as E
    by (vm_compute; reflexivity).
  destruct (batchRun _ _ _ _) as [[[f|results|e] s]|]; try done.
  injection E as Hawake Hps Hobs.
  destruct (translateBatch_fails_as_a_whole s f 1 (Awaits 1)
              (RetriesExhausted FetchFailed) Hawake) as (e & _ & _ & H & _).
  - rewrite Hps. right. by left.
  - exact Hobs.
  - by exists f, s, e.
Defined.

End ObservedFacts.

(** ** The records a session has translated *)

Section HookSuccess.

Import Hook.

Local Arguments failedIn : simpl never.

Implicit Types (w : World) (ses : Session) (sid idx : nat).

Lemma app_cons (a : ascii) (x y : string) : String a x +:+ y = String a (x +:+ y).
Proof. reflexivity. Qed.

Lemma app_length (x y : string) :
  String.length (x +:+ y) = String.length x + String.length y.
Proof.
  induction x as [|a x IH]; [done|]. rewrite app_cons. simpl. by rewrite IH.
Qed.

Lemma app_inj_r (x y z : string) : x +:+ z = y +:+ z → x = y.
Proof.
  revert y. induction x as [|a x IH]; intros [|b y] Heq; [done| | |].
  - apply (f_equal String.length) in Heq. rewrite !app_length in Heq.
    simpl in Heq. lia.
  - apply (f_equal String.length) in Heq. rewrite !app_length in Heq.
    simpl in Heq. lia.
  - rewrite !app_cons in Heq. injection Heq as -> Heq. f_equal. by apply IH.
Qed.

Lemma cacheKeyOf_inj (x y target : string) :
  cacheKeyOf x target = cacheKeyOf y target → x = y.
Proof. unfold cacheKeyOf. apply app_inj_r. Qed.

(** *** Items start *)

Lemma timing_is_Some (heap heap' : gmap nat SubtitleLine) (ref : nat) :
  timing <$> heap' !! ref = timing <$> heap !! ref →
  is_Some (heap !! ref) → is_Some (heap' !! ref).
Proof.
  intros Heq [l Hl]. rewrite Hl in Heq. by destruct (heap' !! ref); eauto.
Qed.

Lemma writeText_new ses idx v (heap : gmap nat SubtitleLine) (ref : nat) :
  translatedSubtitles ses !! idx = Some ref →
  is_Some (heap !! ref) →
  textAt (writeText ses idx v heap) ref = v.
Proof.
  intros Hidx [l Hl]. unfold writeText, textAt. rewrite Hidx, lookup_alter_eq, Hl. done.
Qed.

Lemma startItem_success sid w ses idx x w' ses' :
  isCancelledRef w = false →
  Service.Inv (service w) →
  startItem sid w ses idx x = (w', ses') →
  translationCacheRef w' = translationCacheRef w ∧
  targetLanguage ses' = targetLanguage ses ∧
  Service.Inv (service w') ∧
  (∀ y r, Service.answered (service w) y r → Service.answered (service w') y r) ∧
  ((∃ cached,
      translationCacheRef w !! cacheKeyOf x (targetLanguage ses) = Some cached ∧
      pending ses' = pending ses ∧
      lines w' = writeText ses idx cached (lines w))
   ∨ (∃ r,
      translationCacheRef w !! cacheKeyOf x (targetLanguage ses) = None ∧
      pending ses' = pending ses ++ [{| index := idx; itemText := x; awaited := r |}] ∧
      lines w' = lines w ∧
      Service.answered (service w') x r)).
Proof.
  intros Hflag HI. unfold startItem. rewrite Hflag. fold (cacheKeyOf x (targetLanguage ses)).
  destruct (translationCacheRef w !! cacheKeyOf x (targetLanguage ses)) as [cached|] eqn:Hc.
  - intros [= <- <-]. simpl. do 4 (split; [done|]). left. by exists cached.
  - pose proof (translate_answered (service w) x) as Hans.
    pose proof (translate_Inv (service w) (Service.mkOptions "ja" "zh" x) HI) as HI'.
    pose proof (λ y r, answered_translate (service w) (Service.mkOptions "ja" "zh" x) y r)
      as Hkeep.
    destruct (Service.translate _ _) as [r svc]. intros [= <- <-]. simpl in *.
    do 4 (split; [done|]). right. by exists r.
Qed.

Lemma startItems_success sid (batch : list nat) : ∀ w ses i0 w' ses',
  isCancelledRef w = false →
  translationProgress w = progressRef w →
  Service.Inv (service w) →
  NoDup (translatedSubtitles ses) →
  (∀ ref, ref ∈ translatedSubtitles ses → is_Some (lines w !! ref)) →
  (∀ j ref, batch !! j = Some ref → translatedSubtitles ses !! (i0 + j) = Some ref) →
  startItems sid w ses i0 batch = (w', ses') →
  translationCacheRef w' = translationCacheRef w ∧
  targetLanguage ses' = targetLanguage ses ∧
  Service.Inv (service w') ∧
  (∀ y r, Service.answered (service w) y r → Service.answered (service w') y r) ∧
  ∃ new, pending ses' = pending ses ++ new ∧
    (∀ it, it ∈ new →
       translationCacheRef w !! cacheKeyOf (itemText it) (targetLanguage ses) = None ∧
       Service.answered (service w') (itemText it) (awaited it)) ∧
    (∀ j ref, batch !! j = Some ref → i0 + j ∉ index <$> new →
       translationCacheRef w !! cacheKeyOf (textAt (lines w) ref) (targetLanguage ses)
       = Some (textAt (lines w') ref)).
Proof.
  induction batch as [|ref0 rest IH];
    intros w ses i0 w' ses' Hflag Hshown HI Hnd Hheap Halign; simpl.
  - intros [= <- <-]. do 4 (split; [done|]). exists []. rewrite app_nil_r.
    split; [done|]. split; [by intros it ?%elem_of_nil|done].
  - destruct (startItem sid w ses i0 (textAt (lines w) ref0)) as [w1 ses1] eqn:Hitem.
    intros Hrest.
    destruct (startItem_spec _ _ _ _ _ _ _ Hflag Hitem)
      as (F1 & _ & _ & _ & _ & _ & _ & B1 & _ & _ & Hcase1).
    assert (translationProgress w1 = progressRef w1) as Hshown1.
    { destruct Hcase1 as [(cached & _ & _ & ? & _)|(r & _ & E1 & E2 & _)]; congruence. }
    destruct (startItem_success _ _ _ _ _ _ _ Hflag HI Hitem)
      as (C1 & T1 & HI1 & A1 & Hcase).
    assert (∀ j ref, rest !! j = Some ref →
                     translatedSubtitles ses1 !! (S i0 + j) = Some ref) as Halign1.
    { intros j ref Hj. rewrite B1. replace (S i0 + j) with (i0 + S j) by lia.
      by apply Halign. }
    destruct (startItems_spec _ _ _ _ _ _ _ F1 Hshown1 Hrest)
      as (_ & _ & _ & _ & _ & _ & _ & _ & _ & _ & _ & new0 & Hpend0 & _ & _ & Htext0).
    destruct Htext0 as [Hkeep0 _]; [by rewrite B1|done|].
    assert (∀ ref, ref ∈ translatedSubtitles ses1 → is_Some (lines w1 !! ref)) as Hheap1.
    { intros ref Href. rewrite B1 in Href.
      eapply timing_is_Some; [by eapply startItem_timing|by apply Hheap]. }
    destruct (IH _ _ _ _ _ F1 Hshown1 HI1 ltac:(by rewrite B1) Hheap1 Halign1 Hrest)
      as (C2 & T2 & HI2 & A2 & new & Hpend & Hnew & Hhit).
    rewrite C1, T1 in Hnew, Hhit.
    split; [congruence|]. split; [congruence|]. split; [done|]. split; [by auto|].
    pose proof (Halign 0 ref0 eq_refl) as Href0. rewrite Nat.add_0_r in Href0.
    destruct Hcase as [(cached & Hc & Ep & El)|(r & Hc & Ep & El & Hans)].
    + (* the hook's cache has the text *)
      exists new. split; [congruence|]. split; [done|].
      intros [|j] ref Hj Hnot; simpl in Hj.
      * injection Hj as <-. rewrite Hc. f_equal. symmetry.
        rewrite (Hkeep0 i0 ref0); [|by rewrite B1|left; lia].
        rewrite El. apply writeText_new; [done|].
        apply Hheap. by eapply list_elem_of_lookup_2.
      * replace (i0 + S j) with (S i0 + j) in Hnot by lia.
        rewrite <- (Hhit j ref Hj Hnot). do 2 f_equal.
        rewrite El. symmetry. apply (writeText_index ses i0 cached _ (i0 + S j)); try done.
        -- by apply Halign.
        -- lia.
    + (* the text is requested from the service *)
      exists ({| index := i0; itemText := textAt (lines w) ref0; awaited := r |} :: new).
      split; [rewrite Hpend, Ep, <- app_assoc; done|]. split.
      * intros it [->|Hit]%elem_of_cons; [|by apply Hnew].
        simpl. split; [done|]. by apply A2.
      * intros [|j] ref Hj Hnot; simpl in Hj.
        -- exfalso. apply Hnot. rewrite Nat.add_0_r. simpl. by left.
        -- replace (i0 + S j) with (S i0 + j) in Hnot by lia.
           apply not_elem_of_cons in Hnot as [_ Hnot].
           rewrite <- (Hhit j ref Hj Hnot). by rewrite El.
Qed.

(** *** The invariant is kept *)

Lemma slice_lookup_window {A} (a k : nat) (l : list A) j x :
  l !! (a + j) = Some x → j < k → JS.slice a (a + k) l !! j = Some x.
Proof.
  intros Hj Hlt. unfold JS.slice.
  rewrite lookup_take_lt by lia. by rewrite lookup_drop.
Qed.

Section OneSessionMore.

Variables (w0 : World) (subs : list nat) (target : string).

Hypothesis Hidle : idle w0.
Hypothesis Hfresh : failedIn (length (sessions w0)) (console w0) = [].
Hypothesis Hnd : NoDup subs.
Hypothesis Hheap : ∀ ref, ref ∈ subs → is_Some (lines w0 !! ref).

Lemma enterWave_Success w ses :
  sessions w = sessions w0 ∨ (∃ old, sessions w = sessions w0 ++ [old]) →
  subtitles ses = subs → translatedSubtitles ses = subs →
  pending ses = [] → returned ses = false → targetLanguage ses = target →
  isCancelledRef w = false →
  translationProgress w = progressRef w →
  Service.Inv (service w) →
  (∀ ref, ref ∈ subs → is_Some (lines w !! ref)) →
  (∀ idx ref, subs !! idx = Some ref → idx < Nat.min (position ses) (length subs) →
     idx ∉ failedIn (length (sessions w0)) (console w) →
     translationCacheRef w !! cacheKeyOf (textAt (lines w0) ref) target
     = Some (textAt (lines w) ref)) →
  (∀ idx ref, subs !! idx = Some ref → Nat.min (position ses) (length subs) ≤ idx →
     textAt (lines w) ref = textAt (lines w0) ref) →
  ∃ ses', sessions (enterWave (length (sessions w0)) w ses) = sessions w0 ++ [ses'] ∧
          SuccessInv w0 subs target (enterWave (length (sessions w0)) w ses) ses'.
Proof.
  intros Hsessions Hsubs Htrans Hpend Hret Htarget Hflag Hshown HI Hin Hdone Htext.
  unfold enterWave. rewrite Hflag, Hsubs. simpl negb. rewrite andb_true_r.
  destruct (Nat.ltb_spec (position ses) (length subs)) as [Hlt|Hge].
  - (* a wave starts *)
    set (batch := JS.slice (position ses) (position ses + maxConcurrent) subs).
    destruct (startItems (length (sessions w0)) w ses (position ses) batch)
      as [w' ses'] eqn:Hitems.
    assert (∀ j ref, batch !! j = Some ref →
                     translatedSubtitles ses !! (position ses + j) = Some ref) as Halign.
    { intros j ref Hj. rewrite Htrans. by eapply slice_lookup. }
    destruct (startItems_spec _ _ _ _ _ _ _ Hflag Hshown Hitems)
      as (F & _ & _ & Hcons & _ & Hs & _ & A & B & P & R & new0 & Hpend0 & _ & Hsub0 & Htext0).
    destruct Htext0 as [Hkeep _]; [by rewrite Htrans|done|].
    destruct (startItems_success _ _ _ _ _ _ _ Hflag Hshown HI
                ltac:(by rewrite Htrans) ltac:(by rewrite Htrans) Halign Hitems)
      as (C & T & HI' & _ & new & Hnew & Hfresh' & Hhit).
    rewrite Hpend in Hnew, Hpend0. simpl in Hnew, Hpend0.
    exists ses'. split.
    { apply withSession_sessions; [done|by rewrite Hs]. }
    constructor; simpl.
    + congruence.
    + done.
    + intros idx ref Hidx Hdisp Hfail Hnotpending.
      unfold dispatched in Hdisp. rewrite R, Hret, P in Hdisp.
      rewrite Hcons in Hfail. rewrite C.
      destruct (decide (idx < position ses)) as [Hold|Hnow].
      * rewrite (Hkeep idx ref); [|by rewrite Htrans|by left].
        apply (Hdone idx); [done|lia|done].
      * assert (batch !! (idx - position ses) = Some ref) as Hj.
        { apply slice_lookup_window; [|lia].
          by replace (position ses + (idx - position ses)) with idx by lia. }
        rewrite <- (Htext idx ref Hidx) by lia. rewrite <- Htarget.
        apply (Hhit _ _ Hj).
        replace (position ses + (idx - position ses)) with idx by lia.
        by rewrite <- Hnew.
    + intros it v Hit Hv. rewrite Hnew in Hit. destruct (Hfresh' it Hit) as [Hnone _].
      rewrite C, <- Htarget in Hv. congruence.
    + intros it1 it2 H1 H2 Heq. rewrite Hnew in H1, H2.
      destruct (Hfresh' it1 H1) as [_ A1]. destruct (Hfresh' it2 H2) as [_ A2].
      rewrite Heq in A1. by eapply answered_once.
  - (* the session ends *)
    eexists. split.
    { apply withSession_sessions; [done|]. simpl. exact Hsessions. }
    constructor; simpl; try done.
    + intros idx ref Hidx Hdisp Hfail _. apply lookup_lt_Some in Hidx as Hlt.
      apply (Hdone idx); [done|lia|done].
    + rewrite Hpend. by intros it v ?%elem_of_nil.
    + rewrite Hpend. by intros it1 it2 ?%elem_of_nil.
Qed.

Lemma translateSubtitles_Success :
  subs ≠ [] →
  Service.Inv (service w0) →
  ∃ ses, sessions (translateSubtitles w0 subs target) = sessions w0 ++ [ses] ∧
         SuccessInv w0 subs target (translateSubtitles w0 subs target) ses.
Proof.
  intros Hne HI. rewrite translateSubtitles_nonempty by done.
  apply enterWave_Success; simpl; auto.
  intros idx ref _ Hlt. lia.
Qed.

Lemma itemDone_Success w ses it outcome :
  sessions w = sessions w0 ++ [ses] →
  SessionInv w0 subs w ses →
  SuccessInv w0 subs target w ses →
  (∀ ref, ref ∈ subs → is_Some (lines w !! ref)) →
  it ∈ pending ses →
  Service.observed (service w) (awaited it) = Some outcome →
  SuccessInv w0 subs target
    (withSession (finishItem (length (sessions w0)) w ses it outcome)
                 (length (sessions w0)) (withoutItem ses (index it)))
    (withoutItem ses (index it)).
Proof.
  intros Hsessions HS [Htarget HI Hdone Hpending Hsame] Hin Hit Hobs.
  pose proof (si_translated _ _ _ _ HS) as Htrans.
  pose proof (si_nodup _ _ _ _ HS) as Hnodup.
  assert (∀ idx, idx ∉ index <$> pending (withoutItem ses (index it)) →
                 idx ≠ index it → idx ∉ index <$> pending ses) as Hleft.
  { intros idx Hnot Hne (it' & -> & Hit')%list_elem_of_fmap. apply Hnot.
    apply list_elem_of_fmap. exists it'. split; [done|].
    simpl. apply list_elem_of_filter. by split. }
  assert (∀ it', it' ∈ pending (withoutItem ses (index it)) → it' ∈ pending ses) as Hsub.
  { intros it' Hit'. simpl in Hit'. by apply list_elem_of_filter in Hit' as [_ ?]. }
  destruct (si_bounds _ _ _ _ HS it Hit) as [_ Hdisp].
  assert (is_Some (subs !! index it)) as [ref0 Href0].
  { apply lookup_lt_is_Some. unfold dispatched in Hdisp.
    destruct (returned ses); lia. }
  pose proof (si_item _ _ _ _ HS Hnd it ref0 Hit Href0) as Htext0.
  destruct outcome as [v|e]; unfold finishItem.
  - (* the translation has arrived *)
    rewrite (si_flag _ _ _ _ HS).
    constructor; simpl; try done.
    + intros idx ref Hidx Hd Hfail Hnotpending.
      fold (cacheKeyOf (itemText it) (targetLanguage ses)). rewrite Htarget.
      destruct (decide (idx = index it)) as [->|Hne].
      * assert (ref = ref0) as -> by congruence.
        rewrite <- Htext0, lookup_insert_eq. f_equal. symmetry.
        apply writeText_new; [by rewrite Htrans|].
        apply Hin. by eapply list_elem_of_lookup_2.
      * rewrite (writeText_index ses (index it) v _ idx) by (by rewrite ?Htrans).
        specialize (Hdone idx ref Hidx Hd Hfail (Hleft idx Hnotpending Hne)).
        destruct (decide (cacheKeyOf (itemText it) target
                          = cacheKeyOf (textAt (lines w0) ref) target)) as [Hk|Hk].
        -- rewrite <- Hk, lookup_insert_eq. f_equal.
           rewrite <- Hk in Hdone. apply (Hpending it _ Hit) in Hdone. congruence.
        -- by rewrite lookup_insert_ne.
    + intros it' v' Hit' Hv'.
      fold (cacheKeyOf (itemText it) (targetLanguage ses)) in Hv'. rewrite Htarget in Hv'.
      destruct (decide (cacheKeyOf (itemText it) target = cacheKeyOf (itemText it') target))
        as [Hk|Hk].
      * rewrite <- Hk, lookup_insert_eq in Hv'. injection Hv' as <-.
        apply cacheKeyOf_inj in Hk.
        rewrite <- (Hsame it it' Hit (Hsub _ Hit') Hk). done.
      * rewrite lookup_insert_ne in Hv' by done. by apply Hpending; [apply Hsub|].
    + intros it1 it2 H1 H2. apply Hsame; by apply Hsub.
  - (* the translation has failed *)
    constructor; simpl; try done.
    + intros idx ref Hidx Hd Hfail Hnotpending.
      rewrite failedIn_cons_failed in Hfail.
      apply not_elem_of_cons in Hfail as [Hne Hfail].
      rewrite (writeText_index ses (index it) _ _ idx) by (by rewrite ?Htrans).
      by apply (Hdone idx); [| | |apply Hleft].
    + intros it' v' Hit' Hv'. by apply Hpending; [apply Hsub|].
    + intros it1 it2 H1 H2. apply Hsame; by apply Hsub.
Qed.

Lemma success_step w l w' ses :
  sessions w = sessions w0 ++ [ses] →
  SessionInv w0 subs w ses →
  SuccessInv w0 subs target w ses →
  (∀ ref, ref ∈ subs → is_Some (lines w !! ref)) →
  quiet l = true →
  step w l = Some w' →
  ∃ ses', sessions w' = sessions w0 ++ [ses'] ∧
          SessionInv w0 subs w' ses' ∧
          SuccessInv w0 subs target w' ses' ∧
          (∀ ref, ref ∈ subs → is_Some (lines w' !! ref)).
Proof.
  intros Hsessions HS HU Hin Hquiet Hstep.
  destruct (session_step_Inv w0 subs Hidle w l w') as (ses1 & Hsessions1 & HS1);
    [by exists ses|done|done|].
  assert (∀ ref, ref ∈ subs → is_Some (lines w' !! ref)) as Hin'.
  { intros ref Href. eapply timing_is_Some; [by eapply step_timing|by apply Hin]. }
  assert (∀ ses', sessions w' = sessions w0 ++ [ses'] →
                  SuccessInv w0 subs target w' ses' →
                  ∃ ses', sessions w' = sessions w0 ++ [ses'] ∧
                          SessionInv w0 subs w' ses' ∧
                          SuccessInv w0 subs target w' ses' ∧
                          (∀ ref, ref ∈ subs → is_Some (lines w' !! ref))) as Hclose.
  { intros ses' Hs' HU'. exists ses'. split; [done|]. split; [|done].
    rewrite Hs' in Hsessions1. apply app_inv_head in Hsessions1.
    by injection Hsessions1 as ->. }
  destruct HU as [Htarget HI Hdone Hpending Hsame].
  destruct l as [l'|? ?| |sid' idx|sid']; try done; simpl in Hstep.
  - (* the service moves *)
    destruct (Service.step (service w) l') as [svc|] eqn:Hsvc; [|done].
    injection Hstep as <-. apply (Hclose ses); [done|].
    constructor; simpl; try done.
    + by eapply step_Inv.
    + intros it v Hit Hv. eapply observed_stable; [done|done|]. by apply Hpending.
  - (* an item resumes *)
    destruct (sessions w !! sid') as [ses2|] eqn:Hlook; [|done].
    destruct (session_lookup w0 subs Hidle w ses sid' ses2 Hsessions Hlook)
      as [[Hnone _]|[-> ->]].
    { rewrite Hnone in Hstep. done. }
    destruct (list_find _ (pending ses)) as [[j it]|] eqn:Hfind; [|done].
    apply list_find_elem in Hfind as [Hit Hidx]. subst idx.
    destruct (Service.observed _ _) as [outcome|] eqn:Hobs; [|done].
    injection Hstep as <-.
    apply (Hclose (withoutItem ses (index it))).
    + apply withSession_sessions; [done|]. right. exists ses.
      unfold finishItem. destruct outcome; [destruct (isCancelledRef w)|]; done.
    + by apply itemDone_Success.
  - (* a wave is complete *)
    destruct (sessions w !! sid') as [ses2|] eqn:Hlook; [|done].
    destruct (session_lookup w0 subs Hidle w ses sid' ses2 Hsessions Hlook)
      as [[_ Hret]|[-> ->]].
    { rewrite Hret in Hstep. done. }
    destruct (returned ses) eqn:Hret; [done|].
    destruct (pending ses) as [|? ?] eqn:Hpend; [|done].
    injection Hstep as <-.
    destruct (enterWave_Success w
                {| subtitles := subtitles ses; targetLanguage := targetLanguage ses;
                   translatedSubtitles := translatedSubtitles ses;
                   cacheHits := cacheHits ses; cacheTotal := cacheTotal ses;
                   position := position ses + maxConcurrent; pending := [];
                   returned := false |}) as (ses' & Hs' & HU'); simpl; try done.
    + right. by exists ses.
    + apply (si_subs _ _ _ _ HS).
    + apply (si_translated _ _ _ _ HS).
    + apply (si_flag _ _ _ _ HS).
    + apply (si_shown _ _ _ _ HS).
    + intros idx ref Hidx Hlt Hfail. apply (Hdone idx); try done.
      * unfold dispatched. by rewrite ?Hret.
      * rewrite ?Hpend. by intros ?%elem_of_nil.
    + intros idx ref Hidx Hge. apply (si_text _ _ _ _ HS Hnd idx ref Hidx).
      left. unfold dispatched. by rewrite ?Hret.
    + by apply (Hclose ses').
Qed.

Lemma success_run ls : ∀ w w' ses,
  sessions w = sessions w0 ++ [ses] →
  SessionInv w0 subs w ses →
  SuccessInv w0 subs target w ses →
  (∀ ref, ref ∈ subs → is_Some (lines w !! ref)) →
  forallb quiet ls = true →
  run w ls = Some w' →
  ∃ ses', sessions w' = sessions w0 ++ [ses'] ∧
          SessionInv w0 subs w' ses' ∧
          SuccessInv w0 subs target w' ses'.
Proof.
  induction ls as [|l ls IH]; intros w w' ses Hsessions HS HU Hin; simpl.
  - intros _ [= <-]. eauto.
  - intros [Hq Hqs]%andb_true_iff. destruct (step w l) as [w1|] eqn:Hstep; [|done].
    intros Hrun.
    destruct (success_step _ _ _ _ Hsessions HS HU Hin Hq Hstep)
      as (ses1 & Hs1 & HS1 & HU1 & Hin1).
    by eapply IH.
Qed.

End OneSessionMore.

(** A session is started on an idle hook with distinct subtitle objects
    and runs under any interleaving of remote completions and resumptions
    (no cancellation, no other session).  In every state of the run, a
    record that was handed out and has neither failed nor is still
    waiting holds what the hook's cache holds for its original text; hence
    two such records with the same original text hold the same text. *)
Theorem completed_records_hold_the_cached_translation
    w0 (subs : list nat) target ls w :
  idle w0 →
  failedIn (length (sessions w0)) (console w0) = [] →
  Service.Inv (service w0) →
  NoDup subs → (∀ ref, ref ∈ subs → is_Some (lines w0 !! ref)) → subs ≠ [] →
  forallb quiet ls = true →
  run (translateSubtitles w0 subs target) ls = Some w →
  let sid := length (sessions w0) in
  ∃ ses, sessions w !! sid = Some ses ∧
    (∀ idx ref, subs !! idx = Some ref →
       idx < dispatched subs ses → idx ∉ index <$> pending ses →
       idx ∉ failedIn sid (console w) →
       translationCacheRef w !! cacheKeyOf (textAt (lines w0) ref) target
       = Some (textAt (lines w) ref)) ∧
    (∀ idx1 ref1 idx2 ref2,
       subs !! idx1 = Some ref1 → subs !! idx2 = Some ref2 →
       idx1 < dispatched subs ses → idx2 < dispatched subs ses →
       idx1 ∉ index <$> pending ses → idx2 ∉ index <$> pending ses →
       idx1 ∉ failedIn sid (console w) → idx2 ∉ failedIn sid (console w) →
       textAt (lines w0) ref1 = textAt (lines w0) ref2 →
       textAt (lines w) ref1 = textAt (lines w) ref2).
Proof.
  intros Hidle Hfresh HI Hnd Hheap Hne Hquiet Hrun sid.
  destruct (translateSubtitles_Inv w0 subs Hfresh target Hne) as (ses0 & Hs0 & HS0).
  destruct (translateSubtitles_Success w0 subs target Hnd Hheap Hne HI)
    as (ses0' & Hs0' & HU0).
  assert (ses0' = ses0) as ->.
  { rewrite Hs0' in Hs0. apply app_inv_head in Hs0. by injection Hs0. }
  destruct (success_run w0 subs target Hidle Hnd ls _ w ses0 Hs0 HS0 HU0)
    as (ses & Hs & HS & HU); try done.
  { intros ref Href. eapply timing_is_Some; [|by apply Hheap].
    apply (step_timing w0 (TranslateSubtitles subs target)). reflexivity. }
  exists ses. split.
  { rewrite Hs. rewrite lookup_app_r by done. by rewrite Nat.sub_diag. }
  destruct HU as [_ _ Hdone _ _]. split.
  - intros idx ref Hidx Hd Hp Hf. by apply (Hdone idx).
  - intros idx1 ref1 idx2 ref2 H1 H2 D1 D2 P1 P2 F1 F2 Heq.
    pose proof (Hdone idx1 ref1 H1 D1 F1 P1) as E1.
    pose proof (Hdone idx2 ref2 H2 D2 F2 P2) as E2.
    rewrite Heq in E1. congruence.
Qed.

(** The theorem on two records that are both translated. *)
Lemma completed_records_hold_the_cached_translation_witness :
  ∃ w, run (translateSubtitles (mount twoLines) [0; 1] "zh") bothRecordsSucceed = Some w ∧
       textAt (lines w) 0 = "A" ∧
       translationCacheRef w !! cacheKeyOf "a" "zh" = Some (textAt (lines w) 0).
Proof.
  destruct (run (translateSubtitles (mount twoLines) [0; 1] "zh") bothRecordsSucceed)
    as [w|] eqn:Hrun; [|exfalso; revert Hrun; vm_compute; discriminate].
  exists w. split; [reflexivity|].
  assert ((textAt (lines w) 0, returned <$> sessions w !! 0, pending <$> sessions w !! 0,
           failedIn 0 (console w)) = ("A", Some true, Some [], []))
    as [= Htext Hret Hpend Hfail].
  { revert Hrun. vm_compute. by intros [= <-]. }
  split; [exact Htext|].
  destruct (completed_records_hold_the_cached_translation (mount twoLines) [0; 1] "zh"
              bothRecordsSucceed w) as (ses & Hses & Hdone & _).
  - constructor.
  - vm_compute. reflexivity.
  - apply Inv_new.
  - apply NoDup_cons. split; [by intros ?%list_elem_of_singleton|apply NoDup_singleton].
  - intros ref [->|[->|[]%elem_of_nil]%elem_of_cons]%elem_of_cons; vm_compute; eauto.
  - discriminate.
  - vm_compute. reflexivity.
  - exact Hrun.
  - change (sessions w !! 0 = Some ses) in Hses. rewrite Hses in Hret, Hpend.
    injection Hret as Hret. injection Hpend as Hpend.
    apply (Hdone 0 0).
    + reflexivity.
    + unfold dispatched. rewrite Hret. simpl. lia.
    + rewrite Hpend. by intros ?%elem_of_nil.
    + change (0 ∉ failedIn 0 (console w)). rewrite Hfail. by intros ?%elem_of_nil.
Defined.

End HookSuccess.
